(** * conquertheuniverse: a model of the RTS control core

    The development embeds the parts of the JavaScript sources that carry the
    behaviour of the control core:

    - [src/systems/math.js]        (ground-plane raycast),
    - [src/systems/command_bus.js] (synchronous publish/subscribe),
    - [src/units/unit.js]          (per-unit steering tick),
    - [src/units/unit_manager.js]  (formation offsets, obstacle projection,
                                    the MoveSelectedTo handler),
    - [src/systems/input.js]       (selection end, manual rotate drag).

    JavaScript numbers are modelled by the real numbers [R]: rounding, NaN and
    the infinities are outside that model, and a statement proved in it is a
    statement of exact arithmetic.  Comparisons of numbers are the
    decision procedures [Rlt_dec], [Rle_dec], [Rgt_dec] of the standard
    library.  [THREE.Vector3] is an external library; the few operations
    the sources call are written out in [Vector3] following three.js r160.

    Where a bound is decided by rounding (the speed clamp of the tick), the
    code is modelled twice more, in [Rounded] (every operation followed by a
    rounding of bounded relative error) and in [Binary64] (the binary64
    numbers of the kernel). *)

From stdpp Require Import base list gmap strings.
From Stdlib Require Import Reals Lra Lia.
From Stdlib Require PrimFloat.

Open Scope R_scope.

(** ** THREE.Vector3 *)

Module Vector3.

Record t : Type := mk { x : R; y : R; z : R }.

Definition zero : t := mk 0 0 0.

Definition add (a b : t) : t := mk (x a + x b) (y a + y b) (z a + z b).

Definition sub (a b : t) : t := mk (x a - x b) (y a - y b) (z a - z b).

Definition multiplyScalar (v : t) (s : R) : t := mk (x v * s) (y v * s) (z v * s).

(** three.js: [divideScalar(s) { return this.multiplyScalar(1 / s) }] *)
Definition divideScalar (v : t) (s : R) : t := multiplyScalar v (1 / s).

Definition addScaledVector (a v : t) (s : R) : t :=
  mk (x a + x v * s) (y a + y v * s) (z a + z v * s).

Definition dot (a b : t) : R := x a * x b + y a * y b + z a * z b.

Definition lengthSq (v : t) : R := x v * x v + y v * y v + z v * z v.

Definition length (v : t) : R := sqrt (lengthSq v).

Definition distanceToSquared (a b : t) : R :=
  let dx := x a - x b in
  let dy := y a - y b in
  let dz := z a - z b in
  dx * dx + dy * dy + dz * dz.

Definition distanceTo (a b : t) : R := sqrt (distanceToSquared a b).

(** three.js: [normalize() { return this.divideScalar(this.length() || 1) }] *)
Definition normalize (v : t) : t :=
  divideScalar v (if Req_dec_T (length v) 0 then 1 else length v).

Definition crossVectors (a b : t) : t :=
  mk (y a * z b - z a * y b) (z a * x b - x a * z b) (x a * y b - y a * x b).

Definition setY (v : t) (y' : R) : t := mk (x v) y' (z v).

End Vector3.

(** [THREE.MathUtils.clamp(value, min, max)] is
    [Math.max(min, Math.min(max, value))]. *)
Definition clamp (value lo hi : R) : R := Rmax lo (Rmin hi value).

(** ** src/systems/math.js *)

Module MathSys.
Import Vector3.

Definition UP : Vector3.t := mk 0 1 0.

(** [raycastGroundPlane(origin, dir)]: [None] is JavaScript's [null]. *)
Definition raycastGroundPlane (origin dir : Vector3.t) : option Vector3.t :=
  let denom := dot dir UP in
  if Rlt_dec (Rabs denom) 1e-6 then None
  else
    let t := - y origin / denom in
    if Rlt_dec t 0 then None
    else Some (add origin (multiplyScalar dir t)).

Definition distance3 (a b : Vector3.t) : R := distanceTo a b.

(** The rectangle [canvas.getBoundingClientRect()]. *)
Record Rect : Type := mkRect { left : R; top : R; width : R; height : R }.

(** [ndcFromMouseEvent(e, canvas)], from the fields of [e] it reads. *)
Definition ndcFromMouseEvent (clientX clientY : R) (rect : Rect) : R * R :=
  let x := ((clientX - left rect) / width rect) * 2 - 1 in
  let y := - ((clientY - top rect) / height rect) * 2 + 1 in
  (x, y).

(** [rayFromMouse(ndcX, ndcY, camera)]: [position] is [camera.position] and
    [unproject] is three.js's [Vector3.unproject(camera)] for that camera,
    which depends on projection matrices outside the model. *)
Definition rayFromMouse (unproject : Vector3.t → Vector3.t) (ndcX ndcY : R)
    (position : Vector3.t) : Vector3.t * Vector3.t :=
  let origin := position in
  let worldPoint := unproject (mk ndcX ndcY 0.5) in
  let dir := normalize (sub worldPoint origin) in
  (origin, dir).

End MathSys.

(** ** src/systems/command_bus.js

    [listeners] is a JavaScript [Map] from command kind to a [Set] of
    functions.  A function object is identified by reference: [H] is the type
    of those references, with decidable equality, and [call fn payload]
    is the effect of calling the function on the state [W] outside the bus
    (a subscriber that re-enters the bus while an emission runs is outside
    the model: no subscriber of the repository does).  A [Set] iterates in
    insertion order and holds no element twice: it is a list to which [add]
    appends only an absent element. *)

Module CommandBus.
Section Bus.
Context {H : Type} `{EqDecision H} {P W : Type}.
Variable call : H → P → W → W.

Record t : Type := mk { listeners : gmap string (list H) }.

(** [new CommandBus()] *)
Definition new : t := mk ∅.

(** [Set.prototype.add] *)
Definition set_add (s : list H) (fn : H) : list H :=
  if decide (fn ∈ s) then s else s ++ [fn].

(** [Set.prototype.delete] *)
Definition set_delete (s : list H) (fn : H) : list H :=
  filter (λ g, g ≠ fn) s.

(** [off(type, fn) { this.listeners.get(type)?.delete(fn) }] *)
Definition off (b : t) (type : string) (fn : H) : t :=
  match listeners b !! type with
  | Some s => mk (<[type := set_delete s fn]> (listeners b))
  | None => b
  end.

(** [on(type, fn)]: the new bus and the unsubscribe handle
    [() => this.off(type, fn)], which acts on the bus as it is when the
    handle is invoked. *)
Definition on (b : t) (type : string) (fn : H) : t * (t → t) :=
  let m :=
    match listeners b !! type with
    | Some _ => listeners b
    | None => <[type := []]> (listeners b)
    end in
  let m' :=
    match m !! type with
    | Some s => <[type := set_add s fn]> m
    | None => m
    end in
  (mk m', λ b', off b' type fn).

(** The subscribers [forEach] visits, in order. *)
Definition run (payload : P) (fns : list H) (w : W) : W :=
  foldl (λ w' fn, call fn payload w') w fns.

(** [emit(type, payload) { this.listeners.get(type)?.forEach((fn) => fn(payload)) }] *)
Definition emit (b : t) (type : string) (payload : P) (w : W) : W :=
  match listeners b !! type with
  | Some s => run payload s w
  | None => w
  end.

(** Every [Set] of the bus is free of duplicates. *)
Definition wf (b : t) : Prop :=
  ∀ type s, listeners b !! type = Some s → NoDup s.

(** [fn] is in the [Set] of kind [type]. *)
Definition subscribed (b : t) (type : string) (fn : H) : Prop :=
  ∃ s, listeners b !! type = Some s ∧ fn ∈ s.

End Bus.
End CommandBus.

(** Command kinds: [CMD.MOVE_SELECTED_TO]. *)
Definition MOVE_SELECTED_TO : string := "MOVE_SELECTED_TO".

(** ** Obstacles: [{ id, position, radius, mesh }] of the obstacle manager
    (the mesh belongs to the presentation and is left out). *)

Module Obstacle.
Record t : Type := mk { id : nat; position : Vector3.t; radius : R }.
End Obstacle.

(** ** src/units/unit.js

    The mesh of a unit (its material highlight, its copy of the position and
    its orientation quaternion) is presentation state that no steering
    computation reads: [setSelected] keeps the flag, [update] the motion.
    The magnitude clamps [v.multiplyScalar(m / len)] and the normalisations
    are exact over the reals; in binary64 their results have the intended
    length up to rounding. *)

Module Unit.
Import Vector3.

Record t : Type := mk {
  id : nat;
  position : Vector3.t;
  velocity : Vector3.t;
  target : option Vector3.t;
  selected : bool;
  maxSpeed : R;
  maxAccel : R;
  maxTurnRate : R;
  radius : R;
  arriveRadius : R;
  stopRadius : R;
  idleDamping : R;
  maxHp : R;
  hp : R;
  avoidLookahead : R;
  avoidMargin : R;
  maxAvoidForce : R;
  avoidWeight : R
}.

(** The options of the constructor: an absent option is [None]. *)
Record opts : Type := mkOpts {
  optMaxSpeed : option R;
  optMaxAccel : option R;
  optMaxTurnRate : option R;
  optRadius : option R;
  optMaxHp : option R
}.

Definition noOpts : opts := mkOpts None None None None None.

(** [new Unit(position, opts)] with [id = NEXT_ID++]. *)
Definition new (nextId : nat) (pos : Vector3.t) (o : opts) : t :=
  let maxHp := default 100 (optMaxHp o) in
  {| id := nextId;
     position := pos;
     velocity := zero;
     target := None;
     selected := false;
     maxSpeed := default 10 (optMaxSpeed o);
     maxAccel := default 15 (optMaxAccel o);
     maxTurnRate := default 2.0 (optMaxTurnRate o);
     radius := default 0.8 (optRadius o);
     arriveRadius := 6;
     stopRadius := 0.6;
     idleDamping := 0.9;
     maxHp := maxHp;
     hp := maxHp;
     avoidLookahead := 1.2;
     avoidMargin := 0.6;
     maxAvoidForce := 30;
     avoidWeight := 1.2 |}.

Definition with_motion (u : t) (p v : Vector3.t) (tg : option Vector3.t) : t :=
  {| id := id u; position := p; velocity := v; target := tg;
     selected := selected u; maxSpeed := maxSpeed u; maxAccel := maxAccel u;
     maxTurnRate := maxTurnRate u; radius := radius u;
     arriveRadius := arriveRadius u; stopRadius := stopRadius u;
     idleDamping := idleDamping u; maxHp := maxHp u; hp := hp u;
     avoidLookahead := avoidLookahead u; avoidMargin := avoidMargin u;
     maxAvoidForce := maxAvoidForce u; avoidWeight := avoidWeight u |}.

(** [setSelected(sel)] *)
Definition setSelected (u : t) (sel : bool) : t :=
  {| id := id u; position := position u; velocity := velocity u;
     target := target u;
     selected := sel; maxSpeed := maxSpeed u; maxAccel := maxAccel u;
     maxTurnRate := maxTurnRate u; radius := radius u;
     arriveRadius := arriveRadius u; stopRadius := stopRadius u;
     idleDamping := idleDamping u; maxHp := maxHp u; hp := hp u;
     avoidLookahead := avoidLookahead u; avoidMargin := avoidMargin u;
     maxAvoidForce := maxAvoidForce u; avoidWeight := avoidWeight u |}.

(** [setTarget(vec3) { this.target = vec3 ? vec3.clone() : null }] *)
Definition setTarget (u : t) (vec3 : option Vector3.t) : t :=
  with_motion u (position u) (velocity u) vec3.

(** [separation(self, neighbors, maxAccel)]: the loop keeps the sum
    [repulse] and the number [count] of contributing neighbours;
    [n === self] compares references, which the unique ids stand for.
    Every unit has a numeric radius, so [n.radius ?? self.radius] is
    [n.radius]. *)
Definition separationStep (self : t) (acc : Vector3.t * nat) (n : t)
  : Vector3.t * nat :=
  let '(repulse, count) := acc in
  if Nat.eqb (id n) (id self) then acc
  else
    let diff := sub (position self) (position n) in
    let d := length diff in
    let desired := (radius self + radius n) * 1.2 in
    if Rgt_dec d 0 then
      if Rlt_dec d desired then
        (add repulse (divideScalar diff (d * d + 1e-6)), S count)
      else acc
    else acc.

Definition separation (self : t) (neighbors : list t) (maxAccel : R)
  : Vector3.t :=
  let '(repulse, count) := foldl (separationStep self) (zero, O) neighbors in
  let repulse :=
    match count with
    | O => repulse
    | S _ => divideScalar repulse (INR count)
    end in
  let mag := length repulse in
  if Rgt_dec mag maxAccel then multiplyScalar repulse (maxAccel / mag)
  else repulse.

(** The state of the obstacle loop of [avoidSpheres]: [None] stands for
    [mostThreat = null], [minDist = Infinity], [closestPoint = null]. *)
Definition threat : Type := option (Obstacle.t * R * Vector3.t).

Definition threatStep (self : t) (segStart forward : Vector3.t) (lookDist : R)
    (acc : threat) (ob : Obstacle.t) : threat :=
  let center := Obstacle.position ob in
  let expanded := Obstacle.radius ob + radius self + avoidMargin self in
  let toCenter := sub center segStart in
  if Rlt_dec (dot toCenter forward) (- expanded) then acc
  else
    let t := clamp (dot toCenter forward) 0 lookDist in
    let p := addScaledVector segStart forward t in
    let d := distanceTo p center in
    if Rlt_dec d expanded then
      match acc with
      | None => Some (ob, d, p)
      | Some (_, minDist, _) =>
          if Rlt_dec d minDist then Some (ob, d, p) else acc
      end
    else acc.

(** [avoidSpheres(self, obstacles)] *)
Definition avoidSpheres (self : t) (obstacles : list Obstacle.t) : Vector3.t :=
  let forward :=
    match target self with
    | Some tg =>
        if Rlt_dec (lengthSq (velocity self)) 1e-4
        then sub tg (position self) else velocity self
    | None => velocity self
    end in
  let speed := Rmax 0.001 (length (velocity self)) in
  if Rlt_dec (lengthSq forward) 1e-6 then zero
  else
    let forward := normalize forward in
    let lookDist :=
      Rmax 2.0 (speed * avoidLookahead self + maxSpeed self * 0.25) in
    let segStart := position self in
    match foldl (threatStep self segStart forward lookDist) None obstacles with
    | None => zero
    | Some (mostThreat, minDist, closestPoint) =>
        let normal := sub closestPoint (Obstacle.position mostThreat) in
        let nLen := length normal in
        if Rlt_dec nLen 1e-6 then zero
        else
          let normal := divideScalar normal nLen in
          let expanded :=
            Obstacle.radius mostThreat + radius self + avoidMargin self in
          let penetration := Rmax 0 (expanded - minDist) in
          let strength :=
            clamp (penetration / expanded) 0.1 1.0 * maxAvoidForce self in
          let forwardComp := dot normal forward in
          let avoidDir :=
            normalize (addScaledVector normal forward (- forwardComp)) in
          multiplyScalar avoidDir strength
    end.

(** The arrival step of [update]: the unit after it and the steering it
    adds. *)
Definition arrive (self : t) : t * Vector3.t :=
  match target self with
  | Some tg =>
      let toTarget := sub tg (position self) in
      let d := length toTarget in
      if Rle_dec d (stopRadius self) then
        (with_motion self (position self) zero None, zero)
      else
        let desiredSpeed :=
          if Rlt_dec d (arriveRadius self)
          then maxSpeed self * (d / arriveRadius self)
          else maxSpeed self in
        let desired :=
          multiplyScalar (multiplyScalar toTarget (1 / d)) desiredSpeed in
        let arriveSteer := sub desired (velocity self) in
        let mag := length arriveSteer in
        let arriveSteer :=
          if Rgt_dec mag (maxAccel self)
          then multiplyScalar arriveSteer (maxAccel self / mag)
          else arriveSteer in
        (self, add zero arriveSteer)
  | None => (self, zero)
  end.

(** The steering of one tick: arrival, separation, obstacle avoidance. *)
Definition steering (self : t) (steer : Vector3.t) (neighbors : list t)
    (obstacles : list Obstacle.t) : Vector3.t :=
  let sepWeight := match target self with Some _ => 0.9 | None => 0.6 end in
  let sep := separation self neighbors (maxAccel self) in
  let steer := addScaledVector steer sep sepWeight in
  match obstacles with
  | [] => steer
  | _ :: _ =>
      let avoid := avoidSpheres self obstacles in
      if Rgt_dec (lengthSq avoid) 0 then
        let mag := length avoid in
        let avoid :=
          if Rgt_dec mag (maxAvoidForce self)
          then multiplyScalar avoid (maxAvoidForce self / mag)
          else avoid in
        addScaledVector steer avoid (avoidWeight self)
      else steer
  end.

(** The integration step of [update]: the speed clamp and the idle damping
    applied to the velocity [velocity] that already holds the steering;
    [Math.pow] of a positive base is [Rpower].  Over the reals the clamp
    returns a velocity of length exactly [maxSpeed]; [Rounded.integrate] and
    [Binary64.update] are the same step with its rounding. *)
Definition integrate (self : t) (velocity : Vector3.t) (dt : R) : Vector3.t :=
  let speed := length velocity in
  let velocity :=
    if Rgt_dec speed (maxSpeed self)
    then multiplyScalar velocity (maxSpeed self / speed)
    else velocity in
  match target self with
  | None =>
      if Rgt_dec speed 0
      then multiplyScalar velocity
             (Rpower (idleDamping self) (Rmax 1 (dt * 60)))
      else velocity
  | Some _ => velocity
  end.

(** [update(dt, neighbors, obstacles)] *)
Definition update (self : t) (dt : R) (neighbors : list t)
    (obstacles : list Obstacle.t) : t :=
  let '(self, steer) := arrive self in
  let steer := steering self steer neighbors obstacles in
  let velocity :=
    integrate self (addScaledVector (velocity self) steer dt) dt in
  let position := addScaledVector (position self) velocity dt in
  with_motion self position velocity (target self).

End Unit.

(** ** src/units/unit_manager.js *)

Module UnitManager.

(** [units] is the array of unit objects; [obstacles] is the obstacle
    manager or [null], read through [this.obstacles?.getAll() ?? []]. *)
Record t : Type := mk {
  units : list Unit.t;
  obstacles : option (list Obstacle.t)
}.

Definition getAll (um : t) : list Obstacle.t := default [] (obstacles um).

(** A planar offset [{ x, z }]. *)
Record offset : Type := mkOffset { x : R; z : R }.

Definition goldenAngle : R := PI * (3 - sqrt 5).

(** The [k]-th point pushed by the loop of [sunflowerOffsets]. *)
Definition sunflowerOffset (c : R) (k : nat) : offset :=
  let r := c * sqrt (INR k + 0.5) in
  let theta := INR k * goldenAngle in
  mkOffset (r * cos theta) (r * sin theta).

(** [sunflowerOffsets(n, spacing)] *)
Definition sunflowerOffsets (n : nat) (spacing : R) : list offset :=
  let c := spacing / sqrt PI in
  sunflowerOffset c <$> seq 0 n.

Definition margin : R := 0.2.

(** One turn of the loop of [projectOutsideObstacles]. *)
Definition projectStep (unitRadius : R) (p : Vector3.t) (ob : Obstacle.t)
  : Vector3.t :=
  let dir := Vector3.sub p (Obstacle.position ob) in
  let d := Vector3.length dir in
  let limit := Obstacle.radius ob + unitRadius + margin in
  if Rlt_dec d limit then
    let dir :=
      if Rlt_dec d 1e-5 then Vector3.mk 1 0 0
      else Vector3.divideScalar dir d in
    Vector3.addScaledVector (Obstacle.position ob) dir limit
  else p.

(** [projectOutsideObstacles(point, unitRadius, obstacles)] *)
Definition projectOutsideObstacles (point : Vector3.t) (unitRadius : R)
    (obstacles : list Obstacle.t) : Vector3.t :=
  foldl (projectStep unitRadius) point obstacles.

(** [this.units.filter(u => u.selected)]: the selected units, as the
    indices of their objects in [units] (the filtered array shares the
    objects with [units]). *)
Definition selectedIndices (us : list Unit.t) : list nat :=
  filter (λ i, Unit.selected <$> us !! i = Some true) (seq 0 (length us)).

(** The units the indices stand for. *)
Definition deref (us : list Unit.t) (sel : list nat) : list Unit.t :=
  omap (λ i, us !! i) sel.

(** The candidate target of the assignment loop:
    [new THREE.Vector3(target.x + off.x, target.y, target.z + off.z)]. *)
Definition candidate (target : Vector3.t) (off : offset) : Vector3.t :=
  Vector3.mk (Vector3.x target + x off)
             (Vector3.y target)
             (Vector3.z target + z off).

(** One turn of the assignment loop: [sel[i].setTarget(t)]. *)
Definition assignStep (target : Vector3.t) (obs : list Obstacle.t)
    (us : list Unit.t) (io : nat * offset) : list Unit.t :=
  let '(i, off) := io in
  match us !! i with
  | Some u =>
      let t := candidate target off in
      let t := projectOutsideObstacles t (Unit.radius u) obs in
      <[i := Unit.setTarget u (Some t)]> us
  | None => us
  end.

(** The subscriber that [connectTo] registers for [MOVE_SELECTED_TO]. *)
Definition onMoveSelectedTo (um : t) (target : Vector3.t) : t :=
  let sel := selectedIndices (units um) in
  match sel with
  | [] => um
  | _ :: _ =>
      let n := length sel in
      let avgRadius :=
        foldl (λ s u, s + Unit.radius u) 0 (deref (units um) sel) / INR n in
      let spacing := Rmax 1.2 (2 * avgRadius + 0.4) in
      let offsets := sunflowerOffsets n spacing in
      mk (foldl (assignStep target (getAll um)) (units um) (zip sel offsets))
         (obstacles um)
  end.

(** [update(dt)]: every unit in turn, each seeing the units before it
    already moved. *)
Fixpoint updateFrom (fuel : nat) (i : nat) (dt : R) (obs : list Obstacle.t)
    (arr : list Unit.t) : list Unit.t :=
  match fuel with
  | O => arr
  | S fuel' =>
      match arr !! i with
      | Some u => updateFrom fuel' (S i) dt obs (<[i := Unit.update u dt arr obs]> arr)
      | None => arr
      end
  end.

Definition update (um : t) (dt : R) : t :=
  mk (updateFrom (length (units um)) O dt (getAll um) (units um)) (obstacles um).

(** The subscribers of the bus: the closures [connectTo] creates, one per
    call, told apart by their reference. *)
Inductive Listener : Type := MoveClosure (ref : nat).

#[global] Instance Listener_eq_dec : EqDecision Listener.
Proof. solve_decision. Defined.

(** The payload [{ target }] of a command. *)
Record payload : Type := mkPayload { target : Vector3.t }.

(** Calling a subscriber. *)
Definition call (fn : Listener) (p : payload) (um : t) : t :=
  match fn with
  | MoveClosure _ => onMoveSelectedTo um (target p)
  end.

(** [connectTo(commandBus)]: [ref] is the reference of the new closure. *)
Definition connectTo (ref : nat) (bus : @CommandBus.t Listener)
  : @CommandBus.t Listener :=
  fst (CommandBus.on bus MOVE_SELECTED_TO (MoveClosure ref)).

(** [spawnUnit(pos)]: [new Unit(pos)] takes [NEXT_ID] of unit.js as its id
    and increments it; the unit is pushed on [units].  The result holds the
    new counter, the manager and the unit returned. *)
Definition spawnUnit (nextId : nat) (um : t) (pos : Vector3.t)
  : nat * t * Unit.t :=
  let u := Unit.new nextId pos Unit.noOpts in
  (S nextId, mk (units um ++ [u]) (obstacles um), u).

(** [forEachNeighborPairs(fn)]: the pairs of indices [(i, j)] on which [fn]
    is called, in the order of the two loops. *)
Definition neighborPairs (n : nat) : list (nat * nat) :=
  i ← seq 0 n; (λ j, (i, j)) <$> seq (i + 1) (n - (i + 1)).

Definition forEachNeighborPairs {W : Type} (um : t)
    (fn : Unit.t → Unit.t → W → W) (w : W) : W :=
  foldl (λ w' ij,
           match units um !! ij.1, units um !! ij.2 with
           | Some a, Some b => fn a b w'
           | _, _ => w'
           end) w (neighborPairs (length (units um))).

(** The point tried at turn [t] of the loop of [_findSpawnSpot];
    [Math.floor(t / 12)] of the loop counter is the integer quotient. *)
Definition spawnCandidate (baseRadius startAngle newRadius y : R) (t : nat)
  : Vector3.t :=
  let angle := startAngle + INR t * (PI / 12) in
  let ring := baseRadius + INR (t / 12) * Rmax 6 (newRadius * 4) in
  Vector3.mk (cos angle * ring) y (sin angle * ring).

(** The inner loop of [_findSpawnSpot]: no unit is closer to [p] than
    [(newRadius + u.radius) * factor]. *)
Definition spotFree (us : list Unit.t) (newRadius : R) (p : Vector3.t) : bool :=
  forallb (λ u,
             let need := (newRadius + Unit.radius u) * 1.4 in
             if Rlt_dec (Vector3.distanceTo p (Unit.position u)) need
             then false else true) us.

(** The outer loop of [_findSpawnSpot] from turn [t], [fuel] turns left. *)
Fixpoint findSpotFrom (us : list Unit.t)
    (baseRadius startAngle newRadius y : R) (fuel t : nat)
  : option Vector3.t :=
  match fuel with
  | O => None
  | S fuel' =>
      let p := spawnCandidate baseRadius startAngle newRadius y t in
      if spotFree us newRadius p then Some p
      else findSpotFrom us baseRadius startAngle newRadius y fuel' (S t)
  end.

(** [UnitManager.prototype._findSpawnSpot(baseRadius, startAngle, newRadius, y)] *)
Definition findSpawnSpot (um : t) (baseRadius startAngle newRadius y : R)
  : Vector3.t :=
  match findSpotFrom (units um) baseRadius startAngle newRadius y 64 0 with
  | Some p => p
  | None =>
      Vector3.mk (cos startAngle * (baseRadius + 50)) y
                 (sin startAngle * (baseRadius + 50))
  end.

End UnitManager.

(** ** src/systems/input.js

    The state of [InputSystem] holds the fields the handlers below read or
    write, grouped by concern.  The camera and the orbit controls are
    three.js objects: of the camera the model keeps the position and the
    world direction ([lookAt] turns the direction towards the target), of the
    controls the [target] and the [enabled] flag.  [controls.update()] is
    code of the external OrbitControls and is left out: what it does to the
    camera and to the target (damping included) is outside the model, and
    the statements below that involve a handler calling it speak of the
    fields that [InputSystem] itself writes. *)

Module InputSystem.

Record Spherical : Type := mkSpherical { r : R; theta : R; phi : R }.

Record Camera : Type := mkCamera {
  camPosition : Vector3.t;
  camDirection : Vector3.t
}.

Record Controls : Type := mkControls {
  ctlTarget : Vector3.t;
  ctlEnabled : bool
}.

(** The selection sphere of the gizmo renderer. *)
Record Gizmos : Type := mkGizmos {
  sphereVisible : bool;
  spherePosition : Vector3.t;
  sphereScale : R
}.

Record Selection : Type := mkSelection {
  isSelecting : bool;
  selectCenter : Vector3.t;
  selectRadius : R
}.

Record CameraLock : Type := mkCameraLock {
  cameraInteracting : bool;
  cameraCursorOffset : Vector3.t;
  heightLock : option R
}.

Record Rmb : Type := mkRmb {
  rmbDown : bool;
  rmbStartX : R;
  rmbStartY : R;
  rmbDragged : bool;
  suppressRmbClick : bool;
  blockSelectionUntilPointerUp : bool
}.

Record Pointer : Type := mkPointer {
  pointerLocked : bool;
  ndcX : R;
  ndcY : R;
  lastClientX : R;
  lastClientY : R
}.

Record Rotate : Type := mkRotate {
  rotateActive : bool;
  rotateSpeed : R;
  rotateTarget : Vector3.t;
  spherical : Spherical;
  controlsPrevEnabled : option bool
}.

Record t : Type := mk {
  cursor : Vector3.t;
  cursorHeight : R;
  selection : Selection;
  cameraLock : CameraLock;
  rmb : Rmb;
  pointer : Pointer;
  rotate : Rotate;
  camera : Camera;
  controls : Controls;
  gizmos : Gizmos;
  commandBus : @CommandBus.t UnitManager.Listener;
  unitManager : UnitManager.t
}.

(** A mouse or pointer event. *)
Record Event : Type := mkEvent {
  button : Z;
  buttons : Z;
  ctrlKey : bool;
  clientX : R;
  clientY : R;
  movementX : R;
  movementY : R
}.

(** [Math.atan2(y, x)] *)
Definition atan2 (y x : R) : R :=
  if Rgt_dec x 0 then atan (y / x)
  else if Rlt_dec x 0 then
    (if Rle_dec 0 y then atan (y / x) + PI else atan (y / x) - PI)
  else if Rgt_dec y 0 then PI / 2
  else if Rlt_dec y 0 then - (PI / 2)
  else 0.

(** [camera.lookAt(target)] *)
Definition lookAt (c : Camera) (target : Vector3.t) : Camera :=
  mkCamera (camPosition c)
           (Vector3.normalize (Vector3.sub target (camPosition c))).

(** [this._cameraCursorOffset.copy(this.cursor).setY(this.cursorHeight)
     .sub(this.camera.position)] with the height lock. *)
Definition engageCameraLock (s : t) : CameraLock :=
  mkCameraLock true
    (Vector3.sub (Vector3.setY (cursor s) (cursorHeight s))
                 (camPosition (camera s)))
    (Some (cursorHeight s)).

(** [onPointerDownCapture(e)] *)
Definition onPointerDownCapture (s : t) (e : Event) : t :=
  if decide (button e = 2%Z ∧ ctrlKey e = true) then
    let target := ctlTarget (controls s) in
    let rel := Vector3.sub (camPosition (camera s)) target in
    let r := Rmax 0.001 (Vector3.length rel) in
    let theta := atan2 (Vector3.x rel) (Vector3.z rel) in
    let phi := acos (clamp (Vector3.y rel / r) (-1) 1) in
    {| cursor := cursor s;
       cursorHeight := cursorHeight s;
       selection := selection s;
       cameraLock :=
         if cameraInteracting (cameraLock s) then cameraLock s
         else engageCameraLock s;
       rmb := mkRmb (rmbDown (rmb s)) (rmbStartX (rmb s)) (rmbStartY (rmb s))
                    (rmbDragged (rmb s)) true true;
       pointer := mkPointer (pointerLocked (pointer s)) (ndcX (pointer s))
                            (ndcY (pointer s)) (clientX e) (clientY e);
       rotate := mkRotate true (rotateSpeed (rotate s)) target
                          (mkSpherical r theta phi)
                          (Some (ctlEnabled (controls s)));
       camera := camera s;
       controls := mkControls (ctlTarget (controls s)) false;
       gizmos := gizmos s;
       commandBus := commandBus s;
       unitManager := unitManager s |}
  else if decide (button e = 2%Z ∧ ctrlKey e = false
                  ∧ pointerLocked (pointer s) = true) then
    {| cursor := cursor s;
       cursorHeight := cursorHeight s;
       selection := selection s;
       cameraLock :=
         if cameraInteracting (cameraLock s) then cameraLock s
         else engageCameraLock s;
       rmb := mkRmb true (rmbStartX (rmb s)) (rmbStartY (rmb s)) false
                    (suppressRmbClick (rmb s))
                    (blockSelectionUntilPointerUp (rmb s));
       pointer := mkPointer (pointerLocked (pointer s)) (ndcX (pointer s))
                            (ndcY (pointer s)) (clientX e) (clientY e);
       rotate := rotate s;
       camera := camera s;
       controls := controls s;
       gizmos := gizmos s;
       commandBus := commandBus s;
       unitManager := unitManager s |}
  else s.

(** [onPointerMove(e)] *)
Definition onPointerMove (s : t) (e : Event) : t :=
  let locked := pointerLocked (pointer s) in
  let dx := if locked then movementX e else clientX e - lastClientX (pointer s) in
  let dy := if locked then movementY e else clientY e - lastClientY (pointer s) in
  let pointer' :=
    if locked then pointer s
    else mkPointer locked (ndcX (pointer s)) (ndcY (pointer s))
                   (clientX e) (clientY e) in
  if rotateActive (rotate s) then
    let speed := rotateSpeed (rotate s) in
    let theta := theta (spherical (rotate s)) - dx * speed in
    let phi := phi (spherical (rotate s)) - dy * speed in
    let eps := 0.001 in
    let phi := clamp phi eps (PI - eps) in
    let target := rotateTarget (rotate s) in
    let r := r (spherical (rotate s)) in
    let st := sin phi in
    let x := r * sin theta * st in
    let y := r * cos phi in
    let z := r * cos theta * st in
    let position :=
      Vector3.mk (Vector3.x target + x) (Vector3.y target + y)
                 (Vector3.z target + z) in
    {| cursor := cursor s;
       cursorHeight := cursorHeight s;
       selection := selection s;
       cameraLock := cameraLock s;
       rmb := rmb s;
       pointer := pointer';
       rotate := mkRotate true speed target (mkSpherical r theta phi)
                          (controlsPrevEnabled (rotate s));
       camera := lookAt (mkCamera position (camDirection (camera s))) target;
       controls := mkControls target (ctlEnabled (controls s));
       gizmos := gizmos s;
       commandBus := commandBus s;
       unitManager := unitManager s |}
  else if locked && rmbDown (rmb s) then
    let dist := Vector3.distanceTo (camPosition (camera s))
                                   (ctlTarget (controls s)) in
    let panScale := Rmax 0.0015 (Rmin 0.015 (dist * 0.0045)) in
    let camDir := camDirection (camera s) in
    let up := Vector3.mk 0 1 0 in
    let right := Vector3.normalize (Vector3.crossVectors camDir up) in
    let forwardXZ :=
      Vector3.normalize (Vector3.mk (Vector3.x camDir) 0 (Vector3.z camDir)) in
    let move :=
      Vector3.addScaledVector
        (Vector3.addScaledVector Vector3.zero right (- dx * panScale))
        forwardXZ (dy * panScale) in
    {| cursor := cursor s;
       cursorHeight := cursorHeight s;
       selection := selection s;
       cameraLock := cameraLock s;
       rmb := rmb s;
       pointer := pointer';
       rotate := rotate s;
       camera := mkCamera (Vector3.add (camPosition (camera s)) move)
                          (camDirection (camera s));
       controls := mkControls (Vector3.add (ctlTarget (controls s)) move)
                              (ctlEnabled (controls s));
       gizmos := gizmos s;
       commandBus := commandBus s;
       unitManager := unitManager s |}
  else
    {| cursor := cursor s;
       cursorHeight := cursorHeight s;
       selection := selection s;
       cameraLock := cameraLock s;
       rmb := rmb s;
       pointer := pointer';
       rotate := rotate s;
       camera := camera s;
       controls := controls s;
       gizmos := gizmos s;
       commandBus := commandBus s;
       unitManager := unitManager s |}.

(** [onMouseDown(e)]; [showSelectionSphere(center, radius)] scales the
    sphere by [Math.max(0.0001, radius)]. *)
Definition onMouseDown (s : t) (e : Event) : t :=
  if decide (button e = 0%Z) then
    if blockSelectionUntilPointerUp (rmb s) || ctrlKey e then s
    else if decide (Z.land (buttons e) 1 ≠ 1%Z) then s
    else
      let center :=
        Vector3.mk (Vector3.x (cursor s)) (cursorHeight s)
                   (Vector3.z (cursor s)) in
      {| cursor := cursor s;
         cursorHeight := cursorHeight s;
         selection := mkSelection true center 0;
         cameraLock := cameraLock s;
         rmb := rmb s;
         pointer := pointer s;
         rotate := rotate s;
         camera := camera s;
         controls := mkControls (ctlTarget (controls s)) false;
         gizmos := mkGizmos true center (Rmax 0.0001 0.0001);
         commandBus := commandBus s;
         unitManager := unitManager s |}
  else if decide (button e = 2%Z) then
    {| cursor := cursor s;
       cursorHeight := cursorHeight s;
       selection := selection s;
       cameraLock := cameraLock s;
       rmb := mkRmb true (clientX e) (clientY e) false
                    (suppressRmbClick (rmb s))
                    (blockSelectionUntilPointerUp (rmb s));
       pointer := pointer s;
       rotate := rotate s;
       camera := camera s;
       controls := controls s;
       gizmos := gizmos s;
       commandBus := commandBus s;
       unitManager := unitManager s |}
  else s.

(** The loop of [onMouseUp] over [this.unitManager.units]. *)
Definition applySelection (center : Vector3.t) (radius : R)
    (us : list Unit.t) : list Unit.t :=
  (λ u,
     let d := Vector3.distanceTo (Unit.position u) center in
     let sel := if Rle_dec d radius then true else false in
     Unit.setSelected u sel) <$> us.

(** The first half of [onMouseUp(e)]: the end of a selection. *)
Definition finalizeSelection (s : t) (e : Event) : t :=
  if isSelecting (selection s) && bool_decide (button e = 0%Z) then
    {| cursor := cursor s;
       cursorHeight := cursorHeight s;
       selection := mkSelection false (selectCenter (selection s))
                                (selectRadius (selection s));
       cameraLock := cameraLock s;
       rmb := rmb s;
       pointer := pointer s;
       rotate := rotate s;
       camera := camera s;
       controls := mkControls (ctlTarget (controls s)) true;
       gizmos := mkGizmos false (spherePosition (gizmos s))
                          (sphereScale (gizmos s));
       commandBus := commandBus s;
       unitManager :=
         UnitManager.mk
           (applySelection (selectCenter (selection s))
                           (selectRadius (selection s))
                           (UnitManager.units (unitManager s)))
           (UnitManager.obstacles (unitManager s)) |}
  else s.

(** The second half of [onMouseUp(e)]: a right click without drag issues
    the move command. *)
Definition rmbClick (s : t) (e : Event) : t :=
  if bool_decide (button e = 2%Z) && rmbDown (rmb s) then
    let um :=
      if negb (rmbDragged (rmb s)) && negb (ctrlKey e)
         && negb (suppressRmbClick (rmb s))
      then
        let target :=
          Vector3.mk (Vector3.x (cursor s)) (cursorHeight s)
                     (Vector3.z (cursor s)) in
        CommandBus.emit UnitManager.call (commandBus s) MOVE_SELECTED_TO
          (UnitManager.mkPayload target) (unitManager s)
      else unitManager s in
    {| cursor := cursor s;
       cursorHeight := cursorHeight s;
       selection := selection s;
       cameraLock := cameraLock s;
       rmb := mkRmb false (rmbStartX (rmb s)) (rmbStartY (rmb s)) false
                    false false;
       pointer := pointer s;
       rotate := rotate s;
       camera := camera s;
       controls := controls s;
       gizmos := gizmos s;
       commandBus := commandBus s;
       unitManager := um |}
  else s.

(** [onMouseUp(e)] *)
Definition onMouseUp (s : t) (e : Event) : t :=
  rmbClick (finalizeSelection s e) e.

(** The gizmo renderer as constructed: the selection sphere is hidden. *)
Definition newGizmos : Gizmos := mkGizmos false Vector3.zero 1.

(** [new InputSystem(canvas, camera, controls, gizmos, commandBus,
    unitManager)]; the constructor hooks the unit manager to the bus, [ref]
    being the reference of the subscriber closure. *)
Definition new (camera : Camera) (controls : Controls) (gizmos : Gizmos)
    (commandBus : @CommandBus.t UnitManager.Listener)
    (unitManager : UnitManager.t) (ref : nat) : t :=
  {| cursor := Vector3.zero;
     cursorHeight := 0;
     selection := mkSelection false Vector3.zero 0;
     cameraLock := mkCameraLock false Vector3.zero None;
     rmb := mkRmb false 0 0 false false false;
     pointer := mkPointer false 0 0 0 0;
     rotate := mkRotate false 0.006 Vector3.zero (mkSpherical 1 0 0) None;
     camera := camera;
     controls := controls;
     gizmos := gizmos;
     commandBus := UnitManager.connectTo ref commandBus;
     unitManager := unitManager |}.

(** [this._dragThreshold] and [this.elevSensitivity]: set by the constructor
    and never written again. *)
Definition dragThreshold : R := 5.

Definition elevSensitivity : R := 0.02.

(** [onPointerUp(e)] *)
Definition onPointerUp (s : t) (e : Event) : t :=
  if bool_decide (button e = 2%Z) && rotateActive (rotate s) then
    {| cursor := cursor s;
       cursorHeight := cursorHeight s;
       selection := selection s;
       cameraLock := mkCameraLock false (cameraCursorOffset (cameraLock s)) None;
       rmb := mkRmb false (rmbStartX (rmb s)) (rmbStartY (rmb s)) false
                    true false;
       pointer := pointer s;
       rotate := mkRotate false (rotateSpeed (rotate s))
                          (rotateTarget (rotate s)) (spherical (rotate s))
                          None;
       camera := camera s;
       controls :=
         match controlsPrevEnabled (rotate s) with
         | Some prev => mkControls (ctlTarget (controls s)) prev
         | None => controls s
         end;
       gizmos := gizmos s;
       commandBus := commandBus s;
       unitManager := unitManager s |}
  else if bool_decide (button e = 2%Z) && pointerLocked (pointer s) then
    {| cursor := cursor s;
       cursorHeight := cursorHeight s;
       selection := selection s;
       cameraLock := mkCameraLock false (cameraCursorOffset (cameraLock s)) None;
       rmb := mkRmb false (rmbStartX (rmb s)) (rmbStartY (rmb s)) false
                    (suppressRmbClick (rmb s))
                    (blockSelectionUntilPointerUp (rmb s));
       pointer := pointer s;
       rotate := rotate s;
       camera := camera s;
       controls := controls s;
       gizmos := gizmos s;
       commandBus := commandBus s;
       unitManager := unitManager s |}
  else s.

(** [onWheel(e)], from [e.deltaY]. *)
Definition onWheel (s : t) (deltaY : R) : t :=
  let dH := - deltaY * elevSensitivity in
  let lift (v : Vector3.t) := Vector3.setY v (Vector3.y v + dH) in
  {| cursor := cursor s;
     cursorHeight := cursorHeight s + dH;
     selection := selection s;
     cameraLock :=
       mkCameraLock (cameraInteracting (cameraLock s))
                    (cameraCursorOffset (cameraLock s))
                    (match heightLock (cameraLock s) with
                     | Some h => Some (h + dH)
                     | None => None
                     end);
     rmb := rmb s;
     pointer := pointer s;
     rotate := rotate s;
     camera := mkCamera (lift (camPosition (camera s)))
                        (camDirection (camera s));
     controls := mkControls (lift (ctlTarget (controls s)))
                            (ctlEnabled (controls s));
     gizmos := gizmos s;
     commandBus := commandBus s;
     unitManager := unitManager s |}.

(** [update()]: the cursor held relative to the camera while the camera is
    interacting.  The rest of the function feeds the gizmos, the grid slice
    and the HUD, which are presentation. *)
Definition update (s : t) : t :=
  if cameraInteracting (cameraLock s) then
    let world :=
      Vector3.add (camPosition (camera s)) (cameraCursorOffset (cameraLock s)) in
    {| cursor := Vector3.mk (Vector3.x world) 0 (Vector3.z world);
       cursorHeight :=
         match heightLock (cameraLock s) with
         | Some h => h
         | None => cursorHeight s
         end;
       selection := selection s;
       cameraLock := cameraLock s;
       rmb := rmb s;
       pointer := pointer s;
       rotate := rotate s;
       camera := camera s;
       controls := controls s;
       gizmos := gizmos s;
       commandBus := commandBus s;
       unitManager := unitManager s |}
  else s.

(** The grid tick of [update()]:
    [Math.floor((this.cursorHeight + eps) / step) * step] with [eps = 1e-4]. *)
Definition gridTick (cursorHeight step : R) : R :=
  IZR (Zfloor ((cursorHeight + 1e-4) / step)) * step.

(** The click-versus-drag bookkeeping of [onMouseMove(e)]. *)
Definition trackDrag (s : t) (e : Event) : Rmb :=
  if rmbDown (rmb s) && negb (rmbDragged (rmb s)) then
    let dragged :=
      if pointerLocked (pointer s) then
        let md := sqrt (movementX e * movementX e + movementY e * movementY e) in
        if Rge_dec md dragThreshold then true else false
      else
        let dx := clientX e - rmbStartX (rmb s) in
        let dy := clientY e - rmbStartY (rmb s) in
        if Rge_dec (dx * dx + dy * dy) (dragThreshold * dragThreshold)
        then true else false in
    if dragged then
      mkRmb (rmbDown (rmb s)) (rmbStartX (rmb s)) (rmbStartY (rmb s)) true
            (suppressRmbClick (rmb s)) (blockSelectionUntilPointerUp (rmb s))
    else rmb s
  else rmb s.

(** [onMouseMove(e)]; [unproject] gives three.js's [Vector3.unproject] for a
    camera and [rect] is the bounding rectangle of the canvas. *)
Definition onMouseMove (unproject : Camera → Vector3.t → Vector3.t)
    (rect : MathSys.Rect) (s : t) (e : Event) : t :=
  let pointer1 :=
    mkPointer (pointerLocked (pointer s)) (ndcX (pointer s)) (ndcY (pointer s))
              (lastClientX (pointer s)) (clientY e) in
  let rmb1 := trackDrag s e in
  if cameraInteracting (cameraLock s) then
    {| cursor := cursor s;
       cursorHeight := cursorHeight s;
       selection := selection s;
       cameraLock := cameraLock s;
       rmb := rmb1;
       pointer := pointer1;
       rotate := rotate s;
       camera := camera s;
       controls := controls s;
       gizmos := gizmos s;
       commandBus := commandBus s;
       unitManager := unitManager s |}
  else
    let '(pointer2, hit) :=
      if pointerLocked (pointer s) then
        let ndcDX := movementX e * (2 / MathSys.width rect) in
        let ndcDY := - movementY e * (2 / MathSys.height rect) in
        let nx := ndcX (pointer s) + ndcDX in
        let ny := ndcY (pointer s) + ndcDY in
        let '(origin, dir) :=
          MathSys.rayFromMouse (unproject (camera s)) nx ny
            (camPosition (camera s)) in
        (mkPointer (pointerLocked (pointer s)) nx ny
                   (lastClientX (pointer s)) (clientY e),
         MathSys.raycastGroundPlane origin dir)
      else
        let '(x, y) := MathSys.ndcFromMouseEvent (clientX e) (clientY e) rect in
        let '(origin, dir) :=
          MathSys.rayFromMouse (unproject (camera s)) x y
            (camPosition (camera s)) in
        (pointer1, MathSys.raycastGroundPlane origin dir) in
    let cursor1 :=
      match hit with
      | Some h => Vector3.mk (Vector3.x h) (cursorHeight s) (Vector3.z h)
      | None => cursor s
      end in
    let '(selection1, gizmos1) :=
      if isSelecting (selection s) then
        let cur := Vector3.mk (Vector3.x cursor1) (cursorHeight s)
                              (Vector3.z cursor1) in
        let radius := Vector3.distanceTo cur (selectCenter (selection s)) in
        (mkSelection true (selectCenter (selection s)) radius,
         mkGizmos true (selectCenter (selection s))
                  (Rmax 0.0001 (Rmax 0 radius)))
      else (selection s, gizmos s) in
    {| cursor := cursor1;
       cursorHeight := cursorHeight s;
       selection := selection1;
       cameraLock := cameraLock s;
       rmb := rmb1;
       pointer := pointer2;
       rotate := rotate s;
       camera := camera s;
       controls := controls s;
       gizmos := gizmos1;
       commandBus := commandBus s;
       unitManager := unitManager s |}.

End InputSystem.

(** ** src/systems/engine.js *)

Module Engine.

(** The state of the loop: the time [last] of the previous frame and the
    systems (the input system holds the unit manager; the obstacle manager,
    the grid slice and the gizmo renderer have empty [update]s). *)
Record t : Type := mk { last : R; world : InputSystem.t }.

(** [Math.min(0.05, (now - last) / 1000)] *)
Definition frameDelta (now last : R) : R := Rmin 0.05 ((now - last) / 1000).

(** One frame of [update()]: the unit manager, then the input system;
    [controls.update()] and the rendering are outside the model. *)
Definition update (now : R) (st : t) : t :=
  let dt := frameDelta now (last st) in
  let w := world st in
  let w1 :=
    {| InputSystem.cursor := InputSystem.cursor w;
       InputSystem.cursorHeight := InputSystem.cursorHeight w;
       InputSystem.selection := InputSystem.selection w;
       InputSystem.cameraLock := InputSystem.cameraLock w;
       InputSystem.rmb := InputSystem.rmb w;
       InputSystem.pointer := InputSystem.pointer w;
       InputSystem.rotate := InputSystem.rotate w;
       InputSystem.camera := InputSystem.camera w;
       InputSystem.controls := InputSystem.controls w;
       InputSystem.gizmos := InputSystem.gizmos w;
       InputSystem.commandBus := InputSystem.commandBus w;
       InputSystem.unitManager :=
         UnitManager.update (InputSystem.unitManager w) dt |} in
  mk now (InputSystem.update w1).

End Engine.

(** ** Rounding

    The modules above compute over the real numbers.  A JavaScript number is
    an IEEE 754 binary64 value, and every arithmetic operation rounds its
    exact result to such a value.  For the speed bound of the tick, whose
    truth depends on that rounding, the code is written down twice more.

    [Rounded] is the integration step of [unit.js] over the reals with the
    rounding [rnd] applied to the result of every operation, in the order in
    which JavaScript evaluates them.  [rnd] is a parameter: rounding to the
    nearest binary64 value moves a result [x] by at most [|x| / 2^53], as
    long as the result neither underflows nor overflows.  [Math.pow], which
    ECMAScript leaves implementation-approximated, is the parameter [pow].
    With the identity for [rnd] this is [Unit.integrate]. *)

Module Rounded.
Section Arithmetic.
Variable rnd : R → R.
Variable pow : R → R → R.

(** [length() { return Math.sqrt(x * x + y * y + z * z) }] *)
Definition length (v : Vector3.t) : R :=
  rnd (sqrt (rnd (rnd (rnd (Vector3.x v * Vector3.x v)
                       + rnd (Vector3.y v * Vector3.y v))
                  + rnd (Vector3.z v * Vector3.z v)))).

(** [multiplyScalar(s) { x *= s; y *= s; z *= s }] *)
Definition multiplyScalar (v : Vector3.t) (s : R) : Vector3.t :=
  Vector3.mk (rnd (Vector3.x v * s)) (rnd (Vector3.y v * s))
             (rnd (Vector3.z v * s)).

(** [addScaledVector(v, s) { x += v.x * s; y += v.y * s; z += v.z * s }] *)
Definition addScaledVector (a v : Vector3.t) (s : R) : Vector3.t :=
  Vector3.mk (rnd (Vector3.x a + rnd (Vector3.x v * s)))
             (rnd (Vector3.y a + rnd (Vector3.y v * s)))
             (rnd (Vector3.z a + rnd (Vector3.z v * s))).

(** The integration step of [update], lines 123 to 130 of [unit.js]: the
    velocity takes the steering [steer] of the tick, the speed is clamped,
    an idle unit is damped.  [self] is the unit after the arrival step. *)
Definition integrate (self : Unit.t) (steer : Vector3.t) (dt : R)
  : Vector3.t :=
  let velocity := addScaledVector (Unit.velocity self) steer dt in
  let speed := length velocity in
  let velocity :=
    if Rgt_dec speed (Unit.maxSpeed self)
    then multiplyScalar velocity (rnd (Unit.maxSpeed self / speed))
    else velocity in
  match Unit.target self with
  | None =>
      if Rgt_dec speed 0
      then multiplyScalar velocity
             (pow (Unit.idleDamping self) (Rmax 1 (rnd (dt * 60))))
      else velocity
  | Some _ => velocity
  end.

End Arithmetic.
End Rounded.

(** [Binary64] is the tick of [unit.js] on the binary64 numbers of the
    kernel, whose operations are those of IEEE 754 with rounding to nearest:
    [update(dt, neighbors)], the obstacle list left at its default [[]], so
    that the avoidance block is skipped.  The record holds the fields of a
    unit that this path reads or writes.  Comparisons are those of
    JavaScript ([a > b] is [b <? a]); [Math.pow] is the parameter [pow];
    the number of contributing neighbours is converted by [ofNat]. *)

Module Binary64.
Import PrimFloat.
#[local] Open Scope float_scope.

(** A decimal literal denotes the nearest binary64 value, as in JavaScript. *)
#[local] Set Warnings "-inexact-float".

Record Vector3 : Type := mkVector3 { x : float; y : float; z : float }.

Definition zero : Vector3 := mkVector3 0 0 0.

Definition add (a b : Vector3) : Vector3 :=
  mkVector3 (x a + x b) (y a + y b) (z a + z b).

Definition sub (a b : Vector3) : Vector3 :=
  mkVector3 (x a - x b) (y a - y b) (z a - z b).

Definition multiplyScalar (v : Vector3) (s : float) : Vector3 :=
  mkVector3 (x v * s) (y v * s) (z v * s).

(** three.js: [divideScalar(s) { return this.multiplyScalar(1 / s) }] *)
Definition divideScalar (v : Vector3) (s : float) : Vector3 :=
  multiplyScalar v (1 / s).

Definition addScaledVector (a v : Vector3) (s : float) : Vector3 :=
  mkVector3 (x a + x v * s) (y a + y v * s) (z a + z v * s).

Definition length (v : Vector3) : float :=
  sqrt (x v * x v + y v * y v + z v * z v).

(** [Math.max(a, b)] of two numbers. *)
Definition max (a b : float) : float := if a <? b then b else a.

(** A count as a number. *)
Fixpoint ofNat (n : nat) : float :=
  match n with
  | O => 0
  | S k => ofNat k + 1
  end.

Record Unit : Type := mkUnit {
  id : nat;
  position : Vector3;
  velocity : Vector3;
  target : option Vector3;
  maxSpeed : float;
  maxAccel : float;
  radius : float;
  arriveRadius : float;
  stopRadius : float;
  idleDamping : float
}.

(** [new Unit(position)] with the defaults of the constructor. *)
Definition new (nextId : nat) (pos : Vector3) : Unit :=
  {| id := nextId; position := pos; velocity := zero; target := None;
     maxSpeed := 10; maxAccel := 15; radius := 0.8; arriveRadius := 6;
     stopRadius := 0.6; idleDamping := 0.9 |}.

Definition with_motion (u : Unit) (p v : Vector3) (tg : option Vector3)
  : Unit :=
  {| id := id u; position := p; velocity := v; target := tg;
     maxSpeed := maxSpeed u; maxAccel := maxAccel u; radius := radius u;
     arriveRadius := arriveRadius u; stopRadius := stopRadius u;
     idleDamping := idleDamping u |}.

(** [separation(self, neighbors, maxAccel)] *)
Definition separationStep (self : Unit) (acc : Vector3 * nat) (n : Unit)
  : Vector3 * nat :=
  let '(repulse, count) := acc in
  if Nat.eqb (id n) (id self) then acc
  else
    let diff := sub (position self) (position n) in
    let d := length diff in
    let desired := (radius self + radius n) * 1.2 in
    if (0 <? d) && (d <? desired) then
      (add repulse (divideScalar diff (d * d + 1e-6)), S count)
    else acc.

Definition separation (self : Unit) (neighbors : list Unit) (maxAccel : float)
  : Vector3 :=
  let '(repulse, count) := foldl (separationStep self) (zero, O) neighbors in
  let repulse :=
    match count with
    | O => repulse
    | S _ => divideScalar repulse (ofNat count)
    end in
  let mag := length repulse in
  if maxAccel <? mag then multiplyScalar repulse (maxAccel / mag)
  else repulse.

(** The arrival step of [update]. *)
Definition arrive (self : Unit) : Unit * Vector3 :=
  match target self with
  | Some tg =>
      let toTarget := sub tg (position self) in
      let d := length toTarget in
      if d <=? stopRadius self then
        (with_motion self (position self) zero None, zero)
      else
        let desiredSpeed :=
          if d <? arriveRadius self
          then maxSpeed self * (d / arriveRadius self)
          else maxSpeed self in
        let desired :=
          multiplyScalar (multiplyScalar toTarget (1 / d)) desiredSpeed in
        let arriveSteer := sub desired (velocity self) in
        let mag := length arriveSteer in
        let arriveSteer :=
          if maxAccel self <? mag
          then multiplyScalar arriveSteer (maxAccel self / mag)
          else arriveSteer in
        (self, add zero arriveSteer)
  | None => (self, zero)
  end.

(** [update(dt, neighbors)] *)
Definition update (pow : float → float → float) (self : Unit) (dt : float)
    (neighbors : list Unit) : Unit :=
  let '(self, steer) := arrive self in
  let sepWeight := match target self with Some _ => 0.9 | None => 0.6 end in
  let sep := separation self neighbors (maxAccel self) in
  let steer := addScaledVector steer sep sepWeight in
  let velocity := addScaledVector (velocity self) steer dt in
  let speed := length velocity in
  let velocity :=
    if maxSpeed self <? speed
    then multiplyScalar velocity (maxSpeed self / speed)
    else velocity in
  let velocity :=
    match target self with
    | None =>
        if 0 <? speed
        then multiplyScalar velocity (pow (idleDamping self) (max 1 (dt * 60)))
        else velocity
    | Some _ => velocity
    end in
  let position := addScaledVector (position self) velocity dt in
  with_motion self position velocity (target self).

End Binary64.

(** ** Concrete scenes used as test inputs *)

Module Scenario.

(** Two default units; [unitB] was selected before. *)
Definition unitA : Unit.t := Unit.new 1 (Vector3.mk 3 0 4) Unit.noOpts.

Definition unitB : Unit.t :=
  Unit.setSelected (Unit.new 2 (Vector3.mk 10 0 0) Unit.noOpts) true.

Definition fleet : UnitManager.t := UnitManager.mk [unitA; unitB] None.

(** The same two units with nothing selected. *)
Definition idleFleet : UnitManager.t :=
  UnitManager.mk [unitA; Unit.setSelected unitB false] None.

(** A camera at (0,0,5) looking at the origin, orbiting the origin. *)
Definition camera0 : InputSystem.Camera :=
  InputSystem.lookAt (InputSystem.mkCamera (Vector3.mk 0 0 5) Vector3.zero)
                     Vector3.zero.

Definition controls0 : InputSystem.Controls :=
  InputSystem.mkControls Vector3.zero true.

Definition world0 : InputSystem.t :=
  InputSystem.new camera0 controls0 InputSystem.newGizmos CommandBus.new
                  fleet 0.

(** A selection gesture in progress: centre at the origin, radius 5, so
    that [unitA] is exactly on the sphere. *)
Definition selecting : InputSystem.t :=
  {| InputSystem.cursor := Vector3.mk 3 0 4;
     InputSystem.cursorHeight := 0;
     InputSystem.selection := InputSystem.mkSelection true Vector3.zero 5;
     InputSystem.cameraLock := InputSystem.cameraLock world0;
     InputSystem.rmb := InputSystem.rmb world0;
     InputSystem.pointer := InputSystem.pointer world0;
     InputSystem.rotate := InputSystem.rotate world0;
     InputSystem.camera := camera0;
     InputSystem.controls := InputSystem.mkControls Vector3.zero false;
     InputSystem.gizmos := InputSystem.mkGizmos true Vector3.zero 5;
     InputSystem.commandBus := InputSystem.commandBus world0;
     InputSystem.unitManager := fleet |}.

(** Events: left button released; right button pressed with Ctrl at
    (0,0); the pointer dragged 1000 pixels down with the button held. *)
Definition leftUp : InputSystem.Event :=
  InputSystem.mkEvent 0 0 false 0 0 0 0.

Definition ctrlRightDown : InputSystem.Event :=
  InputSystem.mkEvent 2 2 true 0 0 0 0.

Definition dragDown1000 : InputSystem.Event :=
  InputSystem.mkEvent 2 2 true 0 1000 0 1000.

(** A unit at the origin with its target 0.5 away, and a unit at rest one
    length unit beside it. *)
Definition arriving : Unit.t :=
  Unit.setTarget (Unit.new 1 Vector3.zero Unit.noOpts)
                 (Some (Vector3.mk 0.5 0 0)).

Definition bystander : Unit.t :=
  Unit.new 2 (Vector3.mk 1 0 0) Unit.noOpts.

(** Two obstacles of radius 1 whose expanded spheres overlap. *)
Definition rockA : Obstacle.t := Obstacle.mk 1 (Vector3.mk 0 0 0) 1.

Definition rockB : Obstacle.t := Obstacle.mk 2 (Vector3.mk 2.5 0 0) 1.

(** A third one far from [rockA]. *)
Definition rockC : Obstacle.t := Obstacle.mk 3 (Vector3.mk 10 0 0) 1.

(** A unit cruising along the x axis towards a target behind [rockC]. *)
Definition cruiser : Unit.t :=
  Unit.with_motion (Unit.new 3 Vector3.zero Unit.noOpts) Vector3.zero
    (Vector3.mk 2 0 0) (Some (Vector3.mk 20 0 0)).

(** The two units both selected, no obstacle manager. *)
Definition selectedFleet : UnitManager.t :=
  UnitManager.mk [Unit.setSelected unitA true; unitB] None.

(** The frame loop at time 0 over [world0]. *)
Definition engine0 : Engine.t := Engine.mk 0 world0.

(** Further events: the right button released, the left button pressed
    alone, the right button pressed alone. *)
Definition rightUp : InputSystem.Event :=
  InputSystem.mkEvent 2 0 false 0 0 0 0.

Definition leftDown : InputSystem.Event :=
  InputSystem.mkEvent 0 1 false 0 0 0 0.

Definition rightDown : InputSystem.Event :=
  InputSystem.mkEvent 2 2 false 0 0 0 0.

(** A unit flying at full speed away from its target: the arrival steering
    it asks for has magnitude 20, above [maxAccel]. *)
Definition turning : Unit.t :=
  Unit.with_motion (Unit.new 4 Vector3.zero Unit.noOpts) Vector3.zero
    (Vector3.mk (-6) 0 (-8)) (Some (Vector3.mk 60 0 80)).

(** A unit at the origin with a neighbour 0.05 away: the repulsion has
    magnitude about 20, above [maxAccel]. *)
Definition crowded : Unit.t := Unit.new 5 Vector3.zero Unit.noOpts.

Definition crowding : Unit.t :=
  Unit.new 6 (Vector3.mk 0.03 0 0.04) Unit.noOpts.


(** A unit at full speed towards its target, and the steering that a
    neighbour close behind it adds. *)
Definition runner : Unit.t :=
  Unit.with_motion (Unit.new 1 Vector3.zero Unit.noOpts) Vector3.zero
    (Vector3.mk 6 0 8) (Some (Vector3.mk 60 0 80)).

Definition push : Vector3.t := Vector3.mk 0.36 0 0.48.

(** The frame loop at time 0 over a world whose only unit is [cruiser]. *)
Definition engine1 : Engine.t :=
  Engine.mk 0
    (InputSystem.new camera0 controls0 InputSystem.newGizmos CommandBus.new
       (UnitManager.mk [cruiser] None) 0).

(** The unit roundoff of binary64 and a rounding with exactly that relative
    error: every result is moved away from zero by [roundoff] of itself. *)
Definition roundoff : R := 1 / 9007199254740992.

Definition inflate (x : R) : R := x * (1 + roundoff).

End Scenario.

(** Binary64 inputs: a unit at full speed (6, 0, 8) towards its target at
    (60, 0, 80), a second unit at rest 1.5 behind it, a step of 20 ms. *)

Module Scenario64.
Import PrimFloat.
#[local] Open Scope float_scope.
#[local] Set Warnings "-inexact-float".

Definition runner : Binary64.Unit :=
  Binary64.with_motion (Binary64.new 1 (Binary64.mkVector3 0 0 0))
    (Binary64.mkVector3 0 0 0) (Binary64.mkVector3 6 0 8)
    (Some (Binary64.mkVector3 60 0 80)).

Definition pusher : Binary64.Unit :=
  Binary64.new 2 (Binary64.mkVector3 (-0.9) 0 (-1.2)).

Definition dt : float := 0.02.

(** [Math.pow] is not called for a unit that keeps its target: any function
    stands for it. *)
Definition anyPow (base exponent : float) : float := base.

(** The numbers 6 and 8, and the velocity (6.000000000000001, 0,
    8.000000000000002), each component one unit in the last place above. *)
Definition six : float := 6.

Definition eight : float := 8.

Definition overshoot : Binary64.Vector3 :=
  Binary64.mkVector3 0x1.8000000000001p+2 0 0x1.0000000000001p+3.

End Scenario64.

(** * Properties *)

(** ** Vectors and comparisons *)

Lemma lengthSq_nonneg (v : Vector3.t) : 0 <= Vector3.lengthSq v.
Proof. unfold Vector3.lengthSq. nra. Qed.

Lemma length_nonneg (v : Vector3.t) : 0 <= Vector3.length v.
Proof. apply sqrt_pos. Qed.

Lemma length_zero : Vector3.length Vector3.zero = 0.
Proof.
  unfold Vector3.length, Vector3.lengthSq; simpl.
  replace (0 * 0 + 0 * 0 + 0 * 0) with 0 by ring. apply sqrt_0.
Qed.

Lemma lengthSq_multiplyScalar (v : Vector3.t) (s : R) :
  Vector3.lengthSq (Vector3.multiplyScalar v s) = s * s * Vector3.lengthSq v.
Proof. unfold Vector3.lengthSq; simpl. ring. Qed.

Lemma length_multiplyScalar (v : Vector3.t) (s : R) :
  Vector3.length (Vector3.multiplyScalar v s) = Rabs s * Vector3.length v.
Proof.
  unfold Vector3.length. rewrite lengthSq_multiplyScalar.
  rewrite sqrt_mult_alt by nra.
  f_equal. replace (s * s) with (Rsqr s) by reflexivity. apply sqrt_Rsqr_abs.
Qed.

Lemma multiplyScalar_zero (s : R) :
  Vector3.multiplyScalar Vector3.zero s = Vector3.zero.
Proof. unfold Vector3.multiplyScalar, Vector3.zero; simpl. f_equal; ring. Qed.

Lemma distanceTo_length (a b : Vector3.t) :
  Vector3.distanceTo a b = Vector3.length (Vector3.sub a b).
Proof. reflexivity. Qed.

Lemma distanceTo_sym (a b : Vector3.t) :
  Vector3.distanceTo a b = Vector3.distanceTo b a.
Proof.
  unfold Vector3.distanceTo, Vector3.distanceToSquared. f_equal. ring.
Qed.

Lemma distanceTo_self (a : Vector3.t) : Vector3.distanceTo a a = 0.
Proof.
  unfold Vector3.distanceTo, Vector3.distanceToSquared; simpl.
  replace (_ + _) with 0 by ring. apply sqrt_0.
Qed.

(** ** Ground-plane raycast *)

(** C5: the ray from (0,5,0) straight down hits (0,0,0), the ray straight up
    hits nothing, and the result is none exactly when the direction is nearly
    parallel to the plane ([|dir . up| < 1e-6]) or the intersection parameter
    [-origin.y / (dir . up)] is negative. *)
Theorem C5_raycastGroundPlane :
  MathSys.raycastGroundPlane (Vector3.mk 0 5 0) (Vector3.mk 0 (-1) 0)
    = Some (Vector3.mk 0 0 0)
  ∧ MathSys.raycastGroundPlane (Vector3.mk 0 5 0) (Vector3.mk 0 1 0) = None
  ∧ ∀ origin dir,
      MathSys.raycastGroundPlane origin dir = None
      ↔ (Rabs (Vector3.dot dir MathSys.UP) < 1e-6
         ∨ - Vector3.y origin / Vector3.dot dir MathSys.UP < 0).
Proof.
  split; [|split].
  - unfold MathSys.raycastGroundPlane, Vector3.dot, MathSys.UP; simpl.
    replace (0 * 0 + -1 * 1 + 0 * 0) with (-1) by ring.
    replace (Rabs (-1)) with 1
      by (unfold Rabs; destruct (Rcase_abs (-1)); lra).
    destruct (Rlt_dec 1 1e-6) as [Hl|_]; [lra|].
    destruct (Rlt_dec (- (5) / -1) 0) as [Hl|_]; [lra|].
    unfold Vector3.add, Vector3.multiplyScalar; simpl.
    do 2 f_equal; lra.
  - unfold MathSys.raycastGroundPlane, Vector3.dot, MathSys.UP; simpl.
    replace (0 * 0 + 1 * 1 + 0 * 0) with 1 by ring.
    rewrite Rabs_R1.
    destruct (Rlt_dec 1 1e-6) as [Hl|_]; [lra|].
    destruct (Rlt_dec (- (5) / 1) 0) as [_|Hn]; [reflexivity|lra].
  - intros origin dir. unfold MathSys.raycastGroundPlane.
    destruct (Rlt_dec (Rabs (Vector3.dot dir MathSys.UP)) 1e-6) as [Hp|Hp].
    + split; auto.
    + destruct (Rlt_dec (- Vector3.y origin / Vector3.dot dir MathSys.UP) 0)
        as [Ht|Ht].
      * split; auto.
      * split; [discriminate|]. intros [?|?]; contradiction.
Qed.

(** ** Obstacle projection: safe points *)

Lemma projectStep_safe (unitRadius : R) (p : Vector3.t) (ob : Obstacle.t) :
  Obstacle.radius ob + unitRadius + 0.2
    <= Vector3.distanceTo p (Obstacle.position ob) →
  UnitManager.projectStep unitRadius p ob = p.
Proof.
  intros Hsafe. unfold UnitManager.projectStep, UnitManager.margin.
  rewrite distanceTo_length in Hsafe.
  destruct (Rlt_dec _ _) as [Hin|_]; [lra|reflexivity].
Qed.

(** C10: projection is the identity on safe points: a point whose distance to
    every obstacle's centre is at least radius + unitRadius + 0.2 is returned
    unchanged. *)
Theorem C10_projectOutsideObstacles_safe_id
    (point : Vector3.t) (unitRadius : R) (obstacles : list Obstacle.t) :
  Forall (λ ob, Obstacle.radius ob + unitRadius + 0.2
                 <= Vector3.distanceTo point (Obstacle.position ob))
         obstacles →
  UnitManager.projectOutsideObstacles point unitRadius obstacles = point.
Proof.
  unfold UnitManager.projectOutsideObstacles.
  induction 1 as [|ob obs Hob _ IH]; simpl.
  - reflexivity.
  - rewrite projectStep_safe by exact Hob. exact IH.
Qed.

Lemma C10_projectOutsideObstacles_safe_id_witness :
  UnitManager.projectOutsideObstacles (Vector3.mk 0 0 0) 0.8
    [Obstacle.mk 1 (Vector3.mk 3 0 4) 4] = Vector3.mk 0 0 0.
Proof.
  apply C10_projectOutsideObstacles_safe_id.
  constructor; [|constructor]. simpl.
  unfold Vector3.distanceTo, Vector3.distanceToSquared; simpl.
  replace ((0 - 3) * (0 - 3) + (0 - 0) * (0 - 0) + (0 - 4) * (0 - 4))
    with (5 * 5) by ring.
  rewrite sqrt_square by lra. lra.
Defined.

(** ** End of a selection gesture *)

Lemma rmbClick_other_button (s : InputSystem.t) (e : InputSystem.Event) :
  InputSystem.button e ≠ 2%Z → InputSystem.rmbClick s e = s.
Proof.
  intros Hb. unfold InputSystem.rmbClick.
  rewrite bool_decide_eq_false_2 by exact Hb. reflexivity.
Qed.

(** C1: when a selection gesture ends (left button released while selecting),
    every registered unit gets [selected] = true exactly when its 3-D distance
    to the frozen centre is at most the final radius (boundary included); the
    new flag does not depend on the old one, nothing else of the unit changes,
    and the gesture is over. *)
Theorem C1_selection_end (s : InputSystem.t) (e : InputSystem.Event) :
  InputSystem.isSelecting (InputSystem.selection s) = true →
  InputSystem.button e = 0%Z →
  let center := InputSystem.selectCenter (InputSystem.selection s) in
  let radius := InputSystem.selectRadius (InputSystem.selection s) in
  let us := UnitManager.units (InputSystem.unitManager s) in
  let s' := InputSystem.onMouseUp s e in
  let us' := UnitManager.units (InputSystem.unitManager s') in
  InputSystem.isSelecting (InputSystem.selection s') = false
  ∧ length us' = length us
  ∧ ∀ (i : nat) (u : Unit.t), us !! i = Some u →
      ∃ u', us' !! i = Some u'
        ∧ (Unit.selected u' = true
           ↔ Vector3.distanceTo (Unit.position u) center <= radius)
        ∧ u' = Unit.setSelected u (Unit.selected u').
Proof.
  intros Hsel Hb center radius us s' us'.
  assert (Hs' : s' = InputSystem.finalizeSelection s e).
  { unfold s', InputSystem.onMouseUp. apply rmbClick_other_button. lia. }
  assert (Hfin : InputSystem.finalizeSelection s e =
    InputSystem.mk (InputSystem.cursor s) (InputSystem.cursorHeight s)
      (InputSystem.mkSelection false center radius)
      (InputSystem.cameraLock s) (InputSystem.rmb s) (InputSystem.pointer s)
      (InputSystem.rotate s) (InputSystem.camera s)
      (InputSystem.mkControls (InputSystem.ctlTarget (InputSystem.controls s)) true)
      (InputSystem.mkGizmos false
         (InputSystem.spherePosition (InputSystem.gizmos s))
         (InputSystem.sphereScale (InputSystem.gizmos s)))
      (InputSystem.commandBus s)
      (UnitManager.mk (InputSystem.applySelection center radius us)
         (UnitManager.obstacles (InputSystem.unitManager s)))).
  { unfold InputSystem.finalizeSelection. rewrite Hsel.
    rewrite bool_decide_eq_true_2 by exact Hb. reflexivity. }
  unfold us'. rewrite Hs', Hfin. simpl.
  split; [reflexivity|]. split.
  - unfold InputSystem.applySelection. apply length_fmap.
  - intros i u Hi. unfold InputSystem.applySelection.
    eexists. split.
    + apply list_lookup_fmap_Some_2. exact Hi.
    + simpl. split; [|reflexivity].
      destruct (Rle_dec _ _) as [Hle|Hgt]; split; intros; try done.
Qed.

(** ** MoveSelectedTo without a selection *)

Lemma selectedIndices_none (us : list Unit.t) :
  Forall (λ u, Unit.selected u = false) us →
  UnitManager.selectedIndices us = [].
Proof.
  intros Hall. unfold UnitManager.selectedIndices.
  induction (seq 0 (length us)) as [|i l IH]; [reflexivity|].
  rewrite filter_cons, IH.
  destruct (decide _) as [Hsel|_]; [|reflexivity].
  destruct (us !! i) as [u|] eqn:Hi; [|discriminate].
  rewrite Forall_forall in Hall.
  assert (Hu : Unit.selected u = false).
  { apply Hall. eapply list_elem_of_lookup_2. exact Hi. }
  simpl in Hsel. congruence.
Qed.

Lemma run_noop {H P W : Type} (call : H → P → W → W) (p : P) (w : W)
    (fns : list H) :
  (∀ fn, call fn p w = w) → CommandBus.run call p fns w = w.
Proof.
  intros Hcall. unfold CommandBus.run.
  induction fns as [|fn fns IH]; simpl; [reflexivity|].
  rewrite Hcall. exact IH.
Qed.

Lemma finalizeSelection_other_button (s : InputSystem.t)
    (e : InputSystem.Event) :
  InputSystem.button e ≠ 0%Z → InputSystem.finalizeSelection s e = s.
Proof.
  intros Hb. unfold InputSystem.finalizeSelection.
  rewrite bool_decide_eq_false_2 by exact Hb.
  rewrite andb_false_r. reflexivity.
Qed.

(** C8: with zero units selected, the MoveSelectedTo subscriber returns at
    once and the unit manager (every unit's target, position, velocity and
    selected flag) is unchanged; so is it after the command is emitted on a
    bus, whatever closures of [connectTo] are subscribed, and after the right
    click that dispatches the command. *)
Theorem C8_move_without_selection_noop
    (um : UnitManager.t) (target : Vector3.t) :
  Forall (λ u, Unit.selected u = false) (UnitManager.units um) →
  UnitManager.onMoveSelectedTo um target = um
  ∧ (∀ bus : CommandBus.t,
       CommandBus.emit UnitManager.call bus MOVE_SELECTED_TO
         (UnitManager.mkPayload target) um = um)
  ∧ (∀ (s : InputSystem.t) (e : InputSystem.Event),
       InputSystem.unitManager s = um → InputSystem.button e = 2%Z →
       InputSystem.unitManager (InputSystem.onMouseUp s e) = um).
Proof.
  intros Hnone.
  assert (Hh : ∀ tg, UnitManager.onMoveSelectedTo um tg = um).
  { intros tg. unfold UnitManager.onMoveSelectedTo.
    rewrite selectedIndices_none by exact Hnone. reflexivity. }
  assert (Hemit : ∀ (bus : CommandBus.t) tg,
            CommandBus.emit UnitManager.call bus MOVE_SELECTED_TO
              (UnitManager.mkPayload tg) um = um).
  { intros bus tg. unfold CommandBus.emit.
    destruct (CommandBus.listeners bus !! MOVE_SELECTED_TO) as [fns|];
      [|reflexivity].
    apply run_noop. intros [ref]. apply Hh. }
  split; [apply Hh|]. split; [intros bus; apply Hemit|].
  intros s e Hum Hb. unfold InputSystem.onMouseUp.
  rewrite finalizeSelection_other_button by lia.
  unfold InputSystem.rmbClick.
  destruct (bool_decide (InputSystem.button e = 2%Z)
            && InputSystem.rmbDown (InputSystem.rmb s)); [|exact Hum].
  cbn [InputSystem.unitManager].
  destruct (negb (InputSystem.rmbDragged (InputSystem.rmb s))
            && negb (InputSystem.ctrlKey e)
            && negb (InputSystem.suppressRmbClick (InputSystem.rmb s)));
    [|exact Hum].
  rewrite Hum. apply Hemit.
Qed.

(** ** Command bus *)

Section BusProperties.
Context {H : Type} `{EqDecision H} {P W : Type}.
Variable call : H → P → W → W.

Lemma set_add_NoDup (s : list H) (fn : H) :
  NoDup s → NoDup (CommandBus.set_add s fn).
Proof.
  intros Hs. unfold CommandBus.set_add.
  destruct (decide (fn ∈ s)) as [Hin|Hout]; [exact Hs|].
  apply NoDup_app. split; [exact Hs|]. split.
  - intros x Hx Hx'. apply list_elem_of_singleton in Hx'. congruence.
  - apply NoDup_singleton.
Qed.

Lemma set_add_elem (s : list H) (fn : H) : fn ∈ CommandBus.set_add s fn.
Proof.
  unfold CommandBus.set_add.
  destruct (decide (fn ∈ s)) as [Hin|Hout]; [exact Hin|].
  apply elem_of_app. right. apply list_elem_of_singleton. reflexivity.
Qed.

Lemma set_delete_not_elem (s : list H) (fn : H) :
  fn ∉ CommandBus.set_delete s fn.
Proof.
  unfold CommandBus.set_delete. intros Hin.
  apply list_elem_of_filter in Hin. destruct Hin as [Hne _]. congruence.
Qed.

Lemma wf_new : CommandBus.wf (CommandBus.new (H := H)).
Proof. intros type s Hs. simpl in Hs. rewrite lookup_empty in Hs. done. Qed.

Lemma wf_off (b : CommandBus.t) (type : string) (fn : H) :
  CommandBus.wf b → CommandBus.wf (CommandBus.off b type fn).
Proof.
  intros Hwf. unfold CommandBus.off.
  destruct (CommandBus.listeners b !! type) as [s|] eqn:Hs; [|exact Hwf].
  intros type' s' Hs'. simpl in Hs'.
  destruct (decide (type = type')) as [->|Hne].
  - rewrite lookup_insert_eq in Hs'. inversion Hs'; subst.
    apply NoDup_filter. eapply Hwf. exact Hs.
  - rewrite lookup_insert_ne in Hs' by exact Hne. eapply Hwf. exact Hs'.
Qed.

Lemma on_listeners (b : CommandBus.t) (type : string) (fn : H) :
  CommandBus.listeners (CommandBus.on b type fn).1
  = <[type := CommandBus.set_add
                (default [] (CommandBus.listeners b !! type)) fn]>
      (CommandBus.listeners b).
Proof.
  unfold CommandBus.on. simpl.
  destruct (CommandBus.listeners b !! type) as [s|] eqn:Hs.
  - rewrite Hs. reflexivity.
  - rewrite lookup_insert_eq. simpl. apply insert_insert_eq.
Qed.

Lemma wf_on (b : CommandBus.t) (type : string) (fn : H) :
  CommandBus.wf b → CommandBus.wf (CommandBus.on b type fn).1.
Proof.
  intros Hwf type' s' Hs'. rewrite on_listeners in Hs'.
  destruct (decide (type = type')) as [->|Hne].
  - rewrite lookup_insert_eq in Hs'. inversion Hs'; subst.
    apply set_add_NoDup.
    destruct (CommandBus.listeners b !! type') as [s|] eqn:Hs; simpl.
    + eapply Hwf. exact Hs.
    + apply NoDup_nil_2.
  - rewrite lookup_insert_ne in Hs' by exact Hne. eapply Hwf. exact Hs'.
Qed.

Lemma subscribed_on (b : CommandBus.t) (type : string) (fn : H) :
  CommandBus.subscribed (CommandBus.on b type fn).1 type fn.
Proof.
  eexists. rewrite on_listeners, lookup_insert_eq.
  split; [reflexivity|]. apply set_add_elem.
Qed.

Lemma not_subscribed_off (b : CommandBus.t) (type : string) (fn : H) :
  ¬ CommandBus.subscribed (CommandBus.off b type fn) type fn.
Proof.
  intros (s & Hs & Hin). unfold CommandBus.off in Hs.
  destruct (CommandBus.listeners b !! type) as [s0|] eqn:Hs0.
  - simpl in Hs. rewrite lookup_insert_eq in Hs. inversion Hs; subst.
    exact (set_delete_not_elem _ _ Hin).
  - congruence.
Qed.

Lemma run_app (p : P) (l k : list H) (w : W) :
  CommandBus.run call p (l ++ k) w
  = CommandBus.run call p k (CommandBus.run call p l w).
Proof. unfold CommandBus.run. apply foldl_app. Qed.

(** While [fn] is subscribed, an emission calls it exactly once. *)
Lemma emit_subscribed_once (b : CommandBus.t) (type : string) (fn : H) :
  CommandBus.wf b → CommandBus.subscribed b type fn →
  ∃ before after,
    CommandBus.listeners b !! type = Some (before ++ fn :: after)
    ∧ (fn ∉ before) ∧ (fn ∉ after)
    ∧ ∀ (payload : P) (w : W),
        CommandBus.emit call b type payload w
        = CommandBus.run call payload after
            (call fn payload (CommandBus.run call payload before w)).
Proof.
  intros Hwf (s & Hs & Hin).
  apply list_elem_of_split in Hin. destruct Hin as (before & after & ->).
  exists before, after. split; [exact Hs|].
  pose proof (Hwf _ _ Hs) as Hnd.
  apply NoDup_app in Hnd. destruct Hnd as (_ & Hdisj & Hnd).
  apply NoDup_cons in Hnd. destruct Hnd as [Hafter _].
  split; [|split; [exact Hafter|]].
  - intros Hb. apply (Hdisj _ Hb). apply list_elem_of_here.
  - intros payload w. unfold CommandBus.emit. rewrite Hs.
    rewrite run_app. reflexivity.
Qed.

End BusProperties.

(** C9: subscribing with [on(type, fn)] returns the bus with [fn] subscribed
    and an unsubscribe handle; (a) on every bus where [fn] is subscribed to
    [type], an emission visits [fn] exactly once, synchronously in the fold of
    the subscribers, with the emitted payload; (b) on the bus left by the
    handle [fn] is not subscribed to [type] and an emission of that kind runs
    only subscribers other than [fn]. *)
Theorem C9_bus_subscribe_roundtrip
    {H : Type} `{EqDecision H} {P W : Type} (call : H → P → W → W)
    (b : CommandBus.t) (type : string) (fn : H) :
  CommandBus.wf b →
  let b1 := (CommandBus.on b type fn).1 in
  let unsubscribe := (CommandBus.on b type fn).2 in
  CommandBus.wf b1
  ∧ CommandBus.subscribed b1 type fn
  ∧ (∀ b' : CommandBus.t,
       CommandBus.wf b' → CommandBus.subscribed b' type fn →
       ∃ before after,
         CommandBus.listeners b' !! type = Some (before ++ fn :: after)
         ∧ (fn ∉ before) ∧ (fn ∉ after)
         ∧ ∀ (payload : P) (w : W),
             CommandBus.emit call b' type payload w
             = CommandBus.run call payload after
                 (call fn payload (CommandBus.run call payload before w)))
  ∧ (∀ b' : CommandBus.t,
       (CommandBus.wf b' → CommandBus.wf (unsubscribe b'))
       ∧ ¬ CommandBus.subscribed (unsubscribe b') type fn
       ∧ ∀ (payload : P) (w : W),
           ∃ others,
             (fn ∉ others)
             ∧ default [] (CommandBus.listeners (unsubscribe b') !! type)
               = others
             ∧ CommandBus.emit call (unsubscribe b') type payload w
               = CommandBus.run call payload others w).
Proof.
  intros Hwf b1 unsubscribe.
  split; [apply wf_on; exact Hwf|].
  split; [apply subscribed_on|].
  split; [intros b' Hwf' Hsub; apply emit_subscribed_once; assumption|].
  intros b'. unfold unsubscribe; simpl.
  split; [apply wf_off|].
  split; [apply not_subscribed_off|].
  intros payload w.
  pose proof (not_subscribed_off b' type fn) as Hnot.
  unfold CommandBus.emit, CommandBus.subscribed in *.
  destruct (CommandBus.listeners (CommandBus.off b' type fn) !! type)
    as [s|] eqn:Hs; simpl.
  - exists s. split; [|done]. intros Hin. apply Hnot. eauto.
  - exists []. split; [apply not_elem_of_nil|done].
Qed.

Lemma C9_bus_subscribe_roundtrip_witness :
  let call := UnitManager.call in
  let fn := UnitManager.MoveClosure 0 in
  let on0 := CommandBus.on CommandBus.new MOVE_SELECTED_TO fn in
  CommandBus.wf (CommandBus.new (H := UnitManager.Listener))
  ∧ (∃ before after,
       CommandBus.listeners on0.1 !! MOVE_SELECTED_TO
       = Some (before ++ fn :: after)
       ∧ (fn ∉ before) ∧ (fn ∉ after)
       ∧ ∀ payload um,
           CommandBus.emit call on0.1 MOVE_SELECTED_TO payload um
           = CommandBus.run call payload after
               (call fn payload (CommandBus.run call payload before um)))
  ∧ ¬ CommandBus.subscribed (on0.2 on0.1) MOVE_SELECTED_TO fn.
Proof.
  intros call fn on0.
  pose proof (C9_bus_subscribe_roundtrip call CommandBus.new MOVE_SELECTED_TO
                fn wf_new) as (Hwf & Hsub & Honce & Hoff).
  split; [apply wf_new|]. split.
  - exact (Honce on0.1 Hwf Hsub).
  - exact (proj1 (proj2 (Hoff on0.1))).
Defined.

Lemma C8_move_without_selection_noop_witness :
  Forall (λ u, Unit.selected u = false)
         (UnitManager.units Scenario.idleFleet)
  ∧ UnitManager.onMoveSelectedTo Scenario.idleFleet (Vector3.mk 10 0 10)
    = Scenario.idleFleet.
Proof.
  assert (Hnone : Forall (λ u, Unit.selected u = false)
                         (UnitManager.units Scenario.idleFleet)).
  { repeat constructor. }
  split; [exact Hnone|].
  exact (proj1 (C8_move_without_selection_noop Scenario.idleFleet
                  (Vector3.mk 10 0 10) Hnone)).
Defined.

Lemma C1_selection_end_witness :
  InputSystem.isSelecting (InputSystem.selection Scenario.selecting) = true
  ∧ InputSystem.button Scenario.leftUp = 0%Z
  ∧ ∃ u', UnitManager.units
            (InputSystem.unitManager
               (InputSystem.onMouseUp Scenario.selecting Scenario.leftUp))
          !! 0%nat = Some u'
          ∧ Unit.selected u' = true.
Proof.
  split; [reflexivity|]. split; [reflexivity|].
  destruct (C1_selection_end Scenario.selecting Scenario.leftUp
              eq_refl eq_refl) as (_ & _ & Hunits).
  destruct (Hunits 0%nat Scenario.unitA eq_refl) as (u' & Hu' & Hiff & _).
  exists u'. split; [exact Hu'|]. apply Hiff.
  unfold Vector3.distanceTo, Vector3.distanceToSquared; simpl.
  replace ((3 - 0) * (3 - 0) + (0 - 0) * (0 - 0) + (4 - 0) * (4 - 0))
    with (5 * 5) by ring.
  rewrite sqrt_square by lra. lra.
Defined.

(** ** Manual rotate: the pitch clamp *)

Lemma PI_gt_3 : 3 < PI.
Proof. pose proof PI2_3_2. lra. Qed.

Lemma clamp_bounds (v lo hi : R) : lo <= hi → lo <= clamp v lo hi <= hi.
Proof.
  intros Hle. unfold clamp. split.
  - apply Rmax_l.
  - apply Rmax_lub; [exact Hle|apply Rmin_l].
Qed.

Lemma clamp_below (v lo hi : R) : lo <= hi → v <= lo → clamp v lo hi = lo.
Proof.
  intros Hle Hv. unfold clamp.
  rewrite Rmin_right by lra. apply Rmax_left. exact Hv.
Qed.

Lemma onPointerMove_rotate (s : InputSystem.t) (e : InputSystem.Event) :
  InputSystem.rotateActive (InputSystem.rotate s) = true →
  InputSystem.rotateActive (InputSystem.rotate (InputSystem.onPointerMove s e))
    = true
  ∧ ∃ raw,
      InputSystem.phi
        (InputSystem.spherical
           (InputSystem.rotate (InputSystem.onPointerMove s e)))
      = clamp raw 0.001 (PI - 0.001).
Proof.
  intros Hact. unfold InputSystem.onPointerMove. rewrite Hact. simpl.
  split; [reflexivity|]. eexists. reflexivity.
Qed.

(** C7 (as the code has it): during a manual rotate every drag leaves the
    pitch [phi] in the closed interval from 0.001 to PI - 0.001, whatever the
    sequence of drag deltas and the state the gesture started from; the
    boundaries themselves are attained, the poles 0 and PI are not. *)
Theorem C7_pitch_stays_in_closed_interval
    (s : InputSystem.t) (e : InputSystem.Event) (es : list InputSystem.Event) :
  InputSystem.rotateActive (InputSystem.rotate s) = true →
  let s' := foldl InputSystem.onPointerMove s (e :: es) in
  let phi' := InputSystem.phi (InputSystem.spherical (InputSystem.rotate s')) in
  InputSystem.rotateActive (InputSystem.rotate s') = true
  ∧ 0.001 <= phi' <= PI - 0.001
  ∧ 0 < phi' < PI.
Proof.
  revert s e. induction es as [|e' es IH]; intros s e Hact.
  - simpl. destruct (onPointerMove_rotate s e Hact) as (Hact' & raw & Hphi).
    split; [exact Hact'|]. rewrite Hphi.
    pose proof PI_gt_3.
    pose proof (clamp_bounds raw 0.001 (PI - 0.001) ltac:(lra)).
    lra.
  - destruct (onPointerMove_rotate s e Hact) as (Hact' & _).
    exact (IH (InputSystem.onPointerMove s e) e' Hact').
Qed.

Lemma rotating_gesture_start :
  let s := InputSystem.onPointerDownCapture Scenario.world0
             Scenario.ctrlRightDown in
  InputSystem.rotateActive (InputSystem.rotate s) = true
  ∧ InputSystem.phi (InputSystem.spherical (InputSystem.rotate s)) = PI / 2
  ∧ InputSystem.pointerLocked (InputSystem.pointer s) = false
  ∧ InputSystem.lastClientY (InputSystem.pointer s) = 0
  ∧ InputSystem.rotateSpeed (InputSystem.rotate s) = 0.006.
Proof.
  simpl. split; [reflexivity|]. split; [|auto].
  unfold Vector3.sub; simpl.
  replace ((0 - 0) / _) with 0 by (unfold Rdiv; ring).
  replace (clamp 0 (-1) 1) with 0.
  - apply acos_0.
  - unfold clamp. rewrite Rmin_right by lra. rewrite Rmax_right by lra.
    reflexivity.
Qed.

Lemma C7_pitch_stays_in_closed_interval_witness :
  let s := InputSystem.onPointerDownCapture Scenario.world0
             Scenario.ctrlRightDown in
  let s' := foldl InputSystem.onPointerMove s [Scenario.dragDown1000] in
  InputSystem.rotateActive (InputSystem.rotate s) = true
  ∧ 0.001 <= InputSystem.phi (InputSystem.spherical (InputSystem.rotate s'))
    <= PI - 0.001.
Proof.
  intros s s'.
  assert (Hact : InputSystem.rotateActive (InputSystem.rotate s) = true)
    by reflexivity.
  split; [exact Hact|].
  exact (proj1 (proj2 (C7_pitch_stays_in_closed_interval s
                         Scenario.dragDown1000 [] Hact))).
Defined.

(** C7 as stated fails: a rotate gesture started with the camera level with
    its target has pitch PI/2, strictly inside the interval; one drag of 1000
    pixels puts the pitch on the boundary 0.001. *)
Lemma C7_pitch_reaches_boundary :
  let s := InputSystem.onPointerDownCapture Scenario.world0
             Scenario.ctrlRightDown in
  let phi0 := InputSystem.phi (InputSystem.spherical (InputSystem.rotate s)) in
  let s' := InputSystem.onPointerMove s Scenario.dragDown1000 in
  let phi' := InputSystem.phi (InputSystem.spherical (InputSystem.rotate s')) in
  InputSystem.rotateActive (InputSystem.rotate s) = true
  ∧ 0.001 < phi0 < PI - 0.001
  ∧ phi' = 0.001
  ∧ ¬ (0.001 < phi' < PI - 0.001).
Proof.
  intros s phi0 s' phi'.
  destruct rotating_gesture_start as (Hact & Hphi & Hlock & Hlast & Hspeed).
  fold s in Hact, Hphi, Hlock, Hlast, Hspeed.
  pose proof PI_gt_3 as Hpi. pose proof PI_4 as Hpi4.
  assert (Hphi' : phi' = 0.001).
  { unfold phi', s', InputSystem.onPointerMove.
    rewrite Hact, Hlock. cbn [InputSystem.phi InputSystem.spherical
                              InputSystem.rotate].
    rewrite Hphi, Hlast, Hspeed.
    apply clamp_below; [lra|]. simpl. lra. }
  split; [exact Hact|]. split; [unfold phi0; rewrite Hphi; lra|].
  split; [exact Hphi'|]. rewrite Hphi'. lra.
Qed.

(** ** Steering tick *)

Lemma arrive_params (self : Unit.t) :
  Unit.maxSpeed (Unit.arrive self).1 = Unit.maxSpeed self
  ∧ Unit.idleDamping (Unit.arrive self).1 = Unit.idleDamping self.
Proof.
  unfold Unit.arrive. destruct (Unit.target self) as [tg|]; [|done].
  destruct (Rle_dec _ _); done.
Qed.

Lemma update_velocity (self : Unit.t) (dt : R) (neighbors : list Unit.t)
    (obstacles : list Obstacle.t) :
  let self1 := (Unit.arrive self).1 in
  let steer :=
    Unit.steering self1 (Unit.arrive self).2 neighbors obstacles in
  Unit.velocity (Unit.update self dt neighbors obstacles)
  = Unit.integrate self1
      (Vector3.addScaledVector (Unit.velocity self1) steer dt) dt
  ∧ Unit.target (Unit.update self dt neighbors obstacles) = Unit.target self1
  ∧ Unit.position (Unit.update self dt neighbors obstacles)
    = Vector3.addScaledVector (Unit.position self1)
        (Unit.velocity (Unit.update self dt neighbors obstacles)) dt.
Proof.
  unfold Unit.update.
  destruct (Unit.arrive self) as [self1 steer0]. simpl. auto.
Qed.

Lemma damping_factor (d x : R) : 0 < d <= 1 → 1 <= x → 0 < Rpower d x <= 1.
Proof.
  intros [Hd0 Hd1] Hx. unfold Rpower. split; [apply exp_pos|].
  rewrite <- exp_0. 
  destruct (Req_dec d 1) as [->|Hne].
  - rewrite ln_1, Rmult_0_r. lra.
  - left. apply exp_increasing.
    assert (Hln : ln d < 0).
    { rewrite <- ln_1. apply ln_increasing; lra. }
    nra.
Qed.

Lemma integrate_speed (self : Unit.t) (v : Vector3.t) (dt : R) :
  0 <= Unit.maxSpeed self →
  0 < Unit.idleDamping self <= 1 →
  Vector3.length (Unit.integrate self v dt) <= Unit.maxSpeed self.
Proof.
  intros Hmax Hdamp. unfold Unit.integrate.
  set (speed := Vector3.length v).
  set (v' := if Rgt_dec speed (Unit.maxSpeed self)
             then Vector3.multiplyScalar v (Unit.maxSpeed self / speed)
             else v).
  assert (Hv' : Vector3.length v' <= Unit.maxSpeed self).
  { unfold v'. destruct (Rgt_dec speed (Unit.maxSpeed self)) as [Hgt|Hle].
    - rewrite length_multiplyScalar. fold speed.
      assert (Hpos : 0 < speed) by lra.
      rewrite Rabs_right.
      + unfold Rdiv. rewrite Rmult_assoc, Rinv_l by lra. lra.
      + apply Rle_ge. apply Rmult_le_pos; [lra|].
        left. apply Rinv_0_lt_compat. exact Hpos.
    - fold speed. lra. }
  assert (Hdamped :
    Vector3.length
      (Vector3.multiplyScalar v'
         (Rpower (Unit.idleDamping self) (Rmax 1 (dt * 60))))
    <= Unit.maxSpeed self).
  { rewrite length_multiplyScalar.
    pose proof (damping_factor (Unit.idleDamping self) (Rmax 1 (dt * 60))
                  Hdamp (Rmax_l _ _)) as [Hf0 Hf1].
    rewrite Rabs_right by lra.
    pose proof (length_nonneg v'). nra. }
  destruct (Unit.target self); [exact Hv'|].
  destruct (Rgt_dec speed 0); [exact Hdamped|exact Hv'].
Qed.

Lemma update_params (self : Unit.t) (dt : R) (neighbors : list Unit.t)
    (obstacles : list Obstacle.t) :
  Unit.maxSpeed (Unit.update self dt neighbors obstacles) = Unit.maxSpeed self
  ∧ Unit.idleDamping (Unit.update self dt neighbors obstacles)
    = Unit.idleDamping self.
Proof.
  destruct (arrive_params self) as [Hms Hid]. unfold Unit.update.
  destruct (Unit.arrive self) as [self1 steer0]. simpl in *. auto.
Qed.

(** ** The speed clamp under rounding *)

Section RoundingError.
Variable rnd : R → R.
Variable u : R.
Hypothesis Hu : 0 <= u <= 1 / 100.
Hypothesis Hrnd : ∀ x : R, Rabs (rnd x - x) <= u * Rabs x.

Lemma rnd_nonneg (x : R) : 0 <= x → x * (1 - u) <= rnd x <= x * (1 + u).
Proof.
  intros Hx. pose proof (Hrnd x) as H.
  rewrite (Rabs_right x) in H by lra.
  unfold Rabs in H. destruct (Rcase_abs (rnd x - x)); lra.
Qed.

Lemma rnd_sqr (x : R) : rnd x * rnd x <= x * x * ((1 + u) * (1 + u)).
Proof.
  pose proof (Hrnd x) as H.
  assert (Habs : Rabs (rnd x) <= Rabs x * (1 + u)).
  { replace (rnd x) with ((rnd x - x) + x) at 1 by ring.
    eapply Rle_trans; [apply Rabs_triang|]. lra. }
  pose proof (Rabs_pos (rnd x)) as H0. pose proof (Rabs_pos x) as H1.
  replace (rnd x * rnd x) with (Rabs (rnd x) * Rabs (rnd x))
    by (unfold Rabs; destruct (Rcase_abs (rnd x)); ring).
  replace (x * x) with (Rabs x * Rabs x)
    by (unfold Rabs; destruct (Rcase_abs x); ring).
  nra.
Qed.

(** The measured length is at least the exact one times [(1 - u)^3]. *)
Lemma rounded_length_lower (v : Vector3.t) :
  Vector3.length v * ((1 - u) * (1 - u) * (1 - u)) <= Rounded.length rnd v.
Proof.
  unfold Rounded.length, Vector3.length, Vector3.lengthSq.
  destruct v as [a b c]. cbn [Vector3.x Vector3.y Vector3.z].
  set (w := 1 - u). assert (Hw : 99 / 100 <= w <= 1) by (unfold w; lra).
  pose proof (rnd_nonneg (a * a) ltac:(nra)) as [Ha _].
  pose proof (rnd_nonneg (b * b) ltac:(nra)) as [Hb _].
  pose proof (rnd_nonneg (c * c) ltac:(nra)) as [Hc _].
  fold w in Ha, Hb, Hc.
  set (ra := rnd (a * a)) in *. set (rb := rnd (b * b)) in *.
  set (rc := rnd (c * c)) in *.
  assert (Ha0 : 0 <= ra) by nra. assert (Hb0 : 0 <= rb) by nra.
  assert (Hc0 : 0 <= rc) by nra.
  pose proof (rnd_nonneg (ra + rb) ltac:(lra)) as [Hs1 _]. fold w in Hs1.
  set (s1 := rnd (ra + rb)) in *.
  assert (Hs10 : 0 <= s1) by nra.
  pose proof (rnd_nonneg (s1 + rc) ltac:(lra)) as [Hs2 _]. fold w in Hs2.
  set (s2 := rnd (s1 + rc)) in *.
  set (n := a * a + b * b + c * c). assert (Hn : 0 <= n) by (unfold n; nra).
  assert (Hs1' : (a * a + b * b) * (w * w) <= s1).
  { eapply Rle_trans; [|exact Hs1].
    replace ((a * a + b * b) * (w * w))
      with ((a * a * w + b * b * w) * w) by ring.
    apply Rmult_le_compat_r; lra. }
  assert (Hs2' : n * (w * w * w) <= s2).
  { eapply Rle_trans; [|exact Hs2].
    replace (n * (w * w * w))
      with (((a * a + b * b) * (w * w) + c * c * w * w) * w)
      by (unfold n; ring).
    apply Rmult_le_compat_r; [lra|].
    assert (c * c * w * w <= c * c * w) by nra. lra. }
  assert (Hs20 : 0 <= s2) by nra.
  assert (Hroot : sqrt n * (w * w) <= sqrt s2).
  { rewrite <- (sqrt_square (sqrt n * (w * w)))
      by (pose proof (sqrt_pos n); nra).
    apply sqrt_le_1_alt.
    replace (sqrt n * (w * w) * (sqrt n * (w * w)))
      with (sqrt n * sqrt n * (w * w * w * w)) by ring.
    rewrite sqrt_sqrt by exact Hn.
    eapply Rle_trans; [|exact Hs2'].
    apply Rmult_le_compat_l; [exact Hn|].
    assert (Hw2 : 0 <= w * w * w) by nra.
    nra. }
  pose proof (rnd_nonneg (sqrt s2) (sqrt_pos s2)) as [Hr _]. fold w in Hr.
  eapply Rle_trans; [|exact Hr].
  replace (sqrt n * (w * w * w)) with (sqrt n * (w * w) * w) by ring.
  apply Rmult_le_compat_r; lra.
Qed.

(** Scaling by a non-negative factor: the exact length of the rounded
    product. *)
Lemma rounded_multiplyScalar_length (v : Vector3.t) (s : R) :
  0 <= s →
  Vector3.length (Rounded.multiplyScalar rnd v s)
  <= Vector3.length v * s * (1 + u).
Proof.
  intros Hs. unfold Rounded.multiplyScalar, Vector3.length, Vector3.lengthSq.
  destruct v as [a b c]. cbn [Vector3.x Vector3.y Vector3.z].
  set (n := a * a + b * b + c * c). assert (Hn : 0 <= n) by (unfold n; nra).
  pose proof (rnd_sqr (a * s)) as Ha. pose proof (rnd_sqr (b * s)) as Hb.
  pose proof (rnd_sqr (c * s)) as Hc.
  pose proof (sqrt_pos n) as Hroot.
  rewrite <- (sqrt_square (sqrt n * s * (1 + u)))
    by (apply Rmult_le_pos; [apply Rmult_le_pos; assumption|lra]).
  apply sqrt_le_1_alt.
  replace (sqrt n * s * (1 + u) * (sqrt n * s * (1 + u)))
    with (sqrt n * sqrt n * (s * s) * ((1 + u) * (1 + u))) by ring.
  rewrite sqrt_sqrt by exact Hn. unfold n. nra.
Qed.

(** The magnitude clamp of the sources,
    [if (len > m) v.multiplyScalar(m / len)]. *)
Lemma rounded_clamp (v : Vector3.t) (m : R) :
  0 <= m →
  let len := Rounded.length rnd v in
  Vector3.length
    (if Rgt_dec len m then Rounded.multiplyScalar rnd v (rnd (m / len)) else v)
  * ((1 - u) * (1 - u) * (1 - u))
  <= m * ((1 + u) * (1 + u)).
Proof.
  intros Hm len.
  pose proof (rounded_length_lower v) as Hlow. fold len in Hlow.
  set (w3 := (1 - u) * (1 - u) * (1 - u)) in *.
  assert (Hw3 : 0 < w3 <= 1) by (unfold w3; nra).
  pose proof (length_nonneg v) as HL.
  destruct (Rgt_dec len m) as [Hgt|Hle].
  - assert (Hlen : 0 < len) by lra.
    assert (Hq : 0 <= m / len)
      by (apply Rmult_le_pos; [lra|left; apply Rinv_0_lt_compat; lra]).
    pose proof (rnd_nonneg (m / len) Hq) as [Hk0 Hk1].
    set (k := rnd (m / len)) in *.
    assert (Hk : 0 <= k) by nra.
    pose proof (rounded_multiplyScalar_length v k Hk) as Hscaled.
    assert (Hqlen : m / len * len = m) by (field; lra).
    set (q := m / len) in *.
    set (L := Vector3.length v) in *.
    set (L' := Vector3.length (Rounded.multiplyScalar rnd v k)) in *.
    assert (H1 : L' * w3 <= L * w3 * (k * (1 + u))) by nra.
    assert (H2 : L * w3 * (k * (1 + u)) <= len * (k * (1 + u)))
      by (apply Rmult_le_compat_r; nra).
    assert (H3 : len * (k * (1 + u)) <= len * (q * (1 + u) * (1 + u)))
      by (apply Rmult_le_compat_l; nra).
    replace (len * (q * (1 + u) * (1 + u))) with (m * ((1 + u) * (1 + u)))
      in H3 by (rewrite <- Hqlen; ring).
    lra.
  - assert (Vector3.length v * w3 <= m) by lra. nra.
Qed.

End RoundingError.

(** With the identity for [rnd] and the exact power the rounded step is the
    step over the reals. *)
Lemma rounded_integrate_exact (self : Unit.t) (steer : Vector3.t) (dt : R) :
  Rounded.integrate (λ x, x) Rpower self steer dt
  = Unit.integrate self
      (Vector3.addScaledVector (Unit.velocity self) steer dt) dt.
Proof. reflexivity. Qed.

Lemma rounding_budget (u : R) :
  0 <= u <= 1 / 100 →
  (1 + u) * (1 + u) * (1 + u)
  <= (1 + 7 * u) * ((1 - u) * (1 - u) * (1 - u)).
Proof.
  intros Hu.
  assert (H2 : 0 <= u * u <= u / 100) by nra.
  assert (H3 : 0 <= u * u * u <= u * u / 100) by nra.
  assert (H4 : 0 <= u * u * u * u <= u * u * u / 100) by nra.
  ring_simplify. nra.
Qed.

(** C6 (as the code has it): when every operation of the integration step
    returns its exact result with a relative error of at most [u] (for
    binary64, [u] is 2^-53 as long as nothing underflows or overflows) and
    [Math.pow] returns a factor between 0 and 1 for a base in (0, 1] and an
    exponent of at least 1, the Euclidean norm of the velocity that the step
    leaves is at most [maxSpeed * (1 + 7 * u)], whatever the unit, the
    steering of the tick and [dt], for a unit whose [maxSpeed] is not
    negative and whose idle damping base lies in (0, 1].  With [u = 0],
    exact arithmetic, the bound is [maxSpeed] itself. *)
Theorem C6_speed_at_most_maxSpeed_up_to_rounding
    (rnd : R → R) (pow : R → R → R) (u : R)
    (self : Unit.t) (steer : Vector3.t) (dt : R) :
  0 <= u <= 1 / 100 →
  (∀ x : R, Rabs (rnd x - x) <= u * Rabs x) →
  (∀ b e : R, 0 < b <= 1 → 1 <= e → 0 <= pow b e <= 1) →
  0 <= Unit.maxSpeed self →
  0 < Unit.idleDamping self <= 1 →
  Vector3.length (Rounded.integrate rnd pow self steer dt)
  <= Unit.maxSpeed self * (1 + 7 * u).
Proof.
  intros Hu Hrnd Hpow Hmax Hdamp. unfold Rounded.integrate.
  set (v1 := Rounded.addScaledVector rnd (Unit.velocity self) steer dt).
  set (speed := Rounded.length rnd v1).
  set (m := Unit.maxSpeed self) in *.
  set (v2 := if Rgt_dec speed m
             then Rounded.multiplyScalar rnd v1 (rnd (m / speed)) else v1).
  pose proof (rounded_clamp rnd u Hu Hrnd v1 m Hmax) as Hclamp.
  cbv zeta in Hclamp. fold speed v2 in Hclamp.
  pose proof (rounding_budget u Hu) as Hbudget.
  set (w3 := (1 - u) * (1 - u) * (1 - u)) in *.
  assert (Hw3 : 0 < w3) by (unfold w3; nra).
  pose proof (length_nonneg v2) as Hv2.
  assert (Hkept : Vector3.length v2 <= m * (1 + 7 * u)).
  { apply Rmult_le_reg_r with w3; [exact Hw3|].
    eapply Rle_trans; [exact Hclamp|].
    rewrite Rmult_assoc. apply Rmult_le_compat_l; [exact Hmax|]. nra. }
  destruct (Unit.target self); [exact Hkept|].
  destruct (Rgt_dec speed 0); [|exact Hkept].
  destruct (Hpow (Unit.idleDamping self) (Rmax 1 (rnd (dt * 60))) Hdamp
              (Rmax_l _ _)) as [Hf0 Hf1].
  set (f := pow (Unit.idleDamping self) (Rmax 1 (rnd (dt * 60)))) in *.
  pose proof (rounded_multiplyScalar_length rnd u Hu Hrnd v2 f Hf0) as Hdamped.
  apply Rmult_le_reg_r with w3; [exact Hw3|].
  set (A := Vector3.length (Rounded.multiplyScalar rnd v2 f)) in *.
  assert (Ha : A <= Vector3.length v2 * (1 + u)).
  { eapply Rle_trans; [exact Hdamped|].
    apply Rmult_le_compat_r; [lra|]. nra. }
  assert (H1 : A * w3 <= Vector3.length v2 * w3 * (1 + u)).
  { replace (Vector3.length v2 * w3 * (1 + u))
      with (Vector3.length v2 * (1 + u) * w3) by ring.
    apply Rmult_le_compat_r; lra. }
  assert (H2 : Vector3.length v2 * w3 * (1 + u)
               <= m * ((1 + u) * (1 + u)) * (1 + u))
    by (apply Rmult_le_compat_r; lra).
  assert (H3 : m * ((1 + u) * (1 + u)) * (1 + u)
               <= m * ((1 + 7 * u) * w3)).
  { rewrite !Rmult_assoc. apply Rmult_le_compat_l; [exact Hmax|]. lra. }
  lra.
Qed.

Lemma C6_speed_at_most_maxSpeed_up_to_rounding_witness :
  0 <= Scenario.roundoff <= 1 / 100
  ∧ (∀ x : R,
       Rabs (Scenario.inflate x - x) <= Scenario.roundoff * Rabs x)
  ∧ Vector3.length
      (Rounded.integrate Scenario.inflate Rpower Scenario.runner
         Scenario.push 0.02)
    <= Unit.maxSpeed Scenario.runner * (1 + 7 * Scenario.roundoff).
Proof.
  assert (Hu : 0 <= Scenario.roundoff <= 1 / 100)
    by (unfold Scenario.roundoff; lra).
  assert (Hrnd : ∀ x : R,
            Rabs (Scenario.inflate x - x) <= Scenario.roundoff * Rabs x).
  { intros x. unfold Scenario.inflate.
    replace (x * (1 + Scenario.roundoff) - x) with (Scenario.roundoff * x)
      by ring.
    rewrite Rabs_mult, (Rabs_right Scenario.roundoff) by lra. lra. }
  assert (Hpow : ∀ b e : R, 0 < b <= 1 → 1 <= e → 0 <= Rpower b e <= 1).
  { intros b e Hb He. destruct (damping_factor b e Hb He). lra. }
  assert (Hmax : 0 <= Unit.maxSpeed Scenario.runner) by (simpl; lra).
  assert (Hdamp : 0 < Unit.idleDamping Scenario.runner <= 1)
    by (simpl; lra).
  split; [exact Hu|]. split; [exact Hrnd|].
  exact (C6_speed_at_most_maxSpeed_up_to_rounding Scenario.inflate Rpower
           Scenario.roundoff Scenario.runner Scenario.push 0.02
           Hu Hrnd Hpow Hmax Hdamp).
Defined.

(** C6 as stated fails in binary64: a unit at exactly [maxSpeed] = 10,
    velocity (6, 0, 8), heading for its target with a second unit 1.5 behind
    it, is pushed to (6.0072, 0, 8.0096) by the separation; the clamp
    [velocity.multiplyScalar(maxSpeed / speed)] returns
    (6.000000000000001, 0, 8.000000000000002).  Both components exceed those
    of (6, 0, 8), whose norm is 10, so the norm of the velocity at the end
    of the tick is above [maxSpeed]; [length()] of it is
    10.000000000000002. *)
Lemma C6_binary64_speed_above_maxSpeed :
  let self' :=
    Binary64.update Scenario64.anyPow Scenario64.runner Scenario64.dt
      [Scenario64.runner; Scenario64.pusher] in
  Binary64.velocity self' = Scenario64.overshoot
  ∧ PrimFloat.ltb Scenario64.six (Binary64.x (Binary64.velocity self')) = true
  ∧ PrimFloat.ltb Scenario64.eight (Binary64.z (Binary64.velocity self'))
    = true
  ∧ PrimFloat.ltb (Binary64.maxSpeed Scenario64.runner)
      (Binary64.length (Binary64.velocity self')) = true.
Proof.
  intros self'.
  assert (Hv : Binary64.velocity self' = Scenario64.overshoot)
    by (vm_compute; reflexivity).
  rewrite Hv. repeat split; vm_compute; reflexivity.
Qed.

(** ** Arrival *)

Lemma arrive_arrived (self : Unit.t) (tg : Vector3.t) :
  Unit.target self = Some tg →
  Vector3.distanceTo tg (Unit.position self) <= Unit.stopRadius self →
  Unit.arrive self
  = (Unit.with_motion self (Unit.position self) Vector3.zero None,
     Vector3.zero).
Proof.
  intros Htg Hd. unfold Unit.arrive. rewrite Htg.
  rewrite distanceTo_length in Hd.
  destruct (Rle_dec _ _) as [_|Hn]; [reflexivity|contradiction].
Qed.

Lemma addScaledVector_zero_zero (s : R) :
  Vector3.addScaledVector Vector3.zero Vector3.zero s = Vector3.zero.
Proof. unfold Vector3.addScaledVector, Vector3.zero; simpl. f_equal; ring. Qed.

Lemma lengthSq_zero : Vector3.lengthSq Vector3.zero = 0.
Proof. unfold Vector3.lengthSq; simpl. ring. Qed.

(** No neighbour contributes to the separation of [self]. *)
Lemma separation_no_contribution (self : Unit.t) (neighbors : list Unit.t)
    (maxAccel : R) :
  Forall (λ n, Unit.id n = Unit.id self
               ∨ ¬ (0 < Vector3.distanceTo (Unit.position self)
                                           (Unit.position n)
                      < (Unit.radius self + Unit.radius n) * 1.2))
         neighbors →
  Unit.separation self neighbors maxAccel = Vector3.zero.
Proof.
  intros Hall. unfold Unit.separation.
  assert (Hfold : foldl (Unit.separationStep self) (Vector3.zero, O) neighbors
                  = (Vector3.zero, O)).
  { induction Hall as [|n ns Hn _ IH]; [reflexivity|].
    change (foldl (Unit.separationStep self) (Vector3.zero, O) (n :: ns))
      with (foldl (Unit.separationStep self)
              (Unit.separationStep self (Vector3.zero, O) n) ns).
    replace (Unit.separationStep self (Vector3.zero, O) n)
      with (Vector3.zero, O); [exact IH|].
    unfold Unit.separationStep.
    destruct (Nat.eqb (Unit.id n) (Unit.id self)) eqn:Hid; [reflexivity|].
    destruct Hn as [Heq|Hfar].
    - apply Nat.eqb_neq in Hid. contradiction.
    - rewrite distanceTo_length in Hfar.
      destruct (Rgt_dec _ 0) as [Hpos|_]; [|reflexivity].
      destruct (Rlt_dec _ _) as [Hnear|_]; [|reflexivity].
      exfalso. apply Hfar. split; [exact Hpos|exact Hnear]. }
  rewrite Hfold. rewrite length_zero.
  destruct (Rgt_dec 0 maxAccel); [apply multiplyScalar_zero|reflexivity].
Qed.

Lemma avoidSpheres_at_rest_idle (self : Unit.t) (obstacles : list Obstacle.t) :
  Unit.target self = None → Unit.velocity self = Vector3.zero →
  Unit.avoidSpheres self obstacles = Vector3.zero.
Proof.
  intros Htg Hv. unfold Unit.avoidSpheres. rewrite Htg, Hv.
  rewrite lengthSq_zero.
  destruct (Rlt_dec 0 1e-6) as [_|Hn]; [reflexivity|lra].
Qed.

(** The steering of a unit that just arrived is its weighted separation. *)
Lemma steering_arrived (self : Unit.t) (neighbors : list Unit.t)
    (obstacles : list Obstacle.t) :
  Unit.target self = None → Unit.velocity self = Vector3.zero →
  Unit.steering self Vector3.zero neighbors obstacles
  = Vector3.addScaledVector Vector3.zero
      (Unit.separation self neighbors (Unit.maxAccel self)) 0.6.
Proof.
  intros Htg Hv. unfold Unit.steering. rewrite Htg.
  destruct obstacles as [|ob obs]; [reflexivity|].
  rewrite avoidSpheres_at_rest_idle by assumption.
  rewrite lengthSq_zero.
  destruct (Rgt_dec 0 0) as [Hn|_]; [lra|reflexivity].
Qed.

Lemma integrate_zero (self : Unit.t) (dt : R) :
  Unit.integrate self Vector3.zero dt = Vector3.zero.
Proof.
  unfold Unit.integrate. rewrite length_zero.
  assert (Hclamp : (if Rgt_dec 0 (Unit.maxSpeed self)
                    then Vector3.multiplyScalar Vector3.zero
                           (Unit.maxSpeed self / 0)
                    else Vector3.zero) = Vector3.zero).
  { destruct (Rgt_dec 0 (Unit.maxSpeed self));
      [apply multiplyScalar_zero|reflexivity]. }
  rewrite Hclamp.
  destruct (Unit.target self); [reflexivity|].
  destruct (Rgt_dec 0 0) as [Hn|_]; [lra|reflexivity].
Qed.

(** C2 (as the code has it): a unit whose target is within [stopRadius]
    clears the target in one tick; its velocity is reset before the idle
    separation is added, so at the end of the tick the velocity is (0,0,0)
    and the position unchanged when no other unit is at a positive distance
    below 1.2 times the sum of the two radii. *)
Theorem C2_arrival_clears_target (self : Unit.t) (tg : Vector3.t) (dt : R)
    (neighbors : list Unit.t) (obstacles : list Obstacle.t) :
  Unit.target self = Some tg →
  Vector3.distanceTo tg (Unit.position self) <= Unit.stopRadius self →
  let self' := Unit.update self dt neighbors obstacles in
  Unit.target self' = None
  ∧ (Forall (λ n, Unit.id n = Unit.id self
                  ∨ ¬ (0 < Vector3.distanceTo (Unit.position self)
                                              (Unit.position n)
                         < (Unit.radius self + Unit.radius n) * 1.2))
            neighbors →
     Unit.velocity self' = Vector3.zero
     ∧ Unit.position self' = Unit.position self).
Proof.
  intros Htg Hd self'.
  destruct (update_velocity self dt neighbors obstacles) as (Hv & Ht & Hp).
  fold self' in Hv, Ht, Hp.
  rewrite (arrive_arrived self tg Htg Hd) in Hv, Ht, Hp. simpl in Hv, Ht, Hp.
  split; [exact Ht|]. intros Hfar.
  assert (Hzero : Unit.velocity self' = Vector3.zero).
  { rewrite Hv. rewrite steering_arrived by reflexivity.
    rewrite separation_no_contribution by exact Hfar.
    rewrite !addScaledVector_zero_zero. apply integrate_zero. }
  split; [exact Hzero|].
  rewrite Hp, Hzero. unfold Vector3.addScaledVector; simpl.
  destruct (Unit.position self) as [px py pz]; simpl. f_equal; ring.
Qed.

Lemma arriving_distance :
  Vector3.distanceTo (Vector3.mk 0.5 0 0) (Unit.position Scenario.arriving)
  = 0.5.
Proof.
  unfold Vector3.distanceTo, Vector3.distanceToSquared; simpl.
  replace ((0.5 - 0) * (0.5 - 0) + (0 - 0) * (0 - 0) + (0 - 0) * (0 - 0))
    with (0.5 * 0.5) by ring.
  apply sqrt_square. lra.
Qed.

Lemma C2_arrival_clears_target_witness :
  let self' :=
    Unit.update Scenario.arriving (1 / 60) [Scenario.arriving]
      [Scenario.rockC] in
  Unit.target Scenario.arriving = Some (Vector3.mk 0.5 0 0)
  ∧ Vector3.distanceTo (Vector3.mk 0.5 0 0) (Unit.position Scenario.arriving)
    <= Unit.stopRadius Scenario.arriving
  ∧ Unit.target self' = None
  ∧ Unit.velocity self' = Vector3.zero.
Proof.
  intros self'.
  assert (Hd : Vector3.distanceTo (Vector3.mk 0.5 0 0)
                 (Unit.position Scenario.arriving)
               <= Unit.stopRadius Scenario.arriving).
  { rewrite arriving_distance. simpl. lra. }
  split; [reflexivity|]. split; [exact Hd|].
  destruct (C2_arrival_clears_target Scenario.arriving (Vector3.mk 0.5 0 0)
              (1 / 60) [Scenario.arriving] [Scenario.rockC] eq_refl Hd)
    as [Htg Hrest].
  split; [exact Htg|].
  apply Hrest. constructor; [left; reflexivity|constructor].
Defined.

Lemma integrate_x_negative (self : Unit.t) (v : Vector3.t) (dt : R) :
  0 < Unit.maxSpeed self → Vector3.x v < 0 →
  Vector3.x (Unit.integrate self v dt) < 0.
Proof.
  intros Hmax Hx. unfold Unit.integrate.
  set (speed := Vector3.length v).
  set (v' := if Rgt_dec speed (Unit.maxSpeed self)
             then Vector3.multiplyScalar v (Unit.maxSpeed self / speed)
             else v).
  assert (Hv' : Vector3.x v' < 0).
  { unfold v'. destruct (Rgt_dec speed (Unit.maxSpeed self)) as [Hgt|_];
      [|exact Hx].
    simpl.
    assert (0 < Unit.maxSpeed self / speed)
      by (apply Rdiv_lt_0_compat; lra).
    nra. }
  assert (Hdamped :
    Vector3.x (Vector3.multiplyScalar v'
                 (Rpower (Unit.idleDamping self) (Rmax 1 (dt * 60)))) < 0).
  { simpl. pose proof (exp_pos (Rmax 1 (dt * 60) * ln (Unit.idleDamping self))).
    unfold Rpower. nra. }
  destruct (Unit.target self); [exact Hv'|].
  destruct (Rgt_dec speed 0); [exact Hdamped|exact Hv'].
Qed.

Lemma bystander_pushes_left :
  Vector3.x
    (Unit.separation
       (Unit.with_motion Scenario.arriving (Unit.position Scenario.arriving)
          Vector3.zero None)
       [Scenario.arriving; Scenario.bystander] 15) < 0.
Proof.
  unfold Unit.separation. cbn [foldl].
  unfold Unit.separationStep at 2. cbn [Unit.id Scenario.arriving
    Unit.setTarget Unit.with_motion Unit.new Nat.eqb].
  unfold Unit.separationStep.
  cbn [Unit.id Unit.position Unit.radius Scenario.bystander Scenario.arriving
       Unit.setTarget Unit.with_motion Unit.new Unit.noOpts Unit.optRadius
       default Nat.eqb].
  assert (Hd : Vector3.length
                 (Vector3.sub Vector3.zero (Vector3.mk 1 0 0)) = 1).
  { unfold Vector3.length, Vector3.lengthSq; simpl.
    replace ((0 - 1) * (0 - 1) + (0 - 0) * (0 - 0) + (0 - 0) * (0 - 0))
      with 1 by ring.
    apply sqrt_1. }
  rewrite Hd.
  destruct (Rgt_dec 1 0) as [_|Hn]; [|lra].
  destruct (Rlt_dec 1 ((0.8 + 0.8) * 1.2)) as [_|Hn]; [|lra].
  set (repulse :=
         Vector3.divideScalar
           (Vector3.add Vector3.zero
              (Vector3.divideScalar
                 (Vector3.sub Vector3.zero (Vector3.mk 1 0 0))
                 (1 * 1 + 1e-6)))
           (INR 1)).
  assert (Hx : Vector3.x repulse < 0).
  { unfold repulse; simpl. lra. }
  destruct (Rgt_dec (Vector3.length repulse) 15) as [Hgt|_]; [|exact Hx].
  simpl.
  assert (0 < 15 / Vector3.length repulse)
    by (apply Rdiv_lt_0_compat; lra).
  nra.
Qed.

(** C2 as stated fails: the unit at distance 0.5 from its target
    (stopRadius 0.6) with another unit one length unit away (radii 0.8) does
    clear its target, but ends the tick with a velocity that is not (0,0,0):
    the idle separation push is integrated after the reset. *)
Lemma C2_arrival_velocity_not_zero :
  let self' :=
    Unit.update Scenario.arriving (1 / 60)
      [Scenario.arriving; Scenario.bystander] [] in
  Unit.target Scenario.arriving = Some (Vector3.mk 0.5 0 0)
  ∧ Vector3.distanceTo (Vector3.mk 0.5 0 0) (Unit.position Scenario.arriving)
    <= Unit.stopRadius Scenario.arriving
  ∧ Unit.target self' = None
  ∧ Vector3.x (Unit.velocity self') < 0
  ∧ Unit.velocity self' ≠ Vector3.zero.
Proof.
  intros self'.
  assert (Hd : Vector3.distanceTo (Vector3.mk 0.5 0 0)
                 (Unit.position Scenario.arriving)
               <= Unit.stopRadius Scenario.arriving).
  { rewrite arriving_distance. simpl. lra. }
  split; [reflexivity|]. split; [exact Hd|].
  destruct (update_velocity Scenario.arriving (1 / 60)
              [Scenario.arriving; Scenario.bystander] []) as (Hv & Ht & _).
  fold self' in Hv, Ht.
  rewrite (arrive_arrived Scenario.arriving (Vector3.mk 0.5 0 0) eq_refl Hd)
    in Hv, Ht.
  cbn [fst snd] in Hv, Ht.
  split; [exact Ht|].
  assert (Hx : Vector3.x (Unit.velocity self') < 0).
  { rewrite Hv. apply integrate_x_negative; [simpl; lra|].
    rewrite steering_arrived by reflexivity.
    pose proof bystander_pushes_left as Hsep.
    change (Unit.maxAccel _) with 15.
    cbn [Vector3.x Vector3.addScaledVector Vector3.zero Unit.velocity
         Unit.with_motion].
    nra. }
  split; [exact Hx|].
  intros Hz. rewrite Hz in Hx. simpl in Hx. lra.
Qed.

(** ** Obstacle projection: leaving the obstacles *)

Lemma cauchy_schwarz (u1 u2 u3 v1 v2 v3 : R) :
  (u1 * v1 + u2 * v2 + u3 * v3) * (u1 * v1 + u2 * v2 + u3 * v3)
  <= (u1 * u1 + u2 * u2 + u3 * u3) * (v1 * v1 + v2 * v2 + v3 * v3).
Proof.
  assert (Hid :
    (u1 * u1 + u2 * u2 + u3 * u3) * (v1 * v1 + v2 * v2 + v3 * v3)
    - (u1 * v1 + u2 * v2 + u3 * v3) * (u1 * v1 + u2 * v2 + u3 * v3)
    = (u1 * v2 - u2 * v1) * (u1 * v2 - u2 * v1)
      + (u1 * v3 - u3 * v1) * (u1 * v3 - u3 * v1)
      + (u2 * v3 - u3 * v2) * (u2 * v3 - u3 * v2)) by ring.
  pose proof (Rle_0_sqr (u1 * v2 - u2 * v1)) as H1.
  pose proof (Rle_0_sqr (u1 * v3 - u3 * v1)) as H2.
  pose proof (Rle_0_sqr (u2 * v3 - u3 * v2)) as H3.
  unfold Rsqr in H1, H2, H3. lra.
Qed.

Lemma length_add_le (u v : Vector3.t) :
  Vector3.length (Vector3.add u v) <= Vector3.length u + Vector3.length v.
Proof.
  pose proof (length_nonneg u) as Hu. pose proof (length_nonneg v) as Hv.
  assert (Hu2 : Vector3.length u * Vector3.length u = Vector3.lengthSq u)
    by (apply sqrt_sqrt, lengthSq_nonneg).
  assert (Hv2 : Vector3.length v * Vector3.length v = Vector3.lengthSq v)
    by (apply sqrt_sqrt, lengthSq_nonneg).
  assert (Hdot : Vector3.dot u v <= Vector3.length u * Vector3.length v).
  { destruct (Rle_dec (Vector3.dot u v) 0) as [Hneg|Hpos]; [nra|].
    apply Rsqr_incr_0_var; [|nra].
    unfold Rsqr.
    replace (Vector3.length u * Vector3.length v
             * (Vector3.length u * Vector3.length v))
      with (Vector3.lengthSq u * Vector3.lengthSq v)
      by (rewrite <- Hu2, <- Hv2; ring).
    apply cauchy_schwarz. }
  rewrite <- (sqrt_square (Vector3.length u + Vector3.length v)) by lra.
  apply sqrt_le_1_alt.
  replace (Vector3.lengthSq (Vector3.add u v))
    with (Vector3.lengthSq u + Vector3.lengthSq v + 2 * Vector3.dot u v)
    by (unfold Vector3.lengthSq, Vector3.dot, Vector3.add; simpl; ring).
  nra.
Qed.

Lemma distanceTo_triangle (a b c : Vector3.t) :
  Vector3.distanceTo a c
  <= Vector3.distanceTo a b + Vector3.distanceTo b c.
Proof.
  rewrite !distanceTo_length.
  replace (Vector3.sub a c)
    with (Vector3.add (Vector3.sub a b) (Vector3.sub b c))
    by (unfold Vector3.add, Vector3.sub; simpl; f_equal; ring).
  apply length_add_le.
Qed.

Lemma distanceTo_addScaled_unit (c dir : Vector3.t) (limit : R) :
  Vector3.lengthSq dir = 1 → 0 <= limit →
  Vector3.distanceTo (Vector3.addScaledVector c dir limit) c = limit.
Proof.
  intros Hdir Hlimit. unfold Vector3.distanceTo.
  replace (Vector3.distanceToSquared (Vector3.addScaledVector c dir limit) c)
    with (limit * limit * Vector3.lengthSq dir)
    by (unfold Vector3.distanceToSquared, Vector3.lengthSq,
          Vector3.addScaledVector; simpl; ring).
  rewrite Hdir, Rmult_1_r. apply sqrt_square. exact Hlimit.
Qed.

Lemma lengthSq_divideScalar_length (v : Vector3.t) :
  0 < Vector3.length v →
  Vector3.lengthSq (Vector3.divideScalar v (Vector3.length v)) = 1.
Proof.
  intros Hpos. unfold Vector3.divideScalar.
  rewrite lengthSq_multiplyScalar.
  assert (Hsq : Vector3.length v * Vector3.length v = Vector3.lengthSq v)
    by (apply sqrt_sqrt, lengthSq_nonneg).
  rewrite <- Hsq. field. lra.
Qed.

(** One turn either leaves a point that is outside the obstacle, or puts a
    point that is inside on the expanded sphere. *)
Lemma projectStep_cases (unitRadius : R) (p : Vector3.t) (ob : Obstacle.t) :
  let limit := Obstacle.radius ob + unitRadius + 0.2 in
  (limit <= Vector3.distanceTo p (Obstacle.position ob)
   ∧ UnitManager.projectStep unitRadius p ob = p)
  ∨ (Vector3.distanceTo p (Obstacle.position ob) < limit
     ∧ Vector3.distanceTo (UnitManager.projectStep unitRadius p ob)
         (Obstacle.position ob) = limit).
Proof.
  intros limit. unfold UnitManager.projectStep, UnitManager.margin.
  fold limit. rewrite distanceTo_length.
  set (dir := Vector3.sub p (Obstacle.position ob)).
  pose proof (length_nonneg dir) as Hd.
  destruct (Rlt_dec (Vector3.length dir) limit) as [Hin|Hout].
  - right. split; [exact Hin|].
    apply distanceTo_addScaled_unit; [|lra].
    destruct (Rlt_dec (Vector3.length dir) 1e-5) as [_|Hfar].
    + unfold Vector3.lengthSq; simpl. ring.
    + apply lengthSq_divideScalar_length. lra.
  - left. split; [lra|reflexivity].
Qed.

Lemma foldl_projectStep_safe (unitRadius : R) (obs : list Obstacle.t)
    (p : Vector3.t) :
  (∀ ob, ob ∈ obs →
     Obstacle.radius ob + unitRadius + 0.2
     <= Vector3.distanceTo p (Obstacle.position ob)) →
  foldl (UnitManager.projectStep unitRadius) p obs = p.
Proof.
  induction obs as [|ob obs IH]; intros Hsafe; [reflexivity|].
  cbn [foldl].
  destruct (projectStep_cases unitRadius p ob) as [[_ ->]|[Hin _]].
  - apply IH. intros ob' Hin'. apply Hsafe. apply list_elem_of_further, Hin'.
  - specialize (Hsafe ob (list_elem_of_here _ _)). lra.
Qed.

(** C4 (failing input): with two obstacles of radius 1 centred 2.5 apart
    and a unit of radius 0.8, the candidate at the centre of the first is
    pushed onto the first sphere, then from there out of the second sphere
    back into the first: it is returned at distance 0.5 from the first
    centre, not 2, inside the first obstacle's expanded radius and inside
    the obstacle itself.  The pass never looks again at an obstacle it has
    left, although the comments of [projectOutsideObstacles] and of its
    caller promise a point outside every obstacle.  The run gives the same
    numbers in binary64. *)
Lemma C4_overlapping_obstacles_left_inside :
  let result :=
    UnitManager.projectOutsideObstacles (Obstacle.position Scenario.rockA)
      0.8 [Scenario.rockA; Scenario.rockB] in
  result = Vector3.mk 0.5 0 0
  ∧ Vector3.distanceTo result (Obstacle.position Scenario.rockA) = 0.5
  ∧ Vector3.distanceTo result (Obstacle.position Scenario.rockA)
    < Obstacle.radius Scenario.rockA + 0.8 + 0.2.
Proof.
  intros result.
  assert (Hstep1 :
    UnitManager.projectStep 0.8 (Obstacle.position Scenario.rockA)
      Scenario.rockA = Vector3.mk 2 0 0).
  { unfold UnitManager.projectStep, UnitManager.margin.
    rewrite <- distanceTo_length, distanceTo_self.
    destruct (Rlt_dec 0 _) as [_|Hn]; [|simpl in Hn; lra].
    destruct (Rlt_dec 0 1e-5) as [_|Hn]; [|lra].
    unfold Vector3.addScaledVector; simpl. f_equal; lra. }
  assert (Hd : Vector3.length
                 (Vector3.sub (Vector3.mk 2 0 0)
                    (Obstacle.position Scenario.rockB)) = 0.5).
  { unfold Vector3.length, Vector3.lengthSq; simpl.
    replace ((2 - 2.5) * (2 - 2.5) + (0 - 0) * (0 - 0) + (0 - 0) * (0 - 0))
      with (0.5 * 0.5) by lra.
    apply sqrt_square. lra. }
  assert (Hstep2 :
    UnitManager.projectStep 0.8 (Vector3.mk 2 0 0) Scenario.rockB
    = Vector3.mk 0.5 0 0).
  { unfold UnitManager.projectStep, UnitManager.margin. rewrite Hd.
    destruct (Rlt_dec 0.5 _) as [_|Hn]; [|simpl in Hn; lra].
    destruct (Rlt_dec 0.5 1e-5) as [Hl|_]; [lra|].
    unfold Vector3.addScaledVector, Vector3.divideScalar,
      Vector3.multiplyScalar; simpl. f_equal; lra. }
  assert (Hres : result = Vector3.mk 0.5 0 0).
  { unfold result, UnitManager.projectOutsideObstacles. cbn [foldl].
    rewrite Hstep1. exact Hstep2. }
  assert (Hdist : Vector3.distanceTo (Vector3.mk 0.5 0 0)
                    (Obstacle.position Scenario.rockA) = 0.5).
  { unfold Vector3.distanceTo, Vector3.distanceToSquared; simpl.
    replace ((0.5 - 0) * (0.5 - 0) + (0 - 0) * (0 - 0) + (0 - 0) * (0 - 0))
      with (0.5 * 0.5) by ring.
    apply sqrt_square. lra. }
  rewrite Hres. split; [reflexivity|]. split; [exact Hdist|].
  rewrite Hdist. simpl. lra.
Qed.

(** ** Formation offsets *)

Lemma PI_le_68_21 : PI <= 68 / 21.
Proof.
  pose proof (PI_2_3_7_ineq 0) as [_ Hup].
  simpl in Hup. unfold tg_alt, PI_2_3_7_tg, Ratan_seq in Hup. simpl in Hup.
  lra.
Qed.

Lemma sqrt5_bounds : 2.236 < sqrt 5 < 2.237.
Proof.
  split.
  - rewrite <- (sqrt_square 2.236) by lra. apply sqrt_lt_1_alt. lra.
  - rewrite <- (sqrt_square 2.237) by lra. apply sqrt_lt_1_alt. lra.
Qed.

Lemma sqrt_upper (a u : R) : 0 <= a → 0 <= u → a <= u * u → sqrt a <= u.
Proof.
  intros Ha Hu Hle. rewrite <- (sqrt_square u) by exact Hu.
  apply sqrt_le_1_alt. exact Hle.
Qed.

Lemma sqrt_lower (a l : R) : 0 <= l → l * l <= a → l <= sqrt a.
Proof.
  intros Hl Hle. rewrite <- (sqrt_square l) by exact Hl.
  apply sqrt_le_1_alt. exact Hle.
Qed.

(** The cosines of the first multiples of the golden angle. *)
Lemma cos_goldenAngle_1 : cos (1 * UnitManager.goldenAngle) <= -1 / 2.
Proof.
  unfold UnitManager.goldenAngle.
  pose proof sqrt5_bounds as [Hlo Hhi]. pose proof PI_gt_3 as Hpi.
  rewrite <- cos_2PI3. apply cos_decr_1; nra.
Qed.

Lemma cos_goldenAngle_2 :
  0 <= cos (2 * UnitManager.goldenAngle) <= 1 / 10.
Proof.
  unfold UnitManager.goldenAngle.
  pose proof sqrt5_bounds as [Hlo Hhi]. pose proof PI_gt_3 as Hpi.
  pose proof PI_le_68_21 as Hpi'.
  split.
  - apply cos_ge_0_3PI2; nra.
  - set (t := PI * (9 / 2 - 2 * sqrt 5)).
    assert (Ht : 0 < t) by (unfold t; nra).
    replace (2 * (PI * (3 - sqrt 5)))
      with (- (PI / 2 - t) + 2 * INR 1 * PI) by (unfold t; simpl; lra).
    rewrite cos_period, cos_neg, cos_shift.
    pose proof (sin_lt_x t Ht). unfold t in *. nra.
Qed.

Lemma cos_goldenAngle_3 :
  cos (3 * UnitManager.goldenAngle) <= 7072 / 10000.
Proof.
  unfold UnitManager.goldenAngle.
  pose proof sqrt5_bounds as [Hlo Hhi]. pose proof PI_gt_3 as Hpi.
  replace (3 * (PI * (3 - sqrt 5)))
    with (PI * (7 - 3 * sqrt 5) + 2 * INR 1 * PI) by (simpl; lra).
  rewrite cos_period.
  apply Rle_trans with (cos (PI / 4)).
  - apply cos_decr_1; nra.
  - rewrite cos_PI4.
    assert (Hs : 14141 / 10000 <= sqrt 2) by (apply sqrt_lower; lra).
    apply Rmult_le_reg_r with (sqrt 2); [lra|].
    unfold Rdiv at 1. rewrite Rmult_1_l, Rinv_l by lra. lra.
Qed.

Lemma cos_goldenAngle_4 : cos (4 * UnitManager.goldenAngle) <= 0.
Proof.
  unfold UnitManager.goldenAngle.
  pose proof sqrt5_bounds as [Hlo Hhi]. pose proof PI_gt_3 as Hpi.
  replace (4 * (PI * (3 - sqrt 5)))
    with (PI * (10 - 4 * sqrt 5) + 2 * INR 1 * PI) by (simpl; lra).
  rewrite cos_period. apply cos_le_0; nra.
Qed.

(** The squared distance of two candidate targets. *)
Lemma candidate_distanceToSquared (target : Vector3.t) (c : R) (i j : nat) :
  Vector3.distanceToSquared
    (UnitManager.candidate target (UnitManager.sunflowerOffset c i))
    (UnitManager.candidate target (UnitManager.sunflowerOffset c j))
  = c * c * ((INR i + 0.5) + (INR j + 0.5)
             - 2 * (sqrt (INR i + 0.5) * sqrt (INR j + 0.5))
               * cos (INR j * UnitManager.goldenAngle
                      - INR i * UnitManager.goldenAngle)).
Proof.
  unfold Vector3.distanceToSquared, UnitManager.candidate,
    UnitManager.sunflowerOffset; simpl.
  rewrite cos_minus.
  set (ti := INR i * UnitManager.goldenAngle).
  set (tj := INR j * UnitManager.goldenAngle).
  assert (Ha : sqrt (INR i + 0.5) * sqrt (INR i + 0.5) = INR i + 0.5)
    by (apply sqrt_sqrt; pose proof (pos_INR i); lra).
  assert (Hb : sqrt (INR j + 0.5) * sqrt (INR j + 0.5) = INR j + 0.5)
    by (apply sqrt_sqrt; pose proof (pos_INR j); lra).
  pose proof (sin2_cos2 ti) as Hi. pose proof (sin2_cos2 tj) as Hj.
  unfold Rsqr in Hi, Hj.
  set (sa := sqrt (INR i + 0.5)) in *. set (sb := sqrt (INR j + 0.5)) in *.
  rewrite <- Ha, <- Hb.
  transitivity
    (c * c * (sa * sa * (sin ti * sin ti + cos ti * cos ti)
              + sb * sb * (sin tj * sin tj + cos tj * cos tj)
              - 2 * (sa * sb) * (cos tj * cos ti + sin tj * sin ti)));
    [ring|].
  rewrite Hi, Hj. ring.
Qed.

Lemma product_cos_upper (p c u cmax : R) :
  0 <= p <= u → c <= cmax → 0 <= cmax → p * c <= u * cmax.
Proof. intros [Hp Hu] Hc Hmax. destruct (Rle_dec c 0); nra. Qed.

(** The bracket of [candidate_distanceToSquared] for two of the first five
    spiral points is at least 0.64 * PI. *)
Lemma spiral_bracket_lower (i j : nat) :
  (i < j < 5)%nat →
  0.64 * PI
  <= (INR i + 0.5) + (INR j + 0.5)
     - 2 * (sqrt (INR i + 0.5) * sqrt (INR j + 0.5))
       * cos (INR j * UnitManager.goldenAngle
              - INR i * UnitManager.goldenAngle).
Proof.
  intros Hij.
  pose proof PI_le_68_21 as Hpi.
  assert (H05 : 0.7 <= sqrt (0 + 0.5) <= 0.7072)
    by (split; [apply sqrt_lower|apply sqrt_upper]; lra).
  assert (H15 : 1.2 <= sqrt (1 + 0.5) <= 1.23)
    by (split; [apply sqrt_lower|apply sqrt_upper]; lra).
  assert (H25 : 1.5 <= sqrt (1 + 1 + 0.5) <= 1.6)
    by (split; [apply sqrt_lower|apply sqrt_upper]; lra).
  assert (H35 : 1.8 <= sqrt (1 + 1 + 1 + 0.5) <= 1.871)
    by (split; [apply sqrt_lower|apply sqrt_upper]; lra).
  assert (H45 : 2.1 <= sqrt (1 + 1 + 1 + 1 + 0.5) <= 2.13)
    by (split; [apply sqrt_lower|apply sqrt_upper]; lra).
  pose proof cos_goldenAngle_1 as Hc1.
  pose proof cos_goldenAngle_2 as [Hc2 Hc2'].
  pose proof cos_goldenAngle_3 as Hc3.
  pose proof cos_goldenAngle_4 as Hc4.
  assert (Hcases :
    (i, j) = (0, 1)%nat ∨ (i, j) = (1, 2)%nat ∨ (i, j) = (2, 3)%nat
    ∨ (i, j) = (3, 4)%nat ∨ (i, j) = (0, 2)%nat ∨ (i, j) = (1, 3)%nat
    ∨ (i, j) = (2, 4)%nat ∨ (i, j) = (0, 3)%nat ∨ (i, j) = (1, 4)%nat
    ∨ (i, j) = (0, 4)%nat).
  { destruct i as [|[|[|[|i]]]], j as [|[|[|[|[|j]]]]]; try lia; tauto. }
  destruct Hcases as
    [Hc|[Hc|[Hc|[Hc|[Hc|[Hc|[Hc|[Hc|[Hc|Hc]]]]]]]]];
    inversion Hc; subst; clear Hc Hij; cbn [INR].
  - replace ((1 : R) * UnitManager.goldenAngle
             - 0 * UnitManager.goldenAngle)
      with (1 * UnitManager.goldenAngle) by ring.
    set (p := sqrt (0 + 0.5) * sqrt (1 + 0.5)).
    assert (Hp : 0.84 <= p) by (unfold p; nra). nra.
  - replace ((1 + 1) * UnitManager.goldenAngle
             - 1 * UnitManager.goldenAngle)
      with (1 * UnitManager.goldenAngle) by ring.
    set (p := sqrt (1 + 0.5) * sqrt (1 + 1 + 0.5)).
    assert (Hp : 0 <= p) by (unfold p; nra). nra.
  - replace ((1 + 1 + 1) * UnitManager.goldenAngle
             - (1 + 1) * UnitManager.goldenAngle)
      with (1 * UnitManager.goldenAngle) by ring.
    set (p := sqrt (1 + 1 + 0.5) * sqrt (1 + 1 + 1 + 0.5)).
    assert (Hp : 0 <= p) by (unfold p; nra). nra.
  - replace ((1 + 1 + 1 + 1) * UnitManager.goldenAngle
             - (1 + 1 + 1) * UnitManager.goldenAngle)
      with (1 * UnitManager.goldenAngle) by ring.
    set (p := sqrt (1 + 1 + 1 + 0.5) * sqrt (1 + 1 + 1 + 1 + 0.5)).
    assert (Hp : 0 <= p) by (unfold p; nra). nra.
  - replace ((1 + 1) * UnitManager.goldenAngle
             - 0 * UnitManager.goldenAngle)
      with (2 * UnitManager.goldenAngle) by ring.
    set (p := sqrt (0 + 0.5) * sqrt (1 + 1 + 0.5)).
    assert (Hp : 0 <= p <= 1.14) by (unfold p; nra).
    pose proof (product_cos_upper p _ 1.14 (1 / 10) Hp Hc2' ltac:(lra)). lra.
  - replace ((1 + 1 + 1) * UnitManager.goldenAngle
             - 1 * UnitManager.goldenAngle)
      with (2 * UnitManager.goldenAngle) by ring.
    set (p := sqrt (1 + 0.5) * sqrt (1 + 1 + 1 + 0.5)).
    assert (Hp : 0 <= p <= 2.31) by (unfold p; nra).
    pose proof (product_cos_upper p _ 2.31 (1 / 10) Hp Hc2' ltac:(lra)). lra.
  - replace ((1 + 1 + 1 + 1) * UnitManager.goldenAngle
             - (1 + 1) * UnitManager.goldenAngle)
      with (2 * UnitManager.goldenAngle) by ring.
    set (p := sqrt (1 + 1 + 0.5) * sqrt (1 + 1 + 1 + 1 + 0.5)).
    assert (Hp : 0 <= p <= 3.41) by (unfold p; nra).
    pose proof (product_cos_upper p _ 3.41 (1 / 10) Hp Hc2' ltac:(lra)). lra.
  - replace ((1 + 1 + 1) * UnitManager.goldenAngle
             - 0 * UnitManager.goldenAngle)
      with (3 * UnitManager.goldenAngle) by ring.
    set (p := sqrt (0 + 0.5) * sqrt (1 + 1 + 1 + 0.5)).
    assert (Hp : 0 <= p <= 1.3232) by (unfold p; nra).
    pose proof (product_cos_upper p _ 1.3232 (7072 / 10000) Hp Hc3
                  ltac:(lra)). lra.
  - replace ((1 + 1 + 1 + 1) * UnitManager.goldenAngle
             - 1 * UnitManager.goldenAngle)
      with (3 * UnitManager.goldenAngle) by ring.
    set (p := sqrt (1 + 0.5) * sqrt (1 + 1 + 1 + 1 + 0.5)).
    assert (Hp : 0 <= p <= 2.62) by (unfold p; nra).
    pose proof (product_cos_upper p _ 2.62 (7072 / 10000) Hp Hc3
                  ltac:(lra)). lra.
  - replace ((1 + 1 + 1 + 1) * UnitManager.goldenAngle
             - 0 * UnitManager.goldenAngle)
      with (4 * UnitManager.goldenAngle) by ring.
    set (p := sqrt (0 + 0.5) * sqrt (1 + 1 + 1 + 1 + 0.5)).
    assert (Hp : 0 <= p) by (unfold p; nra). nra.
Qed.

Lemma sqrt_PI_sq : sqrt PI * sqrt PI = PI.
Proof. apply sqrt_sqrt. pose proof PI_gt_3. lra. Qed.

Lemma sqrt_PI_pos : 0 < sqrt PI.
Proof. apply sqrt_lt_R0. pose proof PI_gt_3. lra. Qed.

Lemma sunflowerOffsets_lookup (n : nat) (S : R) (k : nat)
    (off : UnitManager.offset) :
  UnitManager.sunflowerOffsets n S !! k = Some off →
  (k < n)%nat ∧ off = UnitManager.sunflowerOffset (S / sqrt PI) k.
Proof.
  unfold UnitManager.sunflowerOffsets. intros Hk.
  apply list_lookup_fmap_Some in Hk. destruct Hk as (k' & -> & Hk').
  apply lookup_seq in Hk'. destruct Hk' as [-> Hlt]. auto.
Qed.

(** The distance of a candidate target from the commanded point is the
    radius of its spiral point. *)
Lemma candidate_radius (target : Vector3.t) (c : R) (k : nat) :
  0 <= c →
  Vector3.distanceTo
    (UnitManager.candidate target (UnitManager.sunflowerOffset c k)) target
  = c * sqrt (INR k + 0.5).
Proof.
  intros Hc. unfold Vector3.distanceTo.
  set (r := c * sqrt (INR k + 0.5)).
  set (th := INR k * UnitManager.goldenAngle).
  replace (Vector3.distanceToSquared _ _)
    with (r * r * ((sin th)² + (cos th)²))
    by (unfold Vector3.distanceToSquared, UnitManager.candidate,
          UnitManager.sunflowerOffset, Rsqr; simpl; fold r th; ring).
  rewrite sin2_cos2, Rmult_1_r. apply sqrt_square.
  unfold r. apply Rmult_le_pos; [exact Hc|apply sqrt_pos].
Qed.

Lemma candidate_spacing (target : Vector3.t) (S : R) (i j : nat) :
  0 < S → (i < j < 5)%nat →
  0.8 * S
  <= Vector3.distanceTo
       (UnitManager.candidate target
          (UnitManager.sunflowerOffset (S / sqrt PI) i))
       (UnitManager.candidate target
          (UnitManager.sunflowerOffset (S / sqrt PI) j)).
Proof.
  intros HS Hij. unfold Vector3.distanceTo.
  rewrite candidate_distanceToSquared.
  pose proof (spiral_bracket_lower i j Hij) as Hq.
  set (q := _ + _ - _) in *.
  apply sqrt_lower; [lra|].
  pose proof sqrt_PI_sq as Hsq. pose proof sqrt_PI_pos as Hpos.
  pose proof PI_gt_3 as Hpi.
  replace (S / sqrt PI * (S / sqrt PI) * q) with (S * S * (q / PI)).
  - assert (Hq' : 0.64 <= q / PI).
    { apply Rmult_le_reg_r with PI; [lra|].
      unfold Rdiv. rewrite Rmult_assoc, Rinv_l by lra. lra. }
    nra.
  - set (sp := sqrt PI) in *. rewrite <- Hsq. field. lra.
Qed.

(** C3 (as the code has it): for 5 selected units and spacing S > 0 the
    candidate targets lie on the golden-angle spiral with
    radius_k = c * sqrt(k + 0.5), angle_k = k * goldenAngle and the heuristic
    scale c = S / sqrt(PI); the k = 0 candidate is strictly the nearest to
    the commanded point, and any two candidates are at least 0.8 * S apart
    (not S). *)
Theorem C3_sunflower_spacing (target : Vector3.t) (S : R) :
  0 < S →
  let c := S / sqrt PI in
  let offsets := UnitManager.sunflowerOffsets 5 S in
  length offsets = 5%nat
  ∧ (∀ (k : nat) (off : UnitManager.offset),
       offsets !! k = Some off →
       off = UnitManager.mkOffset
               (c * sqrt (INR k + 0.5) * cos (INR k * UnitManager.goldenAngle))
               (c * sqrt (INR k + 0.5) * sin (INR k * UnitManager.goldenAngle))
       ∧ Vector3.distanceTo (UnitManager.candidate target off) target
         = c * sqrt (INR k + 0.5))
  ∧ (∀ (k : nat) (off0 off : UnitManager.offset),
       offsets !! 0%nat = Some off0 → offsets !! k = Some off → k ≠ 0%nat →
       Vector3.distanceTo (UnitManager.candidate target off0) target
       < Vector3.distanceTo (UnitManager.candidate target off) target)
  ∧ (∀ (i j : nat) (a b : UnitManager.offset),
       i ≠ j → offsets !! i = Some a → offsets !! j = Some b →
       0.8 * S
       <= Vector3.distanceTo (UnitManager.candidate target a)
                             (UnitManager.candidate target b)).
Proof.
  intros HS c offsets.
  assert (Hc : 0 < c) by (apply Rdiv_lt_0_compat; [exact HS|apply sqrt_PI_pos]).
  split; [reflexivity|]. split; [|split].
  - intros k off Hk.
    apply sunflowerOffsets_lookup in Hk. destruct Hk as [_ ->].
    split; [reflexivity|]. apply candidate_radius. lra.
  - intros k off0 off H0 Hk Hne.
    apply sunflowerOffsets_lookup in H0. destruct H0 as [_ ->].
    apply sunflowerOffsets_lookup in Hk. destruct Hk as [_ ->].
    fold c. rewrite !candidate_radius by lra.
    apply Rmult_lt_compat_l; [exact Hc|].
    apply sqrt_lt_1_alt. simpl INR.
    assert (1 <= INR k).
    { replace 1 with (INR 1) by reflexivity. apply le_INR. lia. }
    lra.
  - intros i j a b Hne Hi Hj.
    apply sunflowerOffsets_lookup in Hi. destruct Hi as [Hi ->].
    apply sunflowerOffsets_lookup in Hj. destruct Hj as [Hj ->].
    destruct (Nat.lt_total i j) as [Hlt|[Heq|Hgt]]; [|contradiction|].
    + apply candidate_spacing; [exact HS|lia].
    + rewrite distanceTo_sym. apply candidate_spacing; [exact HS|lia].
Qed.

Lemma default_spacing : Rmax 1.2 (2 * 0.8 + 0.4) = 2.
Proof. rewrite Rmax_right by lra. lra. Qed.

Lemma C3_sunflower_spacing_witness :
  let S := Rmax 1.2 (2 * 0.8 + 0.4) in
  0 < S
  ∧ 0.8 * S
    <= Vector3.distanceTo
         (UnitManager.candidate (Vector3.mk 10 0 10)
            (UnitManager.sunflowerOffset (S / sqrt PI) 0))
         (UnitManager.candidate (Vector3.mk 10 0 10)
            (UnitManager.sunflowerOffset (S / sqrt PI) 2)).
Proof.
  intros S.
  assert (HS : 0 < S) by (unfold S; rewrite default_spacing; lra).
  split; [exact HS|].
  destruct (C3_sunflower_spacing (Vector3.mk 10 0 10) S HS)
    as (_ & _ & _ & Hsp).
  apply (Hsp 0%nat 2%nat); [lia|reflexivity|reflexivity].
Defined.

(** C3 as stated fails: five default units (radius 0.8) give the spacing
    S = max(1.2, 2 * 0.8 + 0.4) = 2, and the candidates of k = 0 and k = 2 are
    closer to each other than S. *)
Lemma C3_offsets_closer_than_spacing :
  let S := Rmax 1.2 (2 * 0.8 + 0.4) in
  let offsets := UnitManager.sunflowerOffsets 5 S in
  ∃ a b : UnitManager.offset,
    offsets !! 0%nat = Some a ∧ offsets !! 2%nat = Some b
    ∧ Vector3.distanceTo (UnitManager.candidate (Vector3.mk 10 0 10) a)
                         (UnitManager.candidate (Vector3.mk 10 0 10) b) < S.
Proof.
  intros S offsets. unfold S. rewrite default_spacing.
  exists (UnitManager.sunflowerOffset (2 / sqrt PI) 0),
         (UnitManager.sunflowerOffset (2 / sqrt PI) 2).
  split; [unfold offsets, S; rewrite default_spacing; reflexivity|].
  split; [unfold offsets, S; rewrite default_spacing; reflexivity|].
  unfold Vector3.distanceTo. rewrite candidate_distanceToSquared.
  cbn [INR].
  replace ((1 + 1) * UnitManager.goldenAngle - 0 * UnitManager.goldenAngle)
    with (2 * UnitManager.goldenAngle) by ring.
  pose proof cos_goldenAngle_2 as [Hcos _].
  pose proof sqrt_PI_sq as Hsq. pose proof sqrt_PI_pos as Hpos.
  pose proof PI_gt_3 as Hpi.
  pose proof (sqrt_pos (0 + 0.5)) as Ha.
  pose proof (sqrt_pos (1 + 1 + 0.5)) as Hb.
  pose proof (Rmult_le_pos _ _ (Rmult_le_pos _ _ Ha Hb) Hcos) as Hprod.
  set (q := _ + _ - _).
  assert (Hq : q <= 3) by (unfold q; lra).
  apply Rlt_le_trans with (sqrt (2 * 2));
    [|rewrite sqrt_square by lra; lra].
  apply sqrt_lt_1_alt. split.
  - apply Rmult_le_pos; [nra|].
    pose proof (spiral_bracket_lower 0 2 ltac:(lia)) as Hlow.
    cbn [INR] in Hlow.
    replace ((1 + 1) * UnitManager.goldenAngle
             - 0 * UnitManager.goldenAngle)
      with (2 * UnitManager.goldenAngle) in Hlow by ring.
    fold q in Hlow. lra.
  - replace (2 / sqrt PI * (2 / sqrt PI) * q) with (4 * (q / PI))
      by (set (sp := sqrt PI) in *; rewrite <- Hsq; field; lra).
    assert (Hq' : q / PI < 1).
    { apply Rmult_lt_reg_r with PI; [lra|].
      unfold Rdiv. rewrite Rmult_assoc, Rinv_l by lra. lra. }
    lra.
Qed.

(** * Further properties of the code *)

(** ** Ground-plane raycast and screen coordinates *)

(** X1: over real numbers, a hit returned by [raycastGroundPlane] lies on
    the plane y = 0 and on the ray, at a non-negative parameter.  (In
    binary64 the y of the hit, [origin.y + dir.y * t], is zero only up to
    rounding.) *)
Theorem X1_raycast_hit_on_plane_and_ray (origin dir p : Vector3.t) :
  MathSys.raycastGroundPlane origin dir = Some p →
  Vector3.y p = 0
  ∧ ∃ t, 0 <= t ∧ p = Vector3.add origin (Vector3.multiplyScalar dir t).
Proof.
  unfold MathSys.raycastGroundPlane. intros Hhit.
  destruct (Rlt_dec (Rabs (Vector3.dot dir MathSys.UP)) 1e-6) as [|Hpar];
    [discriminate|].
  destruct (Rlt_dec (- Vector3.y origin / Vector3.dot dir MathSys.UP) 0)
    as [|Ht]; [discriminate|].
  inversion Hhit as [Hp]. clear Hhit Hp.
  assert (Hden : Vector3.dot dir MathSys.UP = Vector3.y dir)
    by (unfold Vector3.dot, MathSys.UP; simpl; ring).
  assert (Hnz : Vector3.y dir ≠ 0).
  { intros Hz. apply Hpar. rewrite Hden, Hz, Rabs_R0. lra. }
  split.
  - simpl. rewrite Hden. field. exact Hnz.
  - exists (- Vector3.y origin / Vector3.dot dir MathSys.UP).
    split; [lra|reflexivity].
Qed.

Lemma X1_raycast_hit_on_plane_and_ray_witness :
  MathSys.raycastGroundPlane (Vector3.mk 0 5 0) (Vector3.mk 0 (-1) 0)
    = Some (Vector3.mk 0 0 0)
  ∧ Vector3.y (Vector3.mk 0 0 0) = 0.
Proof.
  assert (Hhit : MathSys.raycastGroundPlane (Vector3.mk 0 5 0)
                   (Vector3.mk 0 (-1) 0) = Some (Vector3.mk 0 0 0)).
  { unfold MathSys.raycastGroundPlane, Vector3.dot, MathSys.UP; simpl.
    replace (0 * 0 + -1 * 1 + 0 * 0) with (-1) by ring.
    replace (Rabs (-1)) with 1
      by (unfold Rabs; destruct (Rcase_abs (-1)); lra).
    destruct (Rlt_dec 1 1e-6) as [Hl|_]; [lra|].
    destruct (Rlt_dec (- (5) / -1) 0) as [Hl|_]; [lra|].
    unfold Vector3.add, Vector3.multiplyScalar; simpl.
    do 2 f_equal; lra. }
  split; [exact Hhit|].
  exact (proj1 (X1_raycast_hit_on_plane_and_ray _ _ _ Hhit)).
Defined.

(** X2: for a canvas rectangle of positive size, a pointer inside the
    rectangle has both normalized device coordinates in [-1, 1]; the top-left
    corner maps to (-1, 1) and the bottom-right corner to (1, -1). *)
Theorem X2_ndc_in_unit_square (clientX clientY : R) (rect : MathSys.Rect) :
  0 < MathSys.width rect → 0 < MathSys.height rect →
  MathSys.left rect <= clientX <= MathSys.left rect + MathSys.width rect →
  MathSys.top rect <= clientY <= MathSys.top rect + MathSys.height rect →
  let ndc := MathSys.ndcFromMouseEvent clientX clientY rect in
  -1 <= ndc.1 <= 1 ∧ -1 <= ndc.2 <= 1
  ∧ MathSys.ndcFromMouseEvent (MathSys.left rect) (MathSys.top rect) rect
    = (-1, 1)
  ∧ MathSys.ndcFromMouseEvent (MathSys.left rect + MathSys.width rect)
      (MathSys.top rect + MathSys.height rect) rect = (1, -1).
Proof.
  intros Hw Hh Hx Hy. unfold MathSys.ndcFromMouseEvent; simpl.
  assert (Hfx : 0 <= (clientX - MathSys.left rect) / MathSys.width rect <= 1).
  { split.
    - apply Rmult_le_pos; [lra|]. left. apply Rinv_0_lt_compat. exact Hw.
    - apply Rmult_le_reg_r with (MathSys.width rect); [exact Hw|].
      unfold Rdiv. rewrite Rmult_assoc, Rinv_l by lra. lra. }
  assert (Hfy : 0 <= (clientY - MathSys.top rect) / MathSys.height rect <= 1).
  { split.
    - apply Rmult_le_pos; [lra|]. left. apply Rinv_0_lt_compat. exact Hh.
    - apply Rmult_le_reg_r with (MathSys.height rect); [exact Hh|].
      unfold Rdiv. rewrite Rmult_assoc, Rinv_l by lra. lra. }
  split; [lra|]. split; [lra|]. split; f_equal; field; lra.
Qed.

Lemma X2_ndc_in_unit_square_witness :
  let rect := MathSys.mkRect 0 0 800 600 in
  let ndc := MathSys.ndcFromMouseEvent 400 150 rect in
  -1 <= ndc.1 <= 1 ∧ -1 <= ndc.2 <= 1.
Proof.
  intros rect ndc.
  assert (Hw : 0 < MathSys.width rect) by (simpl; lra).
  assert (Hh : 0 < MathSys.height rect) by (simpl; lra).
  assert (Hx : MathSys.left rect <= 400
               <= MathSys.left rect + MathSys.width rect) by (simpl; lra).
  assert (Hy : MathSys.top rect <= 150
               <= MathSys.top rect + MathSys.height rect) by (simpl; lra).
  destruct (X2_ndc_in_unit_square 400 150 rect Hw Hh Hx Hy) as (Hnx & Hny & _).
  split; [exact Hnx|exact Hny].
Defined.

(** ** Command bus: subscription algebra *)

Section BusAlgebra.
Context {H : Type} `{EqDecision H} {P W : Type}.
Variable call : H → P → W → W.

Lemma set_add_idem (s : list H) (fn : H) :
  CommandBus.set_add (CommandBus.set_add s fn) fn = CommandBus.set_add s fn.
Proof.
  unfold CommandBus.set_add at 1.
  destruct (decide (fn ∈ CommandBus.set_add s fn)) as [_|Hn];
    [reflexivity|].
  exfalso. apply Hn. apply set_add_elem.
Qed.

Lemma set_delete_absent (s : list H) (fn : H) :
  fn ∉ s → CommandBus.set_delete s fn = s.
Proof.
  intros Hout. unfold CommandBus.set_delete.
  induction s as [|g s IH]; [reflexivity|].
  rewrite filter_cons.
  apply not_elem_of_cons in Hout. destruct Hout as [Hne Hout].
  destruct (decide (g ≠ fn)) as [_|Heq]; [|exfalso; apply Heq; congruence].
  f_equal. apply IH. exact Hout.
Qed.

Lemma emit_insert_same (b : CommandBus.t) (type : string) (s : list H) :
  default [] (CommandBus.listeners b !! type) = s →
  ∀ (type' : string) (payload : P) (w : W),
    CommandBus.emit call (CommandBus.mk (<[type := s]> (CommandBus.listeners b)))
      type' payload w
    = CommandBus.emit call b type' payload w.
Proof.
  intros Hs type' payload w. unfold CommandBus.emit. simpl.
  destruct (decide (type = type')) as [<-|Hne].
  - rewrite lookup_insert_eq.
    destruct (CommandBus.listeners b !! type) as [s0|]; simpl in Hs; subst;
      reflexivity.
  - rewrite lookup_insert_ne by exact Hne. reflexivity.
Qed.

End BusAlgebra.

(** X3: subscribing a function that is already subscribed to that kind
    leaves the bus as it is (the listeners of a kind are a Set), so the
    function still runs once per emission. *)
Theorem X3_bus_subscribe_twice_is_once
    {H : Type} `{EqDecision H} (b : CommandBus.t (H := H))
    (type : string) (fn : H) :
  (CommandBus.on (CommandBus.on b type fn).1 type fn).1
  = (CommandBus.on b type fn).1.
Proof.
  destruct (CommandBus.on b type fn).1 as [m1] eqn:Hb1.
  assert (Hm1 : m1 = <[type := CommandBus.set_add
                                  (default [] (CommandBus.listeners b !! type))
                                  fn]> (CommandBus.listeners b)).
  { pose proof (on_listeners b type fn) as Hl. rewrite Hb1 in Hl. exact Hl. }
  pose proof (on_listeners (CommandBus.mk m1) type fn) as Hl2.
  destruct (CommandBus.on (CommandBus.mk m1) type fn).1 as [m2].
  simpl in Hl2. f_equal. rewrite Hl2, Hm1.
  rewrite lookup_insert_eq. simpl. rewrite set_add_idem.
  apply insert_insert_eq.
Qed.

(** X4: subscribing a function that was not subscribed and invoking the
    returned handle gives a bus on which every emission, of every kind,
    does what it did before. *)
Theorem X4_bus_subscribe_unsubscribe_restores
    {H : Type} `{EqDecision H} {P W : Type} (call : H → P → W → W)
    (b : CommandBus.t) (type : string) (fn : H) :
  ¬ CommandBus.subscribed b type fn →
  let b1 := (CommandBus.on b type fn).1 in
  let unsubscribe := (CommandBus.on b type fn).2 in
  ∀ (type' : string) (payload : P) (w : W),
    CommandBus.emit call (unsubscribe b1) type' payload w
    = CommandBus.emit call b type' payload w.
Proof.
  intros Hnot b1 unsubscribe type' payload w.
  set (s := default [] (CommandBus.listeners b !! type)).
  assert (Hout : fn ∉ s).
  { unfold s. intros Hin.
    destruct (CommandBus.listeners b !! type) as [s0|] eqn:Hs0; simpl in Hin.
    - apply Hnot. exists s0. auto.
    - apply elem_of_nil in Hin. exact Hin. }
  assert (Hb1 : CommandBus.listeners b1
                = <[type := s ++ [fn]]> (CommandBus.listeners b)).
  { unfold b1. rewrite on_listeners. fold s. unfold CommandBus.set_add.
    destruct (decide (fn ∈ s)); [contradiction|reflexivity]. }
  assert (Hoff : unsubscribe b1
                 = CommandBus.mk (<[type := s]> (CommandBus.listeners b))).
  { unfold unsubscribe; simpl. unfold CommandBus.off.
    rewrite Hb1, lookup_insert_eq. f_equal.
    rewrite insert_insert_eq. f_equal.
    unfold CommandBus.set_delete. rewrite filter_app.
    fold (CommandBus.set_delete s fn). rewrite set_delete_absent by exact Hout.
    rewrite filter_cons, filter_nil.
    destruct (decide (fn ≠ fn)) as [Hne|_]; [congruence|].
    apply app_nil_r. }
  rewrite Hoff. apply emit_insert_same. reflexivity.
Qed.

Lemma X4_bus_subscribe_unsubscribe_restores_witness :
  let fn := UnitManager.MoveClosure 0 in
  let b := CommandBus.new (H := UnitManager.Listener) in
  ¬ CommandBus.subscribed b MOVE_SELECTED_TO fn
  ∧ ∀ payload um,
      CommandBus.emit UnitManager.call
        ((CommandBus.on b MOVE_SELECTED_TO fn).2
           (CommandBus.on b MOVE_SELECTED_TO fn).1)
        MOVE_SELECTED_TO payload um
      = CommandBus.emit UnitManager.call b MOVE_SELECTED_TO payload um.
Proof.
  intros fn b.
  assert (Hnot : ¬ CommandBus.subscribed b MOVE_SELECTED_TO fn).
  { intros (s & Hs & _). simpl in Hs. rewrite lookup_empty in Hs.
    discriminate. }
  split; [exact Hnot|]. intros payload um.
  exact (X4_bus_subscribe_unsubscribe_restores UnitManager.call b
           MOVE_SELECTED_TO fn Hnot MOVE_SELECTED_TO payload um).
Defined.

(** X5: subscribing to or unsubscribing from one kind never changes what an
    emission of another kind does. *)
Theorem X5_bus_kinds_independent
    {H : Type} `{EqDecision H} {P W : Type} (call : H → P → W → W)
    (b : CommandBus.t) (type type' : string) (fn : H) :
  type ≠ type' →
  ∀ (payload : P) (w : W),
    CommandBus.emit call (CommandBus.on b type fn).1 type' payload w
    = CommandBus.emit call b type' payload w
    ∧ CommandBus.emit call (CommandBus.off b type fn) type' payload w
      = CommandBus.emit call b type' payload w.
Proof.
  intros Hne payload w. split.
  - unfold CommandBus.emit. rewrite on_listeners.
    rewrite lookup_insert_ne by exact Hne. reflexivity.
  - unfold CommandBus.emit, CommandBus.off.
    destruct (CommandBus.listeners b !! type) as [s|]; [|reflexivity].
    simpl. rewrite lookup_insert_ne by exact Hne. reflexivity.
Qed.

Lemma X5_bus_kinds_independent_witness :
  let fn := UnitManager.MoveClosure 0 in
  let b := CommandBus.new (H := UnitManager.Listener) in
  MOVE_SELECTED_TO ≠ "STOP"%string
  ∧ ∀ payload um,
      CommandBus.emit UnitManager.call
        (CommandBus.on b MOVE_SELECTED_TO fn).1 "STOP" payload um
      = CommandBus.emit UnitManager.call b "STOP" payload um.
Proof.
  intros fn b.
  assert (Hne : MOVE_SELECTED_TO ≠ "STOP"%string) by discriminate.
  split; [exact Hne|]. intros payload um.
  exact (proj1 (X5_bus_kinds_independent UnitManager.call b
                  MOVE_SELECTED_TO "STOP" fn Hne payload um)).
Defined.

(** ** Steering forces *)

Lemma add_zero_l (v : Vector3.t) : Vector3.add Vector3.zero v = v.
Proof. destruct v. unfold Vector3.add; simpl. f_equal; ring. Qed.

(** The magnitude clamp used for every force and for the speed. *)
Lemma clamped_length (v : Vector3.t) (m : R) :
  0 <= m →
  Vector3.length
    (if Rgt_dec (Vector3.length v) m
     then Vector3.multiplyScalar v (m / Vector3.length v) else v) <= m.
Proof.
  intros Hm. destruct (Rgt_dec (Vector3.length v) m) as [Hgt|Hle]; [|lra].
  rewrite length_multiplyScalar.
  assert (Hpos : 0 < Vector3.length v) by lra.
  rewrite Rabs_right.
  - unfold Rdiv. rewrite Rmult_assoc, Rinv_l by lra. lra.
  - apply Rle_ge. apply Rmult_le_pos; [lra|].
    left. apply Rinv_0_lt_compat. exact Hpos.
Qed.

(** X6: over real numbers, the steering the arrival step contributes never
    exceeds [maxAccel] in magnitude, whether the unit is idle, arriving or
    seeking.  (In binary64 the clamp [steer * (maxAccel / mag)] can leave a
    magnitude one rounding above [maxAccel].) *)
Theorem X6_arrival_steering_bounded (self : Unit.t) :
  0 <= Unit.maxAccel self →
  Vector3.length (Unit.arrive self).2 <= Unit.maxAccel self.
Proof.
  intros Hm. unfold Unit.arrive.
  destruct (Unit.target self) as [tg|]; simpl;
    [|rewrite length_zero; exact Hm].
  destruct (Rle_dec _ _); simpl; [rewrite length_zero; exact Hm|].
  rewrite add_zero_l. apply clamped_length. exact Hm.
Qed.

Lemma X6_arrival_steering_bounded_witness :
  0 <= Unit.maxAccel Scenario.turning
  ∧ Vector3.length (Unit.arrive Scenario.turning).2
    <= Unit.maxAccel Scenario.turning.
Proof.
  assert (Hm : 0 <= Unit.maxAccel Scenario.turning) by (simpl; lra).
  split; [exact Hm|]. exact (X6_arrival_steering_bounded Scenario.turning Hm).
Defined.

(** X7: over real numbers, the separation force never exceeds the
    [maxAccel] it is given, whatever the neighbours.  (In binary64 the clamp
    [repulse * (maxAccel / mag)] can leave a magnitude one rounding above
    [maxAccel].) *)
Theorem X7_separation_bounded (self : Unit.t) (neighbors : list Unit.t)
    (maxAccel : R) :
  0 <= maxAccel →
  Vector3.length (Unit.separation self neighbors maxAccel) <= maxAccel.
Proof.
  intros Hm. unfold Unit.separation.
  destruct (foldl (Unit.separationStep self) (Vector3.zero, O) neighbors)
    as [repulse count].
  apply clamped_length. exact Hm.
Qed.

Lemma X7_separation_bounded_witness :
  0 <= 15
  ∧ Vector3.length
      (Unit.separation Scenario.crowded
         [Scenario.crowded; Scenario.crowding] 15) <= 15.
Proof.
  assert (Hm : 0 <= 15) by lra.
  split; [exact Hm|].
  exact (X7_separation_bounded Scenario.crowded
           [Scenario.crowded; Scenario.crowding] 15 Hm).
Defined.

Lemma length_sub_sym (a b : Vector3.t) :
  Vector3.length (Vector3.sub a b) = Vector3.length (Vector3.sub b a).
Proof. rewrite <- !distanceTo_length. apply distanceTo_sym. Qed.

Lemma sub_opposite (a b : Vector3.t) :
  Vector3.sub b a = Vector3.multiplyScalar (Vector3.sub a b) (-1).
Proof.
  unfold Vector3.sub, Vector3.multiplyScalar; simpl. f_equal; ring.
Qed.

Lemma length_opposite (v : Vector3.t) :
  Vector3.length (Vector3.multiplyScalar v (-1)) = Vector3.length v.
Proof.
  rewrite length_multiplyScalar.
  replace (Rabs (-1)) with 1
    by (unfold Rabs; destruct (Rcase_abs (-1)); lra).
  ring.
Qed.

(** The separation of [self] from the two-unit fleet [[a; b]] when [self]
    is one of them and [other] the other one. *)
Lemma separation_pair (self other : Unit.t) (neighbors : list Unit.t)
    (maxAccel : R) :
  Unit.id self ≠ Unit.id other →
  neighbors = [self; other] ∨ neighbors = [other; self] →
  let diff := Vector3.sub (Unit.position self) (Unit.position other) in
  let d := Vector3.length diff in
  Unit.separation self neighbors maxAccel
  = if Rgt_dec d 0 then
      if Rlt_dec d ((Unit.radius self + Unit.radius other) * 1.2) then
        let repulse :=
          Vector3.divideScalar
            (Vector3.add Vector3.zero
               (Vector3.divideScalar diff (d * d + 1e-6))) (INR 1) in
        if Rgt_dec (Vector3.length repulse) maxAccel
        then Vector3.multiplyScalar repulse (maxAccel / Vector3.length repulse)
        else repulse
      else if Rgt_dec 0 maxAccel
           then Vector3.multiplyScalar Vector3.zero (maxAccel / 0)
           else Vector3.zero
    else if Rgt_dec 0 maxAccel
         then Vector3.multiplyScalar Vector3.zero (maxAccel / 0)
         else Vector3.zero.
Proof.
  intros Hid Hns diff d.
  assert (Hself : Nat.eqb (Unit.id self) (Unit.id self) = true)
    by apply Nat.eqb_refl.
  assert (Hother : Nat.eqb (Unit.id other) (Unit.id self) = false)
    by (apply Nat.eqb_neq; congruence).
  unfold Unit.separation.
  assert (Hfold :
    foldl (Unit.separationStep self) (Vector3.zero, O) neighbors
    = Unit.separationStep self (Vector3.zero, O) other).
  { destruct Hns as [-> | ->]; cbn [foldl].
    - unfold Unit.separationStep at 2. rewrite Hself. reflexivity.
    - unfold Unit.separationStep at 1.
      destruct (Unit.separationStep self (Vector3.zero, O) other)
        as [rep cnt]. rewrite Hself. reflexivity. }
  rewrite Hfold. unfold Unit.separationStep. rewrite Hother.
  fold diff. fold d.
  destruct (Rgt_dec d 0); [|rewrite length_zero; reflexivity].
  destruct (Rlt_dec d _); [reflexivity|rewrite length_zero; reflexivity].
Qed.

(** X8: in a fleet of two units the separation forces are equal and
    opposite when both are clamped at the same [maxAccel]. *)
Theorem X8_separation_pair_opposite (a b : Unit.t) (maxAccel : R) :
  Unit.id a ≠ Unit.id b →
  Unit.separation b [a; b] maxAccel
  = Vector3.multiplyScalar (Unit.separation a [a; b] maxAccel) (-1).
Proof.
  intros Hid.
  rewrite (separation_pair a b [a; b] maxAccel Hid (or_introl eq_refl)).
  rewrite (separation_pair b a [a; b] maxAccel (not_eq_sym Hid)
             (or_intror eq_refl)).
  cbv zeta.
  rewrite (length_sub_sym (Unit.position b) (Unit.position a)).
  set (d := Vector3.length
              (Vector3.sub (Unit.position a) (Unit.position b))).
  replace ((Unit.radius b + Unit.radius a) * 1.2)
    with ((Unit.radius a + Unit.radius b) * 1.2) by ring.
  assert (Hzero :
    (if Rgt_dec 0 maxAccel
     then Vector3.multiplyScalar Vector3.zero (maxAccel / 0)
     else Vector3.zero)
    = Vector3.multiplyScalar
        (if Rgt_dec 0 maxAccel
         then Vector3.multiplyScalar Vector3.zero (maxAccel / 0)
         else Vector3.zero) (-1)).
  { destruct (Rgt_dec 0 maxAccel); rewrite ?multiplyScalar_zero; reflexivity. }
  destruct (Rgt_dec d 0) as [Hpos|_]; [|exact Hzero].
  destruct (Rlt_dec d _) as [_|_]; [|exact Hzero].
  rewrite (sub_opposite (Unit.position a) (Unit.position b)).
  set (diff := Vector3.sub (Unit.position a) (Unit.position b)).
  set (ra := Vector3.divideScalar
               (Vector3.add Vector3.zero
                  (Vector3.divideScalar diff (d * d + 1e-6))) (INR 1)).
  assert (Hrb :
    Vector3.divideScalar
      (Vector3.add Vector3.zero
         (Vector3.divideScalar (Vector3.multiplyScalar diff (-1))
            (d * d + 1e-6))) (INR 1)
    = Vector3.multiplyScalar ra (-1)).
  { unfold ra, Vector3.divideScalar, Vector3.add, Vector3.multiplyScalar;
      simpl. f_equal; ring. }
  rewrite Hrb, length_opposite.
  destruct (Rgt_dec (Vector3.length ra) maxAccel); [|reflexivity].
  unfold Vector3.multiplyScalar; simpl. f_equal; ring.
Qed.

Lemma X8_separation_pair_opposite_witness :
  Unit.id Scenario.arriving ≠ Unit.id Scenario.bystander
  ∧ Unit.separation Scenario.bystander
      [Scenario.arriving; Scenario.bystander] 15
    = Vector3.multiplyScalar
        (Unit.separation Scenario.arriving
           [Scenario.arriving; Scenario.bystander] 15) (-1).
Proof.
  assert (Hid : Unit.id Scenario.arriving ≠ Unit.id Scenario.bystander)
    by (simpl; lia).
  split; [exact Hid|].
  exact (X8_separation_pair_opposite Scenario.arriving Scenario.bystander
           15 Hid).
Defined.

(** ** Obstacle avoidance *)

Lemma length_pos_lengthSq (v : Vector3.t) :
  0 < Vector3.lengthSq v → 0 < Vector3.length v.
Proof. intros Hpos. apply sqrt_lt_R0. exact Hpos. Qed.




Lemma normalize_unit (v : Vector3.t) :
  0 < Vector3.length v →
  Vector3.normalize v = Vector3.multiplyScalar v (1 / Vector3.length v)
  ∧ Vector3.lengthSq (Vector3.normalize v) = 1.
Proof.
  intros Hpos. unfold Vector3.normalize.
  destruct (Req_dec_T (Vector3.length v) 0) as [Hz|_]; [lra|].
  split; [reflexivity|]. apply lengthSq_divideScalar_length. exact Hpos.
Qed.






Lemma threatStep_out_of_reach (self : Unit.t) (segStart forward : Vector3.t)
    (lookDist : R) (ob : Obstacle.t) :
  Vector3.lengthSq forward = 1 → 0 <= lookDist →
  lookDist + (Obstacle.radius ob + Unit.radius self + Unit.avoidMargin self)
  <= Vector3.distanceTo segStart (Obstacle.position ob) →
  Unit.threatStep self segStart forward lookDist None ob = None.
Proof.
  intros Hunit Hlook Hfar. unfold Unit.threatStep.
  destruct (Rlt_dec _ (- _)); [reflexivity|].
  match goal with
  | |- context [clamp ?q 0 lookDist] =>
      pose proof (clamp_bounds q 0 lookDist Hlook) as Hc;
      set (t := clamp q 0 lookDist) in *
  end.
  set (p := Vector3.addScaledVector segStart forward t).
  assert (Hp : Vector3.distanceTo p segStart = t)
    by (apply distanceTo_addScaled_unit; [exact Hunit|lra]).
  pose proof (distanceTo_triangle segStart p (Obstacle.position ob)) as Htri.
  rewrite (distanceTo_sym segStart p) in Htri.
  destruct (Rlt_dec _ _) as [Hin|_]; [lra|reflexivity].
Qed.

(** X10: obstacles whose expanded sphere lies beyond the probe segment
    (farther from the unit than the look-ahead distance plus
    radius + unit radius + avoid margin) cause no avoidance force at all. *)
Theorem X10_avoidance_ignores_far_obstacles (self : Unit.t)
    (obstacles : list Obstacle.t) :
  let lookDist :=
    Rmax 2.0 (Rmax 0.001 (Vector3.length (Unit.velocity self))
              * Unit.avoidLookahead self + Unit.maxSpeed self * 0.25) in
  Forall (λ ob,
            lookDist + (Obstacle.radius ob + Unit.radius self
                        + Unit.avoidMargin self)
            <= Vector3.distanceTo (Unit.position self) (Obstacle.position ob))
         obstacles →
  Unit.avoidSpheres self obstacles = Vector3.zero.
Proof.
  intros lookDist Hfar. unfold Unit.avoidSpheres.
  destruct (Rlt_dec _ 1e-6) as [|Hmove]; [reflexivity|].
  fold lookDist.
  match goal with
  | |- context [Vector3.normalize ?w] => set (fwd := w) in *
  end.
  assert (Hpos : 0 < Vector3.length fwd).
  { apply length_pos_lengthSq. lra. }
  destruct (normalize_unit fwd Hpos) as [_ Hunit].
  assert (Hlook : 0 <= lookDist).
  { unfold lookDist. pose proof (Rmax_l 2.0 (Rmax 0.001
      (Vector3.length (Unit.velocity self)) * Unit.avoidLookahead self
      + Unit.maxSpeed self * 0.25)). lra. }
  assert (Hnone :
    foldl (Unit.threatStep self (Unit.position self)
             (Vector3.normalize fwd) lookDist) None obstacles = None).
  { induction Hfar as [|ob obs Hob _ IH]; [reflexivity|].
    cbn [foldl].
    rewrite threatStep_out_of_reach by assumption. exact IH. }
  rewrite Hnone. reflexivity.
Qed.

Lemma X10_avoidance_ignores_far_obstacles_witness :
  Unit.avoidSpheres Scenario.arriving [Scenario.rockC] = Vector3.zero.
Proof.
  apply X10_avoidance_ignores_far_obstacles.
  constructor; [|constructor]. simpl.
  rewrite length_zero.
  assert (Hd : Vector3.distanceTo Vector3.zero (Vector3.mk 10 0 0) = 10).
  { unfold Vector3.distanceTo, Vector3.distanceToSquared; simpl.
    replace ((0 - 10) * (0 - 10) + (0 - 0) * (0 - 0) + (0 - 0) * (0 - 0))
      with (10 * 10) by ring.
    apply sqrt_square. lra. }
  rewrite Hd.
  rewrite (Rmax_left 0.001 0) by lra.
  rewrite Rmax_right by lra. lra.
Defined.

(** ** One tick of a unit *)

Lemma arrive_position (self : Unit.t) :
  Unit.position (Unit.arrive self).1 = Unit.position self.
Proof.
  unfold Unit.arrive. destruct (Unit.target self) as [tg|]; [|reflexivity].
  destruct (Rle_dec _ _); reflexivity.
Qed.

Lemma distanceTo_addScaledVector (p v : Vector3.t) (s : R) :
  Vector3.distanceTo (Vector3.addScaledVector p v s) p
  = Rabs s * Vector3.length v.
Proof.
  rewrite <- length_multiplyScalar. rewrite distanceTo_length. f_equal.
  unfold Vector3.sub, Vector3.addScaledVector, Vector3.multiplyScalar; simpl.
  f_equal; ring.
Qed.

(** X11: over real numbers, in one tick a unit moves by at most
    [maxSpeed * |dt|], whatever its target, neighbours and obstacles.  (In
    binary64 the speed clamp and the position update round, and the step can
    exceed the bound in the last digits.) *)
Theorem X11_update_displacement_bounded (self : Unit.t) (dt : R)
    (neighbors : list Unit.t) (obstacles : list Obstacle.t) :
  0 <= Unit.maxSpeed self →
  0 < Unit.idleDamping self <= 1 →
  Vector3.distanceTo
    (Unit.position (Unit.update self dt neighbors obstacles))
    (Unit.position self)
  <= Unit.maxSpeed self * Rabs dt.
Proof.
  intros Hmax Hdamp.
  destruct (update_velocity self dt neighbors obstacles) as (Hv & _ & Hp).
  rewrite Hp, arrive_position, distanceTo_addScaledVector.
  assert (Hspeed :
    Vector3.length (Unit.velocity (Unit.update self dt neighbors obstacles))
    <= Unit.maxSpeed self).
  { rewrite Hv. destruct (arrive_params self) as [Hms Hid].
    rewrite <- Hms.
    apply integrate_speed; [rewrite Hms|rewrite Hid]; assumption. }
  pose proof (Rabs_pos dt). nra.
Qed.

Lemma X11_update_displacement_bounded_witness :
  0 <= Unit.maxSpeed Scenario.cruiser
  ∧ 0 < Unit.idleDamping Scenario.cruiser <= 1
  ∧ Vector3.distanceTo
      (Unit.position
         (Unit.update Scenario.cruiser 0.05 [Scenario.cruiser]
            [Scenario.rockC]))
      (Unit.position Scenario.cruiser)
    <= Unit.maxSpeed Scenario.cruiser * Rabs 0.05.
Proof.
  assert (Hmax : 0 <= Unit.maxSpeed Scenario.cruiser) by (simpl; lra).
  assert (Hdamp : 0 < Unit.idleDamping Scenario.cruiser <= 1)
    by (simpl; lra).
  split; [exact Hmax|]. split; [exact Hdamp|].
  exact (X11_update_displacement_bounded Scenario.cruiser 0.05
           [Scenario.cruiser] [Scenario.rockC] Hmax Hdamp).
Defined.

(** X12: a tick never gives an idle unit a target, keeps the target of a
    unit that is still farther from it than [stopRadius], and never touches
    the unit's id, selected flag, radius or hit points. *)
Theorem X12_update_target_lifecycle (self : Unit.t) (dt : R)
    (neighbors : list Unit.t) (obstacles : list Obstacle.t) :
  let self' := Unit.update self dt neighbors obstacles in
  (Unit.target self = None → Unit.target self' = None)
  ∧ (∀ tg, Unit.target self = Some tg →
       Unit.stopRadius self < Vector3.distanceTo tg (Unit.position self) →
       Unit.target self' = Some tg)
  ∧ Unit.id self' = Unit.id self
  ∧ Unit.selected self' = Unit.selected self
  ∧ Unit.radius self' = Unit.radius self
  ∧ Unit.hp self' = Unit.hp self.
Proof.
  intros self'.
  destruct (update_velocity self dt neighbors obstacles) as (_ & Ht & _).
  fold self' in Ht.
  split; [|split].
  - intros Hnone. rewrite Ht. unfold Unit.arrive. rewrite Hnone. simpl.
    exact Hnone.
  - intros tg Htg Hfar. rewrite Ht. unfold Unit.arrive. rewrite Htg.
    rewrite distanceTo_length in Hfar.
    destruct (Rle_dec _ _) as [Hle|_]; [lra|]. simpl. exact Htg.
  - unfold self', Unit.update, Unit.arrive.
    destruct (Unit.target self) as [tg|]; [|simpl; auto].
    destruct (Rle_dec _ _); simpl; auto.
Qed.

(** X13: an idle unit at rest with no other unit inside its separation
    range is left exactly as it is by a tick, for every [dt] and every
    obstacle list. *)
Theorem X13_idle_unit_at_rest_is_stable (self : Unit.t) (dt : R)
    (neighbors : list Unit.t) (obstacles : list Obstacle.t) :
  Unit.target self = None →
  Unit.velocity self = Vector3.zero →
  Forall (λ n, Unit.id n = Unit.id self
               ∨ ¬ (0 < Vector3.distanceTo (Unit.position self)
                                           (Unit.position n)
                      < (Unit.radius self + Unit.radius n) * 1.2))
         neighbors →
  Unit.update self dt neighbors obstacles = self.
Proof.
  intros Htg Hv Hfar.
  assert (Harr : Unit.arrive self = (self, Vector3.zero))
    by (unfold Unit.arrive; rewrite Htg; reflexivity).
  unfold Unit.update. rewrite Harr.
  rewrite steering_arrived by assumption.
  rewrite separation_no_contribution by exact Hfar.
  rewrite Hv, !addScaledVector_zero_zero, integrate_zero, Htg.
  destruct self as [i p v t sel]; simpl in *. subst.
  unfold Unit.with_motion; simpl. f_equal.
  destruct p. unfold Vector3.addScaledVector; simpl. f_equal; ring.
Qed.

Lemma X13_idle_unit_at_rest_is_stable_witness :
  Unit.target Scenario.bystander = None
  ∧ Unit.velocity Scenario.bystander = Vector3.zero
  ∧ Unit.update Scenario.bystander 0.05 [Scenario.bystander]
      [Scenario.rockC] = Scenario.bystander.
Proof.
  split; [reflexivity|]. split; [reflexivity|].
  apply X13_idle_unit_at_rest_is_stable; [reflexivity|reflexivity|].
  constructor; [left; reflexivity|constructor].
Defined.

(** ** The MoveSelectedTo subscriber with a selection *)

Lemma assignStep_length (target : Vector3.t) (obs : list Obstacle.t)
    (us : list Unit.t) (io : nat * UnitManager.offset) :
  length (UnitManager.assignStep target obs us io) = length us.
Proof.
  destruct io as [i off]. unfold UnitManager.assignStep.
  destruct (us !! i); [apply length_insert|reflexivity].
Qed.

Lemma foldl_assignStep_length (target : Vector3.t) (obs : list Obstacle.t)
    (l : list (nat * UnitManager.offset)) (us : list Unit.t) :
  length (foldl (UnitManager.assignStep target obs) us l) = length us.
Proof.
  revert us. induction l as [|io l IH]; intros us; [reflexivity|].
  cbn [foldl]. rewrite IH. apply assignStep_length.
Qed.

Lemma assignStep_other (target : Vector3.t) (obs : list Obstacle.t)
    (us : list Unit.t) (i j : nat) (off : UnitManager.offset) :
  i ≠ j → UnitManager.assignStep target obs us (i, off) !! j = us !! j.
Proof.
  intros Hne. unfold UnitManager.assignStep.
  destruct (us !! i); [apply list_lookup_insert_ne; exact Hne|reflexivity].
Qed.

(** Units whose index is not in the assignment list are not touched. *)
Lemma foldl_assignStep_untouched (target : Vector3.t) (obs : list Obstacle.t)
    (l : list (nat * UnitManager.offset)) (us : list Unit.t) (j : nat) :
  j ∉ l.*1 →
  foldl (UnitManager.assignStep target obs) us l !! j = us !! j.
Proof.
  revert us. induction l as [|[i off] l IH]; intros us Hout; [reflexivity|].
  cbn [foldl]. rewrite fmap_cons in Hout.
  apply not_elem_of_cons in Hout. destruct Hout as [Hne Hout].
  rewrite IH by exact Hout. apply assignStep_other. simpl in Hne. congruence.
Qed.

(** The unit at the [k]-th index of the list gets the [k]-th offset. *)
Lemma foldl_assignStep_assigned (target : Vector3.t) (obs : list Obstacle.t)
    (l : list (nat * UnitManager.offset)) (us : list Unit.t)
    (k i : nat) (off : UnitManager.offset) (u : Unit.t) :
  NoDup l.*1 → l !! k = Some (i, off) → us !! i = Some u →
  foldl (UnitManager.assignStep target obs) us l !! i
  = Some (Unit.setTarget u
            (Some (UnitManager.projectOutsideObstacles
                     (UnitManager.candidate target off) (Unit.radius u) obs))).
Proof.
  revert us k. induction l as [|[i0 off0] l IH]; intros us k Hnd Hk Hu;
    [discriminate|].
  rewrite fmap_cons in Hnd. apply NoDup_cons in Hnd.
  destruct Hnd as [Hfresh Hnd]. cbn [foldl].
  destruct k as [|k]; simpl in Hk.
  - inversion Hk; subst i0 off0.
    rewrite foldl_assignStep_untouched by exact Hfresh.
    unfold UnitManager.assignStep. rewrite Hu.
    apply list_lookup_insert_eq. eapply lookup_lt_Some. exact Hu.
  - assert (Hne : i0 ≠ i).
    { intros ->. apply Hfresh. simpl.
      apply list_elem_of_fmap. exists (i, off). split; [reflexivity|].
      eapply list_elem_of_lookup_2. exact Hk. }
    apply (IH _ k Hnd Hk).
    rewrite assignStep_other by exact Hne. exact Hu.
Qed.

Lemma selectedIndices_spec (us : list Unit.t) (i : nat) :
  i ∈ UnitManager.selectedIndices us
  ↔ ∃ u, us !! i = Some u ∧ Unit.selected u = true.
Proof.
  unfold UnitManager.selectedIndices. rewrite list_elem_of_filter.
  split.
  - intros [Hsel _]. destruct (us !! i) as [u|]; [|discriminate].
    exists u. split; [reflexivity|]. simpl in Hsel. congruence.
  - intros (u & Hu & Hsel). split.
    + rewrite Hu. simpl. congruence.
    + apply elem_of_seq. split; [lia|]. simpl. eapply lookup_lt_Some, Hu.
Qed.

Lemma selectedIndices_NoDup (us : list Unit.t) :
  NoDup (UnitManager.selectedIndices us).
Proof. apply NoDup_filter, NoDup_seq. Qed.

(** X14: the MoveSelectedTo subscriber keeps the number of units and every
    unit's position, velocity, selected flag and id; it leaves unselected
    units exactly as they are, and gives the [k]-th selected unit (in the
    order of the unit array) the target obtained by projecting
    commanded point + [k]-th spiral offset out of the obstacles, the spiral
    having one offset per selected unit and a spacing of at least 1.2. *)
Theorem X14_move_assigns_targets_to_selection
    (um : UnitManager.t) (target : Vector3.t) :
  let um' := UnitManager.onMoveSelectedTo um target in
  let sel := UnitManager.selectedIndices (UnitManager.units um) in
  length (UnitManager.units um') = length (UnitManager.units um)
  ∧ UnitManager.obstacles um' = UnitManager.obstacles um
  ∧ ∃ spacing, 1.2 <= spacing ∧
      ∀ (i : nat) (u : Unit.t), UnitManager.units um !! i = Some u →
        ∃ u', UnitManager.units um' !! i = Some u'
          ∧ Unit.position u' = Unit.position u
          ∧ Unit.velocity u' = Unit.velocity u
          ∧ Unit.selected u' = Unit.selected u
          ∧ Unit.id u' = Unit.id u
          ∧ (Unit.selected u = false → u' = u)
          ∧ (Unit.selected u = true →
             ∃ (k : nat) (off : UnitManager.offset),
               sel !! k = Some i
               ∧ UnitManager.sunflowerOffsets (length sel) spacing !! k
                 = Some off
               ∧ Unit.target u'
                 = Some (UnitManager.projectOutsideObstacles
                           (UnitManager.candidate target off)
                           (Unit.radius u) (UnitManager.getAll um))).
Proof.
  intros um' sel.
  unfold um', UnitManager.onMoveSelectedTo. fold sel.
  destruct sel as [|i0 sel0] eqn:Hsel.
  - split; [reflexivity|]. split; [reflexivity|].
    exists 1.2. split; [lra|]. intros i u Hu. exists u.
    split; [exact Hu|]. do 4 (split; [reflexivity|]). split.
    + intros _. reflexivity.
    + intros Hs. exfalso.
      assert (Hin : i ∈ UnitManager.selectedIndices (UnitManager.units um))
        by (apply selectedIndices_spec; eauto).
      fold sel in Hin. rewrite Hsel in Hin. apply elem_of_nil in Hin.
      exact Hin.
  - rewrite <- Hsel.
    set (n := length sel).
    set (spacing := Rmax 1.2 _).
    set (offsets := UnitManager.sunflowerOffsets n spacing).
    assert (Hlen : length offsets = n).
    { unfold offsets, UnitManager.sunflowerOffsets.
      rewrite length_fmap. apply length_seq. }
    assert (Hfst : (zip sel offsets).*1 = sel)
      by (apply fst_zip; rewrite Hlen; unfold n; lia).
    cbn [UnitManager.units UnitManager.obstacles].
    split; [apply foldl_assignStep_length|]. split; [reflexivity|].
    exists spacing. split; [apply Rmax_l|]. intros i u Hu.
    destruct (Unit.selected u) eqn:Hs.
    + assert (Hin : i ∈ sel)
        by (unfold sel; apply selectedIndices_spec; eauto).
      apply list_elem_of_lookup in Hin. destruct Hin as [k Hk].
      assert (Hkn : (k < length offsets)%nat).
      { rewrite Hlen. unfold n. eapply lookup_lt_Some. exact Hk. }
      destruct (lookup_lt_is_Some_2 offsets k Hkn) as [off Hoff].
      eexists. split.
      * apply (foldl_assignStep_assigned target (UnitManager.getAll um)
                 (zip sel offsets) (UnitManager.units um) k i off u).
        -- rewrite Hfst. unfold sel. apply selectedIndices_NoDup.
        -- apply lookup_zip_Some. split; assumption.
        -- exact Hu.
      * simpl. do 2 (split; [reflexivity|]). split; [exact Hs|].
        split; [reflexivity|]. split; [discriminate|].
        intros _. exists k, off. do 2 (split; [assumption|]). reflexivity.
    + exists u. split.
      * rewrite foldl_assignStep_untouched; [exact Hu|].
        rewrite Hfst. unfold sel. rewrite selectedIndices_spec.
        intros (u0 & Hu0 & Hs0). congruence.
      * do 2 (split; [reflexivity|]). split; [exact Hs|].
        split; [reflexivity|]. split; [reflexivity|discriminate].
Qed.

Lemma match_nonempty {A B : Type} (l : list A) (a b : B) :
  l ≠ [] → match l with [] => a | _ :: _ => b end = b.
Proof. destruct l; [congruence|reflexivity]. Qed.

Lemma onMoveSelectedTo_target (um : UnitManager.t) (target : Vector3.t)
    (i : nat) (u : Unit.t) :
  UnitManager.units um !! i = Some u → Unit.selected u = true →
  let sel := UnitManager.selectedIndices (UnitManager.units um) in
  let spacing :=
    Rmax 1.2
      (2 * (foldl (λ s u, s + Unit.radius u) 0
              (UnitManager.deref (UnitManager.units um) sel)
            / INR (length sel)) + 0.4) in
  ∃ k, sel !! k = Some i
    ∧ UnitManager.units (UnitManager.onMoveSelectedTo um target) !! i
      = Some (Unit.setTarget u
                (Some (UnitManager.projectOutsideObstacles
                         (UnitManager.candidate target
                            (UnitManager.sunflowerOffset
                               (spacing / sqrt PI) k))
                         (Unit.radius u) (UnitManager.getAll um)))).
Proof.
  intros Hu Hs sel spacing.
  assert (Hin : i ∈ sel) by (unfold sel; apply selectedIndices_spec; eauto).
  apply list_elem_of_lookup in Hin. destruct Hin as [k Hk].
  exists k. split; [exact Hk|].
  unfold UnitManager.onMoveSelectedTo. fold sel.
  rewrite match_nonempty by (intros Hnil; rewrite Hnil in Hk; discriminate).
  fold spacing.
  set (offsets := UnitManager.sunflowerOffsets (length sel) spacing).
  assert (Hoff : offsets !! k
                 = Some (UnitManager.sunflowerOffset (spacing / sqrt PI) k)).
  { unfold offsets, UnitManager.sunflowerOffsets.
    rewrite list_lookup_fmap, lookup_seq_lt; [reflexivity|].
    eapply lookup_lt_Some. exact Hk. }
  assert (Hfst : (zip sel offsets).*1 = sel).
  { apply fst_zip. unfold offsets, UnitManager.sunflowerOffsets.
    rewrite length_fmap, length_seq. lia. }
  cbn [UnitManager.units].
  apply (foldl_assignStep_assigned target (UnitManager.getAll um)
           (zip sel offsets) (UnitManager.units um) k i _ u).
  - rewrite Hfst. unfold sel. apply selectedIndices_NoDup.
  - apply lookup_zip_Some. split; assumption.
  - exact Hu.
Qed.

(** X15: with no obstacle registered, two different selected units never
    receive the same target from a MoveSelectedTo command, and both targets
    keep the commanded height. *)
Theorem X15_move_targets_distinct_without_obstacles
    (um : UnitManager.t) (target : Vector3.t) (i j : nat) (u v : Unit.t) :
  UnitManager.getAll um = [] →
  i ≠ j →
  UnitManager.units um !! i = Some u → Unit.selected u = true →
  UnitManager.units um !! j = Some v → Unit.selected v = true →
  let us' := UnitManager.units (UnitManager.onMoveSelectedTo um target) in
  ∃ (u' v' : Unit.t) (tu tv : Vector3.t),
    us' !! i = Some u' ∧ us' !! j = Some v'
    ∧ Unit.target u' = Some tu ∧ Unit.target v' = Some tv
    ∧ tu ≠ tv
    ∧ Vector3.y tu = Vector3.y target ∧ Vector3.y tv = Vector3.y target.
Proof.
  intros Hobs Hij Hu Hsu Hv Hsv us'.
  destruct (onMoveSelectedTo_target um target i u Hu Hsu) as (k & Hk & Hu').
  destruct (onMoveSelectedTo_target um target j v Hv Hsv) as (k' & Hk' & Hv').
  rewrite Hobs in Hu', Hv'.
  unfold UnitManager.projectOutsideObstacles in Hu', Hv'.
  cbn [foldl] in Hu', Hv'.
  set (c := _ / sqrt PI) in *.
  assert (Hc : 0 < c).
  { unfold c. apply Rdiv_lt_0_compat; [|apply sqrt_PI_pos].
    eapply Rlt_le_trans; [|apply Rmax_l]. lra. }
  do 4 eexists. split; [exact Hu'|]. split; [exact Hv'|].
  split; [reflexivity|]. split; [reflexivity|].
  split; [|split; reflexivity].
  intros Heq.
  assert (Hr : c * sqrt (INR k + 0.5) = c * sqrt (INR k' + 0.5)).
  { rewrite <- (candidate_radius target c k) by lra.
    rewrite <- (candidate_radius target c k') by lra.
    rewrite Heq. reflexivity. }
  apply Rmult_eq_reg_l in Hr; [|lra].
  apply sqrt_inj in Hr;
    [|pose proof (pos_INR k); lra|pose proof (pos_INR k'); lra].
  assert (Hkk : k = k') by (apply INR_eq; lra).
  subst k'. rewrite Hk in Hk'. congruence.
Qed.

Lemma X15_move_targets_distinct_without_obstacles_witness :
  let um := Scenario.selectedFleet in
  let us' :=
    UnitManager.units (UnitManager.onMoveSelectedTo um (Vector3.mk 10 0 10)) in
  UnitManager.getAll um = []
  ∧ ∃ (u' v' : Unit.t) (tu tv : Vector3.t),
      us' !! 0%nat = Some u' ∧ us' !! 1%nat = Some v'
      ∧ Unit.target u' = Some tu ∧ Unit.target v' = Some tv
      ∧ tu ≠ tv.
Proof.
  intros um us'. split; [reflexivity|].
  destruct (X15_move_targets_distinct_without_obstacles um
              (Vector3.mk 10 0 10) 0 1
              (Unit.setSelected Scenario.unitA true) Scenario.unitB
              eq_refl ltac:(lia) eq_refl eq_refl eq_refl eq_refl)
    as (u' & v' & tu & tv & H0 & H1 & Htu & Htv & Hne & _).
  exists u', v', tu, tv. auto.
Defined.

(** ** The fleet tick *)

(** [updateFrom] ticks every unit from index [i] on exactly once and leaves
    the units before [i] alone. *)
Lemma updateFrom_lookup (dt : R) (obs : list Obstacle.t) (fuel : nat) :
  ∀ (i : nat) (arr : list Unit.t),
    (length arr - i <= fuel)%nat →
    length (UnitManager.updateFrom fuel i dt obs arr) = length arr
    ∧ ∀ (j : nat) (u : Unit.t), arr !! j = Some u →
        if decide (i <= j)%nat then
          ∃ ns, length ns = length arr
            ∧ UnitManager.updateFrom fuel i dt obs arr !! j
              = Some (Unit.update u dt ns obs)
        else UnitManager.updateFrom fuel i dt obs arr !! j = Some u.
Proof.
  induction fuel as [|fuel IH]; intros i arr Hfuel.
  - simpl. split; [reflexivity|]. intros j u Hj.
    pose proof (lookup_lt_Some _ _ _ Hj).
    destruct (decide (i <= j)%nat); [lia|exact Hj].
  - simpl. destruct (arr !! i) as [ui|] eqn:Hi.
    + set (arr' := <[i := Unit.update ui dt arr obs]> arr).
      assert (Hlen : length arr' = length arr) by apply length_insert.
      destruct (IH (S i) arr' ltac:(lia)) as [Hl Hrest].
      split; [congruence|]. intros j u Hj.
      destruct (decide (j = i)) as [->|Hne].
      * assert (u = ui) by congruence. subst ui.
        assert (Hj' : arr' !! i = Some (Unit.update u dt arr obs)).
        { apply list_lookup_insert_eq. eapply lookup_lt_Some. exact Hj. }
        specialize (Hrest i _ Hj').
        destruct (decide (S i <= i)%nat); [lia|].
        destruct (decide (i <= i)%nat); [|lia].
        exists arr. split; [reflexivity|exact Hrest].
      * assert (Hj' : arr' !! j = Some u).
        { unfold arr'. rewrite list_lookup_insert_ne by congruence. exact Hj. }
        specialize (Hrest j u Hj').
        destruct (decide (S i <= j)%nat), (decide (i <= j)%nat);
          try lia; [|exact Hrest].
        destruct Hrest as (ns & Hns & Hres). exists ns.
        split; [congruence|exact Hres].
    + split; [reflexivity|]. intros j u Hj.
      pose proof (lookup_lt_Some _ _ _ Hj).
      apply lookup_ge_None in Hi.
      destruct (decide (i <= j)%nat); [lia|exact Hj].
Qed.

Lemma update_speed_le (self : Unit.t) (dt : R) (neighbors : list Unit.t)
    (obstacles : list Obstacle.t) :
  0 <= Unit.maxSpeed self → 0 < Unit.idleDamping self <= 1 →
  Vector3.length (Unit.velocity (Unit.update self dt neighbors obstacles))
  <= Unit.maxSpeed self.
Proof.
  intros Hmax Hdamp.
  destruct (update_velocity self dt neighbors obstacles) as (Hv & _).
  rewrite Hv. destruct (arrive_params self) as [Hms Hid].
  rewrite <- Hms. apply integrate_speed; [rewrite Hms|rewrite Hid]; assumption.
Qed.

Lemma update_step_le (self : Unit.t) (dt : R) (neighbors : list Unit.t)
    (obstacles : list Obstacle.t) :
  0 <= Unit.maxSpeed self → 0 < Unit.idleDamping self <= 1 →
  Vector3.distanceTo
    (Unit.position (Unit.update self dt neighbors obstacles))
    (Unit.position self)
  <= Unit.maxSpeed self * Rabs dt.
Proof.
  intros Hmax Hdamp.
  destruct (update_velocity self dt neighbors obstacles) as (_ & _ & Hp).
  rewrite Hp, arrive_position, distanceTo_addScaledVector.
  pose proof (update_speed_le self dt neighbors obstacles Hmax Hdamp).
  pose proof (Rabs_pos dt). nra.
Qed.

Lemma update_identity_fields (self : Unit.t) (dt : R)
    (neighbors : list Unit.t) (obstacles : list Obstacle.t) :
  Unit.id (Unit.update self dt neighbors obstacles) = Unit.id self
  ∧ Unit.selected (Unit.update self dt neighbors obstacles)
    = Unit.selected self.
Proof.
  unfold Unit.update, Unit.arrive.
  destruct (Unit.target self) as [tg|]; [|simpl; auto].
  destruct (Rle_dec _ _); simpl; auto.
Qed.

(** X16: one update of the unit manager keeps the fleet size and ticks
    every unit exactly once, against a neighbour list as long as the fleet;
    every unit keeps its id and selected flag, and, over real numbers, a
    unit with non-negative [maxSpeed] and idle damping base in (0, 1] ends
    the update no faster than [maxSpeed] and no farther than
    [maxSpeed * |dt|] from where it was.  (In binary64 these two bounds hold
    up to rounding only.) *)
Theorem X16_fleet_update_ticks_every_unit (um : UnitManager.t) (dt : R) :
  let um' := UnitManager.update um dt in
  length (UnitManager.units um') = length (UnitManager.units um)
  ∧ UnitManager.obstacles um' = UnitManager.obstacles um
  ∧ ∀ (j : nat) (u : Unit.t), UnitManager.units um !! j = Some u →
      ∃ (ns : list Unit.t) (u' : Unit.t),
        length ns = length (UnitManager.units um)
        ∧ u' = Unit.update u dt ns (UnitManager.getAll um)
        ∧ UnitManager.units um' !! j = Some u'
        ∧ Unit.id u' = Unit.id u
        ∧ Unit.selected u' = Unit.selected u
        ∧ (0 <= Unit.maxSpeed u → 0 < Unit.idleDamping u <= 1 →
           Vector3.length (Unit.velocity u') <= Unit.maxSpeed u
           ∧ Vector3.distanceTo (Unit.position u') (Unit.position u)
             <= Unit.maxSpeed u * Rabs dt).
Proof.
  intros um'. unfold um', UnitManager.update.
  cbn [UnitManager.units UnitManager.obstacles].
  destruct (updateFrom_lookup dt (UnitManager.getAll um)
              (length (UnitManager.units um)) 0 (UnitManager.units um)
              ltac:(lia)) as [Hlen Hall].
  split; [exact Hlen|]. split; [reflexivity|].
  intros j u Hj. specialize (Hall j u Hj).
  destruct (decide (0 <= j)%nat); [|lia].
  destruct Hall as (ns & Hns & Hres).
  exists ns, (Unit.update u dt ns (UnitManager.getAll um)).
  split; [exact Hns|]. split; [reflexivity|]. split; [exact Hres|].
  destruct (update_identity_fields u dt ns (UnitManager.getAll um))
    as [Hid Hsel].
  split; [exact Hid|]. split; [exact Hsel|].
  intros Hmax Hdamp. split.
  - apply update_speed_le; assumption.
  - apply update_step_le; assumption.
Qed.

(** ** The frame loop *)

Lemma frameDelta_bounds (now last : R) :
  last <= now → 0 <= Engine.frameDelta now last <= 0.05.
Proof.
  intros Hle. unfold Engine.frameDelta. split.
  - apply Rmin_glb; lra.
  - apply Rmin_l.
Qed.

(** X17: when the clock does not run backwards, one frame of the engine
    steps the simulation by a [dt] between 0 and 0.05 seconds, however long
    the frame took, and records [now] as the time of the last frame; over
    real numbers, no unit (with non-negative [maxSpeed] and idle damping
    base in (0, 1]) then moves farther than [0.05 * maxSpeed] in a frame.
    (In binary64 that last bound holds up to rounding only.) *)
Theorem X17_engine_frame_step_bounded (now : R) (st : Engine.t) :
  Engine.last st <= now →
  0 <= Engine.frameDelta now (Engine.last st) <= 0.05
  ∧ Engine.last (Engine.update now st) = now
  ∧ ∀ (j : nat) (u : Unit.t),
      UnitManager.units (InputSystem.unitManager (Engine.world st)) !! j
      = Some u →
      0 <= Unit.maxSpeed u → 0 < Unit.idleDamping u <= 1 →
      ∃ u',
        UnitManager.units
          (InputSystem.unitManager (Engine.world (Engine.update now st))) !! j
        = Some u'
        ∧ Vector3.distanceTo (Unit.position u') (Unit.position u)
          <= 0.05 * Unit.maxSpeed u.
Proof.
  intros Hclock.
  pose proof (frameDelta_bounds now (Engine.last st) Hclock) as Hdt.
  split; [exact Hdt|]. split; [reflexivity|].
  intros j u Hj Hmax Hdamp.
  set (dt := Engine.frameDelta now (Engine.last st)) in *.
  set (um := InputSystem.unitManager (Engine.world st)) in *.
  assert (Hum :
    InputSystem.unitManager (Engine.world (Engine.update now st))
    = UnitManager.update um dt).
  { unfold Engine.update, InputSystem.update. cbn [Engine.world].
    destruct (InputSystem.cameraInteracting _); reflexivity. }
  rewrite Hum. unfold UnitManager.update. cbn [UnitManager.units].
  destruct (updateFrom_lookup dt (UnitManager.getAll um)
              (length (UnitManager.units um)) 0 (UnitManager.units um)
              ltac:(lia)) as [_ Hall].
  specialize (Hall j u Hj).
  destruct (decide (0 <= j)%nat); [|lia].
  destruct Hall as (ns & _ & Hres).
  eexists. split; [exact Hres|].
  pose proof (update_step_le u dt ns (UnitManager.getAll um) Hmax Hdamp)
    as Hstep.
  rewrite (Rabs_right dt) in Hstep by lra. nra.
Qed.

Lemma X17_engine_frame_step_bounded_witness :
  Engine.last Scenario.engine1 <= 1000
  ∧ Engine.frameDelta 1000 (Engine.last Scenario.engine1) <= 0.05
  ∧ ∃ u',
      UnitManager.units
        (InputSystem.unitManager
           (Engine.world (Engine.update 1000 Scenario.engine1))) !! 0%nat
      = Some u'
      ∧ Vector3.distanceTo (Unit.position u') (Unit.position Scenario.cruiser)
        <= 0.05 * Unit.maxSpeed Scenario.cruiser.
Proof.
  assert (Hclock : Engine.last Scenario.engine1 <= 1000) by (simpl; lra).
  destruct (X17_engine_frame_step_bounded 1000 Scenario.engine1 Hclock)
    as ([_ Hdt] & _ & Hunits).
  split; [exact Hclock|]. split; [exact Hdt|].
  apply (Hunits 0%nat Scenario.cruiser eq_refl); simpl; lra.
Defined.

(** ** The manual rotate gesture *)

Lemma spherical_distance (target : Vector3.t) (r theta phi : R) :
  0 <= r →
  Vector3.distanceTo
    (Vector3.mk (Vector3.x target + r * sin theta * sin phi)
                (Vector3.y target + r * cos phi)
                (Vector3.z target + r * cos theta * sin phi))
    target = r.
Proof.
  intros Hr. unfold Vector3.distanceTo.
  replace (Vector3.distanceToSquared _ target)
    with (r * r * ((sin phi)² * ((sin theta)² + (cos theta)²) + (cos phi)²))
    by (unfold Vector3.distanceToSquared, Rsqr; simpl; ring).
  rewrite sin2_cos2, Rmult_1_r, sin2_cos2, Rmult_1_r.
  apply sqrt_square. exact Hr.
Qed.

(** What one drag of an active rotate changes and what it keeps. *)
Lemma onPointerMove_rotate_step (s : InputSystem.t) (e : InputSystem.Event) :
  InputSystem.rotateActive (InputSystem.rotate s) = true →
  let s' := InputSystem.onPointerMove s e in
  InputSystem.rotateActive (InputSystem.rotate s') = true
  ∧ InputSystem.r (InputSystem.spherical (InputSystem.rotate s'))
    = InputSystem.r (InputSystem.spherical (InputSystem.rotate s))
  ∧ InputSystem.rotateTarget (InputSystem.rotate s')
    = InputSystem.rotateTarget (InputSystem.rotate s)
  ∧ InputSystem.controlsPrevEnabled (InputSystem.rotate s')
    = InputSystem.controlsPrevEnabled (InputSystem.rotate s)
  ∧ InputSystem.ctlEnabled (InputSystem.controls s')
    = InputSystem.ctlEnabled (InputSystem.controls s)
  ∧ InputSystem.rmb s' = InputSystem.rmb s
  ∧ InputSystem.cameraLock s' = InputSystem.cameraLock s
  ∧ InputSystem.cursor s' = InputSystem.cursor s
  ∧ InputSystem.cursorHeight s' = InputSystem.cursorHeight s
  ∧ InputSystem.selection s' = InputSystem.selection s
  ∧ InputSystem.unitManager s' = InputSystem.unitManager s
  ∧ InputSystem.commandBus s' = InputSystem.commandBus s
  ∧ InputSystem.ctlTarget (InputSystem.controls s')
    = InputSystem.rotateTarget (InputSystem.rotate s)
  ∧ (0 <= InputSystem.r (InputSystem.spherical (InputSystem.rotate s)) →
     Vector3.distanceTo (InputSystem.camPosition (InputSystem.camera s'))
       (InputSystem.rotateTarget (InputSystem.rotate s))
     = InputSystem.r (InputSystem.spherical (InputSystem.rotate s))).
Proof.
  intros Hact s'. unfold s', InputSystem.onPointerMove. rewrite Hact.
  cbn -[clamp]. do 13 (split; [reflexivity|]).
  intros Hr. apply spherical_distance. exact Hr.
Qed.

(** The same over a sequence of drags. *)
Lemma rotate_drags_frame (es : list InputSystem.Event) :
  ∀ s : InputSystem.t,
    InputSystem.rotateActive (InputSystem.rotate s) = true →
    let s' := foldl InputSystem.onPointerMove s es in
    InputSystem.rotateActive (InputSystem.rotate s') = true
    ∧ InputSystem.r (InputSystem.spherical (InputSystem.rotate s'))
      = InputSystem.r (InputSystem.spherical (InputSystem.rotate s))
    ∧ InputSystem.rotateTarget (InputSystem.rotate s')
      = InputSystem.rotateTarget (InputSystem.rotate s)
    ∧ InputSystem.controlsPrevEnabled (InputSystem.rotate s')
      = InputSystem.controlsPrevEnabled (InputSystem.rotate s)
    ∧ InputSystem.ctlEnabled (InputSystem.controls s')
      = InputSystem.ctlEnabled (InputSystem.controls s)
    ∧ InputSystem.rmb s' = InputSystem.rmb s
    ∧ InputSystem.cameraLock s' = InputSystem.cameraLock s
    ∧ InputSystem.cursor s' = InputSystem.cursor s
    ∧ InputSystem.cursorHeight s' = InputSystem.cursorHeight s
    ∧ InputSystem.selection s' = InputSystem.selection s
    ∧ InputSystem.unitManager s' = InputSystem.unitManager s
    ∧ InputSystem.commandBus s' = InputSystem.commandBus s.
Proof.
  induction es as [|e es IH]; intros s Hact.
  - simpl. repeat split; reflexivity || exact Hact.
  - cbn [foldl].
    destruct (onPointerMove_rotate_step s e Hact)
      as (H1 & H2 & H3 & H4 & H5 & H6 & H7 & H8 & H9 & H10 & H11 & H12 & _).
    destruct (IH _ H1)
      as (I1 & I2 & I3 & I4 & I5 & I6 & I7 & I8 & I9 & I10 & I11 & I12).
    cbv zeta.
    repeat split; try assumption; etransitivity; eassumption.
Qed.

Lemma rotate_gesture_start (s : InputSystem.t) (e : InputSystem.Event) :
  InputSystem.button e = 2%Z → InputSystem.ctrlKey e = true →
  let s1 := InputSystem.onPointerDownCapture s e in
  let r0 :=
    Rmax 0.001
      (Vector3.length
         (Vector3.sub (InputSystem.camPosition (InputSystem.camera s))
                      (InputSystem.ctlTarget (InputSystem.controls s)))) in
  InputSystem.rotateActive (InputSystem.rotate s1) = true
  ∧ InputSystem.r (InputSystem.spherical (InputSystem.rotate s1)) = r0
  ∧ InputSystem.rotateTarget (InputSystem.rotate s1)
    = InputSystem.ctlTarget (InputSystem.controls s)
  ∧ InputSystem.controlsPrevEnabled (InputSystem.rotate s1)
    = Some (InputSystem.ctlEnabled (InputSystem.controls s))
  ∧ InputSystem.ctlEnabled (InputSystem.controls s1) = false
  ∧ InputSystem.blockSelectionUntilPointerUp (InputSystem.rmb s1) = true
  ∧ InputSystem.cameraInteracting (InputSystem.cameraLock s1) = true
  ∧ InputSystem.cursor s1 = InputSystem.cursor s
  ∧ InputSystem.cursorHeight s1 = InputSystem.cursorHeight s
  ∧ InputSystem.selection s1 = InputSystem.selection s
  ∧ InputSystem.unitManager s1 = InputSystem.unitManager s
  ∧ InputSystem.camera s1 = InputSystem.camera s.
Proof.
  intros Hb Hc s1 r0. unfold s1, InputSystem.onPointerDownCapture.
  destruct (decide (InputSystem.button e = 2%Z ∧ InputSystem.ctrlKey e = true))
    as [_|Hn]; [|exfalso; apply Hn; auto].
  cbn -[clamp Rmax]. do 6 (split; [reflexivity|]).
  split; [|repeat split; reflexivity].
  destruct (InputSystem.cameraInteracting (InputSystem.cameraLock s)) eqn:Hci;
    [exact Hci|reflexivity].
Qed.

Lemma onMouseUp_right_idle (s : InputSystem.t) (e : InputSystem.Event) :
  InputSystem.button e = 2%Z →
  InputSystem.rmbDown (InputSystem.rmb s) = false →
  InputSystem.onMouseUp s e = s.
Proof.
  intros Hb Hdown. unfold InputSystem.onMouseUp.
  rewrite finalizeSelection_other_button by lia.
  unfold InputSystem.rmbClick. rewrite Hdown, andb_false_r. reflexivity.
Qed.

(** X19: releasing the right button ends a manual rotate started with
    Ctrl + right button, whatever was dragged in between: rotate mode is
    off, the orbit controls get back the enabled flag they had before the
    gesture, the camera lock and the selection block are released, cursor
    height and units are as before the gesture, and the mouse-up of that
    release changes nothing (no move command is issued). *)
Theorem X19_rotate_exit_restores_controls
    (s : InputSystem.t) (eDown eUp : InputSystem.Event)
    (es : list InputSystem.Event) :
  InputSystem.button eDown = 2%Z → InputSystem.ctrlKey eDown = true →
  InputSystem.button eUp = 2%Z →
  let s3 :=
    InputSystem.onPointerUp
      (foldl InputSystem.onPointerMove
         (InputSystem.onPointerDownCapture s eDown) es) eUp in
  InputSystem.rotateActive (InputSystem.rotate s3) = false
  ∧ InputSystem.ctlEnabled (InputSystem.controls s3)
    = InputSystem.ctlEnabled (InputSystem.controls s)
  ∧ InputSystem.cameraInteracting (InputSystem.cameraLock s3) = false
  ∧ InputSystem.heightLock (InputSystem.cameraLock s3) = None
  ∧ InputSystem.blockSelectionUntilPointerUp (InputSystem.rmb s3) = false
  ∧ InputSystem.cursorHeight s3 = InputSystem.cursorHeight s
  ∧ InputSystem.unitManager s3 = InputSystem.unitManager s
  ∧ InputSystem.onMouseUp s3 eUp = s3.
Proof.
  intros Hb Hc Hup s3.
  destruct (rotate_gesture_start s eDown Hb Hc)
    as (Hact & _ & _ & Hprev & _ & _ & _ & _ & Hh & _ & Hum & _).
  set (s1 := InputSystem.onPointerDownCapture s eDown) in *.
  destruct (rotate_drags_frame es s1 Hact)
    as (Hact2 & _ & _ & Hprev2 & _ & _ & _ & _ & Hh2 & _ & Hum2 & _).
  set (s2 := foldl InputSystem.onPointerMove s1 es) in *.
  assert (Hs3 : s3 =
    InputSystem.mk (InputSystem.cursor s2) (InputSystem.cursorHeight s2)
      (InputSystem.selection s2)
      (InputSystem.mkCameraLock false
         (InputSystem.cameraCursorOffset (InputSystem.cameraLock s2)) None)
      (InputSystem.mkRmb false (InputSystem.rmbStartX (InputSystem.rmb s2))
         (InputSystem.rmbStartY (InputSystem.rmb s2)) false true false)
      (InputSystem.pointer s2)
      (InputSystem.mkRotate false
         (InputSystem.rotateSpeed (InputSystem.rotate s2))
         (InputSystem.rotateTarget (InputSystem.rotate s2))
         (InputSystem.spherical (InputSystem.rotate s2)) None)
      (InputSystem.camera s2)
      (InputSystem.mkControls
         (InputSystem.ctlTarget (InputSystem.controls s2))
         (InputSystem.ctlEnabled (InputSystem.controls s)))
      (InputSystem.gizmos s2) (InputSystem.commandBus s2)
      (InputSystem.unitManager s2)).
  { unfold s3, InputSystem.onPointerUp.
    rewrite bool_decide_eq_true_2 by exact Hup.
    rewrite Hact2, Hprev2, Hprev. reflexivity. }
  split; [rewrite Hs3; reflexivity|]. split; [rewrite Hs3; reflexivity|].
  split; [rewrite Hs3; reflexivity|]. split; [rewrite Hs3; reflexivity|].
  split; [rewrite Hs3; reflexivity|].
  split; [rewrite Hs3; simpl; congruence|].
  split; [rewrite Hs3; simpl; congruence|].
  apply onMouseUp_right_idle; [exact Hup|]. rewrite Hs3. reflexivity.
Qed.

Lemma X19_rotate_exit_restores_controls_witness :
  let s3 :=
    InputSystem.onPointerUp
      (foldl InputSystem.onPointerMove
         (InputSystem.onPointerDownCapture Scenario.world0
            Scenario.ctrlRightDown) [Scenario.dragDown1000])
      Scenario.rightUp in
  InputSystem.button Scenario.ctrlRightDown = 2%Z
  ∧ InputSystem.ctrlKey Scenario.ctrlRightDown = true
  ∧ InputSystem.button Scenario.rightUp = 2%Z
  ∧ InputSystem.ctlEnabled (InputSystem.controls s3) = true.
Proof.
  intros s3. do 3 (split; [reflexivity|]).
  exact (proj1 (proj2 (X19_rotate_exit_restores_controls Scenario.world0
                         Scenario.ctrlRightDown Scenario.rightUp
                         [Scenario.dragDown1000] eq_refl eq_refl eq_refl))).
Defined.

(** X20: while a manual rotate is held (Ctrl + right button down and any
    drags), pressing the left button does not start a selection: the state
    is left as it is. *)
Theorem X20_selection_blocked_during_rotate
    (s : InputSystem.t) (eDown eLeft : InputSystem.Event)
    (es : list InputSystem.Event) :
  InputSystem.button eDown = 2%Z → InputSystem.ctrlKey eDown = true →
  InputSystem.button eLeft = 0%Z →
  let s2 :=
    foldl InputSystem.onPointerMove
      (InputSystem.onPointerDownCapture s eDown) es in
  InputSystem.onMouseDown s2 eLeft = s2
  ∧ InputSystem.isSelecting (InputSystem.selection s2)
    = InputSystem.isSelecting (InputSystem.selection s).
Proof.
  intros Hb Hc Hleft s2.
  destruct (rotate_gesture_start s eDown Hb Hc)
    as (Hact & _ & _ & _ & _ & Hblock & _ & _ & _ & Hsel & _).
  set (s1 := InputSystem.onPointerDownCapture s eDown) in *.
  destruct (rotate_drags_frame es s1 Hact)
    as (_ & _ & _ & _ & _ & Hrmb & _ & _ & _ & Hsel2 & _).
  fold s2 in Hrmb, Hsel2. split.
  - unfold InputSystem.onMouseDown.
    destruct (decide (InputSystem.button eLeft = 0%Z)) as [_|Hn];
      [|contradiction].
    rewrite Hrmb, Hblock. reflexivity.
  - rewrite Hsel2, Hsel. reflexivity.
Qed.

Lemma X20_selection_blocked_during_rotate_witness :
  let s2 :=
    foldl InputSystem.onPointerMove
      (InputSystem.onPointerDownCapture Scenario.world0
         Scenario.ctrlRightDown) [Scenario.dragDown1000] in
  InputSystem.button Scenario.ctrlRightDown = 2%Z
  ∧ InputSystem.ctrlKey Scenario.ctrlRightDown = true
  ∧ InputSystem.button Scenario.leftDown = 0%Z
  ∧ InputSystem.onMouseDown s2 Scenario.leftDown = s2.
Proof.
  intros s2. do 3 (split; [reflexivity|]).
  exact (proj1 (X20_selection_blocked_during_rotate Scenario.world0
                  Scenario.ctrlRightDown Scenario.leftDown
                  [Scenario.dragDown1000] eq_refl eq_refl eq_refl)).
Defined.

(** ** Selection by a plain click *)

Lemma distanceTo_le_0 (a b : Vector3.t) :
  Vector3.distanceTo a b <= 0 ↔ a = b.
Proof.
  split.
  - intros Hle.
    assert (Hz : Vector3.distanceTo a b = 0)
      by (pose proof (sqrt_pos (Vector3.distanceToSquared a b));
          unfold Vector3.distanceTo in *; lra).
    unfold Vector3.distanceTo in Hz. apply sqrt_eq_0 in Hz.
    + unfold Vector3.distanceToSquared in Hz.
      destruct a as [ax ay az], b as [bx by' bz]; simpl in Hz.
      pose proof (Rle_0_sqr (ax - bx)) as Hx.
      pose proof (Rle_0_sqr (ay - by')) as Hy.
      pose proof (Rle_0_sqr (az - bz)) as Hz'.
      unfold Rsqr in Hx, Hy, Hz'.
      assert (Hx0 : ax - bx = 0) by (apply Rsqr_0_uniq; unfold Rsqr; lra).
      assert (Hy0 : ay - by' = 0) by (apply Rsqr_0_uniq; unfold Rsqr; lra).
      assert (Hz0 : az - bz = 0) by (apply Rsqr_0_uniq; unfold Rsqr; lra).
      f_equal; lra.
    + clear Hle. unfold Vector3.distanceToSquared. cbv zeta.
      pose proof (Rle_0_sqr (Vector3.x a - Vector3.x b)) as Hx.
      pose proof (Rle_0_sqr (Vector3.y a - Vector3.y b)) as Hy.
      pose proof (Rle_0_sqr (Vector3.z a - Vector3.z b)) as Hz'.
      unfold Rsqr in Hx, Hy, Hz'. lra.
  - intros ->. rewrite distanceTo_self. lra.
Qed.

(** X21: a left press (alone, without Ctrl, selection not blocked) starts
    a selection of radius 0 centred on the cursor at its height, with the
    orbit controls disabled; released without a move, it selects exactly
    the units located at that point, deselects every other unit and leaves
    the orbit controls enabled. *)
Theorem X21_click_selects_only_units_at_cursor
    (s : InputSystem.t) (eDown eUp : InputSystem.Event) :
  InputSystem.blockSelectionUntilPointerUp (InputSystem.rmb s) = false →
  InputSystem.button eDown = 0%Z → InputSystem.ctrlKey eDown = false →
  Z.land (InputSystem.buttons eDown) 1 = 1%Z →
  InputSystem.button eUp = 0%Z →
  let center :=
    Vector3.mk (Vector3.x (InputSystem.cursor s)) (InputSystem.cursorHeight s)
               (Vector3.z (InputSystem.cursor s)) in
  let s1 := InputSystem.onMouseDown s eDown in
  let s2 := InputSystem.onMouseUp s1 eUp in
  InputSystem.selection s1 = InputSystem.mkSelection true center 0
  ∧ InputSystem.ctlEnabled (InputSystem.controls s1) = false
  ∧ InputSystem.ctlEnabled (InputSystem.controls s2) = true
  ∧ InputSystem.isSelecting (InputSystem.selection s2) = false
  ∧ ∀ (i : nat) (u : Unit.t),
      UnitManager.units (InputSystem.unitManager s) !! i = Some u →
      ∃ u', UnitManager.units (InputSystem.unitManager s2) !! i = Some u'
        ∧ (Unit.selected u' = true ↔ Unit.position u = center)
        ∧ u' = Unit.setSelected u (Unit.selected u').
Proof.
  intros Hblock Hb Hctrl Hbuttons Hup center s1 s2.
  assert (Hs1 : s1 =
    InputSystem.mk (InputSystem.cursor s) (InputSystem.cursorHeight s)
      (InputSystem.mkSelection true center 0) (InputSystem.cameraLock s)
      (InputSystem.rmb s) (InputSystem.pointer s) (InputSystem.rotate s)
      (InputSystem.camera s)
      (InputSystem.mkControls
         (InputSystem.ctlTarget (InputSystem.controls s)) false)
      (InputSystem.mkGizmos true center (Rmax 0.0001 0.0001))
      (InputSystem.commandBus s) (InputSystem.unitManager s)).
  { unfold s1, InputSystem.onMouseDown.
    destruct (decide (InputSystem.button eDown = 0%Z)) as [_|Hn];
      [|contradiction].
    rewrite Hblock, Hctrl. cbn [orb].
    destruct (decide (Z.land (InputSystem.buttons eDown) 1 ≠ 1%Z))
      as [Hn|_]; [contradiction|reflexivity]. }
  assert (Hs2 : s2 = InputSystem.finalizeSelection s1 eUp).
  { unfold s2, InputSystem.onMouseUp. apply rmbClick_other_button. lia. }
  assert (Hfin : InputSystem.finalizeSelection s1 eUp =
    InputSystem.mk (InputSystem.cursor s) (InputSystem.cursorHeight s)
      (InputSystem.mkSelection false center 0) (InputSystem.cameraLock s)
      (InputSystem.rmb s) (InputSystem.pointer s) (InputSystem.rotate s)
      (InputSystem.camera s)
      (InputSystem.mkControls
         (InputSystem.ctlTarget (InputSystem.controls s)) true)
      (InputSystem.mkGizmos false center (Rmax 0.0001 0.0001))
      (InputSystem.commandBus s)
      (UnitManager.mk
         (InputSystem.applySelection center 0
            (UnitManager.units (InputSystem.unitManager s)))
         (UnitManager.obstacles (InputSystem.unitManager s)))).
  { rewrite Hs1. unfold InputSystem.finalizeSelection.
    cbn [InputSystem.isSelecting InputSystem.selection].
    rewrite bool_decide_eq_true_2 by exact Hup. reflexivity. }
  rewrite Hs2, Hfin, Hs1.
  do 4 (split; [reflexivity|]).
  intros i u Hi. cbn [InputSystem.unitManager UnitManager.units].
  unfold InputSystem.applySelection. eexists. split.
  - apply list_lookup_fmap_Some_2. exact Hi.
  - simpl. split; [|reflexivity].
    rewrite <- distanceTo_le_0.
    destruct (Rle_dec _ _); split; intros; try done.
Qed.

Lemma X21_click_selects_only_units_at_cursor_witness :
  let s2 :=
    InputSystem.onMouseUp
      (InputSystem.onMouseDown Scenario.world0 Scenario.leftDown)
      Scenario.leftUp in
  InputSystem.blockSelectionUntilPointerUp (InputSystem.rmb Scenario.world0)
    = false
  ∧ Z.land (InputSystem.buttons Scenario.leftDown) 1 = 1%Z
  ∧ InputSystem.isSelecting (InputSystem.selection s2) = false
  ∧ InputSystem.ctlEnabled (InputSystem.controls s2) = true.
Proof.
  intros s2. do 2 (split; [reflexivity|]).
  destruct (X21_click_selects_only_units_at_cursor Scenario.world0
              Scenario.leftDown Scenario.leftUp
              eq_refl eq_refl eq_refl eq_refl eq_refl)
    as (_ & _ & Hen & Hsel & _).
  split; [exact Hsel|exact Hen].
Defined.

(** ** Mouse moves: click versus drag, cursor, selection radius *)

(** What [onMouseMove] keeps, whatever branch it takes. *)
Lemma onMouseMove_frame (unproject : InputSystem.Camera → Vector3.t → Vector3.t)
    (rect : MathSys.Rect) (s : InputSystem.t) (e : InputSystem.Event) :
  let s' := InputSystem.onMouseMove unproject rect s e in
  InputSystem.unitManager s' = InputSystem.unitManager s
  ∧ InputSystem.commandBus s' = InputSystem.commandBus s
  ∧ InputSystem.cursorHeight s' = InputSystem.cursorHeight s
  ∧ InputSystem.pointerLocked (InputSystem.pointer s')
    = InputSystem.pointerLocked (InputSystem.pointer s)
  ∧ InputSystem.rmb s' = InputSystem.trackDrag s e
  ∧ InputSystem.cameraLock s' = InputSystem.cameraLock s
  ∧ InputSystem.isSelecting (InputSystem.selection s')
    = InputSystem.isSelecting (InputSystem.selection s)
  ∧ InputSystem.selectCenter (InputSystem.selection s')
    = InputSystem.selectCenter (InputSystem.selection s).
Proof.
  unfold InputSystem.onMouseMove.
  destruct (InputSystem.cameraInteracting (InputSystem.cameraLock s));
    [cbn; repeat split; reflexivity|].
  destruct (InputSystem.pointerLocked (InputSystem.pointer s)) eqn:Hlock;
    cbn -[MathSys.raycastGroundPlane];
    destruct (InputSystem.isSelecting (InputSystem.selection s)) eqn:Hsel;
    cbn -[MathSys.raycastGroundPlane]; rewrite ?Hlock, ?Hsel;
    repeat split; reflexivity.
Qed.

(** The drag flag after a move of an unlocked pointer with the right button
    held. *)
Lemma trackDrag_unlocked (s : InputSystem.t) (e : InputSystem.Event) :
  InputSystem.pointerLocked (InputSystem.pointer s) = false →
  InputSystem.rmbDown (InputSystem.rmb s) = true →
  let far :=
    InputSystem.dragThreshold * InputSystem.dragThreshold
    <= (InputSystem.clientX e - InputSystem.rmbStartX (InputSystem.rmb s))
       * (InputSystem.clientX e - InputSystem.rmbStartX (InputSystem.rmb s))
       + (InputSystem.clientY e - InputSystem.rmbStartY (InputSystem.rmb s))
         * (InputSystem.clientY e - InputSystem.rmbStartY (InputSystem.rmb s)) in
  let rmb' := InputSystem.trackDrag s e in
  InputSystem.rmbDown rmb' = true
  ∧ InputSystem.rmbStartX rmb' = InputSystem.rmbStartX (InputSystem.rmb s)
  ∧ InputSystem.rmbStartY rmb' = InputSystem.rmbStartY (InputSystem.rmb s)
  ∧ InputSystem.suppressRmbClick rmb'
    = InputSystem.suppressRmbClick (InputSystem.rmb s)
  ∧ (InputSystem.rmbDragged rmb' = true
     ↔ InputSystem.rmbDragged (InputSystem.rmb s) = true ∨ far).
Proof.
  intros Hlock Hdown far rmb'. unfold rmb', InputSystem.trackDrag.
  destruct (InputSystem.rmbDragged (InputSystem.rmb s)) eqn:Hdr.
  - rewrite Hdown. simpl. rewrite Hdown, Hdr. repeat split; auto.
  - rewrite Hdown, Hlock. simpl.
    destruct (Rge_dec _ _) as [Hge|Hlt]; simpl.
    + repeat split; auto.
      intros _. right. unfold far. lra.
    + rewrite Hdown, Hdr. do 4 (split; [reflexivity|]). split.
      * discriminate.
      * intros [Habs|Hfar]; [discriminate|]. unfold far in Hfar. lra.
Qed.

(** The drag bookkeeping over a sequence of moves. *)
Lemma mouse_moves_drag (unproject : InputSystem.Camera → Vector3.t → Vector3.t)
    (rect : MathSys.Rect) (es : list InputSystem.Event) :
  ∀ s : InputSystem.t,
    InputSystem.pointerLocked (InputSystem.pointer s) = false →
    InputSystem.rmbDown (InputSystem.rmb s) = true →
    let x0 := InputSystem.rmbStartX (InputSystem.rmb s) in
    let y0 := InputSystem.rmbStartY (InputSystem.rmb s) in
    let far (e : InputSystem.Event) :=
      InputSystem.dragThreshold * InputSystem.dragThreshold
      <= (InputSystem.clientX e - x0) * (InputSystem.clientX e - x0)
         + (InputSystem.clientY e - y0) * (InputSystem.clientY e - y0) in
    let s' := foldl (InputSystem.onMouseMove unproject rect) s es in
    InputSystem.unitManager s' = InputSystem.unitManager s
    ∧ InputSystem.commandBus s' = InputSystem.commandBus s
    ∧ InputSystem.cursorHeight s' = InputSystem.cursorHeight s
    ∧ InputSystem.rmbDown (InputSystem.rmb s') = true
    ∧ InputSystem.suppressRmbClick (InputSystem.rmb s')
      = InputSystem.suppressRmbClick (InputSystem.rmb s)
    ∧ InputSystem.isSelecting (InputSystem.selection s')
      = InputSystem.isSelecting (InputSystem.selection s)
    ∧ (InputSystem.rmbDragged (InputSystem.rmb s') = true
       ↔ InputSystem.rmbDragged (InputSystem.rmb s) = true ∨ Exists far es).
Proof.
  induction es as [|e es IH]; intros s Hlock Hdown x0 y0 far s'.
  - unfold s'. simpl. repeat split; auto.
    intros [H|H]; [exact H|]. apply Exists_nil in H. contradiction.
  - unfold s'. cbn [foldl].
    destruct (onMouseMove_frame unproject rect s e)
      as (Hum & Hbus & Hh & Hpl & Hrmb & _ & Hsel & _).
    destruct (trackDrag_unlocked s e Hlock Hdown)
      as (Hd1 & Hx1 & Hy1 & Hs1 & Hdr1).
    rewrite <- Hrmb in Hd1, Hx1, Hy1, Hs1, Hdr1.
    set (s1 := InputSystem.onMouseMove unproject rect s e) in *.
    assert (Hlock1 : InputSystem.pointerLocked (InputSystem.pointer s1) = false)
      by congruence.
    destruct (IH s1 Hlock1 Hd1) as (I1 & I2 & I3 & I4 & I5 & I6 & I7).
    rewrite Hx1, Hy1 in I7. fold x0 y0 in I7, Hdr1.
    split; [congruence|]. split; [congruence|]. split; [congruence|].
    split; [exact I4|]. split; [congruence|]. split; [congruence|].
    rewrite I7, Hdr1, Exists_cons. fold (far e). tauto.
Qed.

Lemma emit_single_listener (bus : CommandBus.t) (ref : nat)
    (target : Vector3.t) (um : UnitManager.t) :
  CommandBus.listeners bus !! MOVE_SELECTED_TO
  = Some [UnitManager.MoveClosure ref] →
  CommandBus.emit UnitManager.call bus MOVE_SELECTED_TO
    (UnitManager.mkPayload target) um
  = UnitManager.onMoveSelectedTo um target.
Proof. intros Hl. unfold CommandBus.emit. rewrite Hl. reflexivity. Qed.

Lemma right_press (s : InputSystem.t) (e : InputSystem.Event) :
  InputSystem.button e = 2%Z →
  let s1 := InputSystem.onMouseDown s e in
  InputSystem.rmb s1
  = InputSystem.mkRmb true (InputSystem.clientX e) (InputSystem.clientY e)
      false (InputSystem.suppressRmbClick (InputSystem.rmb s))
      (InputSystem.blockSelectionUntilPointerUp (InputSystem.rmb s))
  ∧ InputSystem.unitManager s1 = InputSystem.unitManager s
  ∧ InputSystem.commandBus s1 = InputSystem.commandBus s
  ∧ InputSystem.pointer s1 = InputSystem.pointer s
  ∧ InputSystem.cursorHeight s1 = InputSystem.cursorHeight s.
Proof.
  intros Hb s1. unfold s1, InputSystem.onMouseDown.
  destruct (decide (InputSystem.button e = 0%Z)) as [H0|_]; [lia|].
  destruct (decide (InputSystem.button e = 2%Z)) as [_|Hn]; [|contradiction].
  repeat split; reflexivity.
Qed.

(** X22: a right click (press, moves that all stay closer than 5 pixels to
    the press point, release without Ctrl) with an unlocked pointer and the
    unit manager's closure as only subscriber hands the unit manager to the
    MoveSelectedTo subscriber, with the cursor position of the moment of
    release at the cursor height as commanded point. *)
Theorem X22_right_click_dispatches_move
    (unproject : InputSystem.Camera → Vector3.t → Vector3.t)
    (rect : MathSys.Rect) (s : InputSystem.t) (ref : nat)
    (eDown eUp : InputSystem.Event) (es : list InputSystem.Event) :
  CommandBus.listeners (InputSystem.commandBus s) !! MOVE_SELECTED_TO
  = Some [UnitManager.MoveClosure ref] →
  InputSystem.pointerLocked (InputSystem.pointer s) = false →
  InputSystem.suppressRmbClick (InputSystem.rmb s) = false →
  InputSystem.button eDown = 2%Z →
  InputSystem.button eUp = 2%Z → InputSystem.ctrlKey eUp = false →
  Forall (λ e,
            (InputSystem.clientX e - InputSystem.clientX eDown)
            * (InputSystem.clientX e - InputSystem.clientX eDown)
            + (InputSystem.clientY e - InputSystem.clientY eDown)
              * (InputSystem.clientY e - InputSystem.clientY eDown)
            < 5 * 5) es →
  let s2 :=
    foldl (InputSystem.onMouseMove unproject rect)
      (InputSystem.onMouseDown s eDown) es in
  InputSystem.unitManager (InputSystem.onMouseUp s2 eUp)
  = UnitManager.onMoveSelectedTo (InputSystem.unitManager s)
      (Vector3.mk (Vector3.x (InputSystem.cursor s2))
                  (InputSystem.cursorHeight s)
                  (Vector3.z (InputSystem.cursor s2))).
Proof.
  intros Hbus Hlock Hsup Hb Hup Hctrl Hnear s2.
  destruct (right_press s eDown Hb) as (Hrmb & Hum & Hcb & Hptr & Hh).
  set (s1 := InputSystem.onMouseDown s eDown) in *.
  assert (Hlock1 : InputSystem.pointerLocked (InputSystem.pointer s1) = false)
    by (rewrite Hptr; exact Hlock).
  assert (Hdown1 : InputSystem.rmbDown (InputSystem.rmb s1) = true)
    by (rewrite Hrmb; reflexivity).
  destruct (mouse_moves_drag unproject rect es s1 Hlock1 Hdown1)
    as (I1 & I2 & I3 & I4 & I5 & _ & I7).
  fold s2 in I1, I2, I3, I4, I5, I7.
  rewrite Hrmb in I5, I7. cbn in I5, I7.
  assert (Hnodrag : InputSystem.rmbDragged (InputSystem.rmb s2) = false).
  { destruct (InputSystem.rmbDragged (InputSystem.rmb s2)); [|reflexivity].
    destruct (proj1 I7 eq_refl) as [Habs|Hex]; [discriminate|].
    exfalso. rewrite Exists_exists in Hex. rewrite Forall_forall in Hnear.
    destruct Hex as (e & He & Hfar). specialize (Hnear e He).
    unfold InputSystem.dragThreshold in Hfar. lra. }
  unfold InputSystem.onMouseUp.
  rewrite finalizeSelection_other_button by lia.
  unfold InputSystem.rmbClick.
  rewrite bool_decide_eq_true_2 by exact Hup.
  rewrite I4, Hnodrag, Hctrl, I5, Hsup.
  cbn [andb negb InputSystem.unitManager].
  rewrite I1, I2, I3, Hum, Hcb, Hh.
  apply (emit_single_listener _ ref). exact Hbus.
Qed.

(** X23: once a move of the unlocked pointer is 5 pixels or more away from
    the point where the right button went down, the gesture is a drag:
    whatever moves follow, the release issues no command and the unit
    manager is what it was. *)
Theorem X23_right_drag_issues_no_move
    (unproject : InputSystem.Camera → Vector3.t → Vector3.t)
    (rect : MathSys.Rect) (s : InputSystem.t)
    (eDown eUp : InputSystem.Event) (es : list InputSystem.Event) :
  InputSystem.pointerLocked (InputSystem.pointer s) = false →
  InputSystem.button eDown = 2%Z → InputSystem.button eUp = 2%Z →
  Exists (λ e,
            5 * 5
            <= (InputSystem.clientX e - InputSystem.clientX eDown)
               * (InputSystem.clientX e - InputSystem.clientX eDown)
               + (InputSystem.clientY e - InputSystem.clientY eDown)
                 * (InputSystem.clientY e - InputSystem.clientY eDown)) es →
  let s2 :=
    foldl (InputSystem.onMouseMove unproject rect)
      (InputSystem.onMouseDown s eDown) es in
  InputSystem.rmbDragged (InputSystem.rmb s2) = true
  ∧ InputSystem.unitManager (InputSystem.onMouseUp s2 eUp)
    = InputSystem.unitManager s.
Proof.
  intros Hlock Hb Hup Hfar s2.
  destruct (right_press s eDown Hb) as (Hrmb & Hum & Hcb & Hptr & Hh).
  set (s1 := InputSystem.onMouseDown s eDown) in *.
  assert (Hlock1 : InputSystem.pointerLocked (InputSystem.pointer s1) = false)
    by (rewrite Hptr; exact Hlock).
  assert (Hdown1 : InputSystem.rmbDown (InputSystem.rmb s1) = true)
    by (rewrite Hrmb; reflexivity).
  destruct (mouse_moves_drag unproject rect es s1 Hlock1 Hdown1)
    as (I1 & _ & _ & I4 & _ & _ & I7).
  fold s2 in I1, I4, I7. rewrite Hrmb in I7. cbn in I7.
  assert (Hdrag : InputSystem.rmbDragged (InputSystem.rmb s2) = true).
  { apply I7. right. unfold InputSystem.dragThreshold. exact Hfar. }
  split; [exact Hdrag|].
  unfold InputSystem.onMouseUp.
  rewrite finalizeSelection_other_button by lia.
  unfold InputSystem.rmbClick.
  rewrite bool_decide_eq_true_2 by exact Hup.
  rewrite I4, Hdrag. cbn [andb negb InputSystem.unitManager]. congruence.
Qed.

Lemma new_single_listener (camera : InputSystem.Camera)
    (controls : InputSystem.Controls) (gizmos : InputSystem.Gizmos)
    (um : UnitManager.t) (ref : nat) :
  CommandBus.listeners
    (InputSystem.commandBus
       (InputSystem.new camera controls gizmos CommandBus.new um ref))
  !! MOVE_SELECTED_TO
  = Some [UnitManager.MoveClosure ref].
Proof.
  unfold InputSystem.new, UnitManager.connectTo.
  cbn [InputSystem.commandBus].
  rewrite on_listeners, lookup_insert_eq. reflexivity.
Qed.

Lemma X22_right_click_dispatches_move_witness :
  let unproject := λ (_ : InputSystem.Camera) (v : Vector3.t), v in
  let rect := MathSys.mkRect 0 0 800 600 in
  let nudge := InputSystem.mkEvent 2 2 false 3 0 0 0 in
  let s2 :=
    foldl (InputSystem.onMouseMove unproject rect)
      (InputSystem.onMouseDown Scenario.world0 Scenario.rightDown) [nudge] in
  CommandBus.listeners (InputSystem.commandBus Scenario.world0)
    !! MOVE_SELECTED_TO = Some [UnitManager.MoveClosure 0]
  ∧ InputSystem.unitManager (InputSystem.onMouseUp s2 Scenario.rightUp)
    = UnitManager.onMoveSelectedTo (InputSystem.unitManager Scenario.world0)
        (Vector3.mk (Vector3.x (InputSystem.cursor s2))
                    (InputSystem.cursorHeight Scenario.world0)
                    (Vector3.z (InputSystem.cursor s2))).
Proof.
  intros unproject rect nudge s2.
  assert (Hbus :
    CommandBus.listeners (InputSystem.commandBus Scenario.world0)
      !! MOVE_SELECTED_TO = Some [UnitManager.MoveClosure 0])
    by apply new_single_listener.
  split; [exact Hbus|].
  apply (X22_right_click_dispatches_move unproject rect Scenario.world0 0
           Scenario.rightDown Scenario.rightUp [nudge] Hbus);
    try reflexivity.
  constructor; [simpl; lra|constructor].
Defined.

Lemma X23_right_drag_issues_no_move_witness :
  let unproject := λ (_ : InputSystem.Camera) (v : Vector3.t), v in
  let rect := MathSys.mkRect 0 0 800 600 in
  let s2 :=
    foldl (InputSystem.onMouseMove unproject rect)
      (InputSystem.onMouseDown Scenario.world0 Scenario.rightDown)
      [Scenario.dragDown1000] in
  InputSystem.pointerLocked (InputSystem.pointer Scenario.world0) = false
  ∧ InputSystem.unitManager (InputSystem.onMouseUp s2 Scenario.rightUp)
    = InputSystem.unitManager Scenario.world0.
Proof.
  intros unproject rect s2. split; [reflexivity|].
  refine (proj2 (X23_right_drag_issues_no_move unproject rect Scenario.world0
                   Scenario.rightDown Scenario.rightUp
                   [Scenario.dragDown1000] eq_refl eq_refl eq_refl _)).
  constructor. simpl. lra.
Defined.

(** The selection after a move while selecting, the camera not interacting:
    the centre is kept and the radius is measured from the cursor. *)
Lemma onMouseMove_selecting
    (unproject : InputSystem.Camera → Vector3.t → Vector3.t)
    (rect : MathSys.Rect) (s : InputSystem.t) (e : InputSystem.Event) :
  InputSystem.cameraInteracting (InputSystem.cameraLock s) = false →
  InputSystem.isSelecting (InputSystem.selection s) = true →
  let s' := InputSystem.onMouseMove unproject rect s e in
  InputSystem.selection s'
  = InputSystem.mkSelection true
      (InputSystem.selectCenter (InputSystem.selection s))
      (Vector3.distanceTo
         (Vector3.mk (Vector3.x (InputSystem.cursor s'))
                     (InputSystem.cursorHeight s)
                     (Vector3.z (InputSystem.cursor s')))
         (InputSystem.selectCenter (InputSystem.selection s))).
Proof.
  intros Hcam Hsel. unfold InputSystem.onMouseMove. rewrite Hcam.
  destruct (InputSystem.pointerLocked (InputSystem.pointer s));
    cbn -[MathSys.raycastGroundPlane Vector3.distanceTo];
    rewrite Hsel; cbn -[MathSys.raycastGroundPlane Vector3.distanceTo];
    reflexivity.
Qed.

(** X24: a selection drag (left press, then mouse moves ending with at
    least one, the camera not interacting, then release) keeps the centre
    frozen at the cursor of the press; on release a unit is selected exactly
    when it is no farther from that centre than the cursor (taken at cursor
    height) was at the last move, so a unit sitting at the cursor is
    selected. *)
Theorem X24_selection_drag_selects_up_to_cursor
    (unproject : InputSystem.Camera → Vector3.t → Vector3.t)
    (rect : MathSys.Rect) (s : InputSystem.t)
    (eDown eMove eUp : InputSystem.Event) (es : list InputSystem.Event) :
  InputSystem.cameraInteracting (InputSystem.cameraLock s) = false →
  InputSystem.blockSelectionUntilPointerUp (InputSystem.rmb s) = false →
  InputSystem.button eDown = 0%Z → InputSystem.ctrlKey eDown = false →
  Z.land (InputSystem.buttons eDown) 1 = 1%Z →
  InputSystem.button eUp = 0%Z →
  let center :=
    Vector3.mk (Vector3.x (InputSystem.cursor s)) (InputSystem.cursorHeight s)
               (Vector3.z (InputSystem.cursor s)) in
  let s2 :=
    foldl (InputSystem.onMouseMove unproject rect)
      (InputSystem.onMouseDown s eDown) (es ++ [eMove]) in
  let cur :=
    Vector3.mk (Vector3.x (InputSystem.cursor s2)) (InputSystem.cursorHeight s)
               (Vector3.z (InputSystem.cursor s2)) in
  InputSystem.selection s2
  = InputSystem.mkSelection true center (Vector3.distanceTo cur center)
  ∧ ∀ (i : nat) (u : Unit.t),
      UnitManager.units (InputSystem.unitManager s) !! i = Some u →
      ∃ u',
        UnitManager.units
          (InputSystem.unitManager (InputSystem.onMouseUp s2 eUp)) !! i
        = Some u'
        ∧ (Unit.selected u' = true
           ↔ Vector3.distanceTo (Unit.position u) center
             <= Vector3.distanceTo cur center)
        ∧ (Unit.position u = cur → Unit.selected u' = true).
Proof.
  intros Hcam Hblock Hb Hctrl Hbuttons Hup center s2 cur.
  set (s1 := InputSystem.onMouseDown s eDown).
  assert (Hs1 : InputSystem.selection s1 = InputSystem.mkSelection true center 0
                ∧ InputSystem.cameraLock s1 = InputSystem.cameraLock s
                ∧ InputSystem.cursorHeight s1 = InputSystem.cursorHeight s
                ∧ InputSystem.unitManager s1 = InputSystem.unitManager s).
  { unfold s1, InputSystem.onMouseDown.
    destruct (decide (InputSystem.button eDown = 0%Z)) as [_|Hn];
      [|contradiction].
    rewrite Hblock, Hctrl. cbn [orb].
    destruct (decide (Z.land (InputSystem.buttons eDown) 1 ≠ 1%Z))
      as [Hn|_]; [contradiction|]. repeat split; reflexivity. }
  destruct Hs1 as (Hsel1 & Hlock1 & Hh1 & Hum1).
  assert (Hfold : ∀ (l : list InputSystem.Event) (t : InputSystem.t),
    InputSystem.cameraLock t = InputSystem.cameraLock s →
    InputSystem.isSelecting (InputSystem.selection t) = true →
    let t' := foldl (InputSystem.onMouseMove unproject rect) t l in
    InputSystem.cameraLock t' = InputSystem.cameraLock s
    ∧ InputSystem.isSelecting (InputSystem.selection t') = true
    ∧ InputSystem.selectCenter (InputSystem.selection t')
      = InputSystem.selectCenter (InputSystem.selection t)
    ∧ InputSystem.cursorHeight t' = InputSystem.cursorHeight t
    ∧ InputSystem.unitManager t' = InputSystem.unitManager t).
  { induction l as [|e l IH]; intros t Hl Hs; [simpl; auto|].
    cbn [foldl].
    destruct (onMouseMove_frame unproject rect t e)
      as (F1 & _ & F3 & _ & _ & F6 & F7 & F8).
    destruct (IH (InputSystem.onMouseMove unproject rect t e))
      as (I1 & I2 & I3 & I4 & I5); [congruence|congruence|].
    cbv zeta. repeat split; congruence. }
  destruct (Hfold es s1 Hlock1 ltac:(rewrite Hsel1; reflexivity))
    as (G1 & G2 & G3 & G4 & G5).
  set (s1' := foldl (InputSystem.onMouseMove unproject rect) s1 es) in *.
  assert (Hs2 : s2 = InputSystem.onMouseMove unproject rect s1' eMove)
    by (unfold s2; rewrite foldl_app; reflexivity).
  assert (Hcam1' : InputSystem.cameraInteracting (InputSystem.cameraLock s1')
                   = false) by (rewrite G1; exact Hcam).
  pose proof (onMouseMove_selecting unproject rect s1' eMove Hcam1' G2)
    as Hsel2.
  destruct (onMouseMove_frame unproject rect s1' eMove)
    as (F1 & _ & _ & _ & _ & _ & _ & _).
  rewrite <- Hs2 in Hsel2, F1.
  rewrite G3, Hsel1, G4, Hh1 in Hsel2. cbn in Hsel2. fold cur in Hsel2.
  split; [exact Hsel2|].
  intros i u Hi.
  assert (Hup2 : InputSystem.onMouseUp s2 eUp = InputSystem.finalizeSelection s2 eUp).
  { unfold InputSystem.onMouseUp. apply rmbClick_other_button. lia. }
  rewrite Hup2. unfold InputSystem.finalizeSelection.
  rewrite Hsel2. cbn [InputSystem.isSelecting InputSystem.selection
                      InputSystem.selectCenter InputSystem.selectRadius].
  rewrite bool_decide_eq_true_2 by exact Hup.
  cbn [andb InputSystem.unitManager UnitManager.units].
  rewrite F1, G5, Hum1. unfold InputSystem.applySelection.
  eexists. split; [apply list_lookup_fmap_Some_2; exact Hi|].
  simpl.
  assert (Hiff : (if Rle_dec (Vector3.distanceTo (Unit.position u) center)
                       (Vector3.distanceTo cur center)
                  then true else false) = true
                 ↔ Vector3.distanceTo (Unit.position u) center
                   <= Vector3.distanceTo cur center).
  { destruct (Rle_dec _ _); split; intros; try done. }
  split; [exact Hiff|].
  intros Hpos. apply Hiff. rewrite Hpos. lra.
Qed.

Lemma X24_selection_drag_selects_up_to_cursor_witness :
  let unproject := λ (_ : InputSystem.Camera) (v : Vector3.t), v in
  let rect := MathSys.mkRect 0 0 800 600 in
  let s := Scenario.world0 in
  let center :=
    Vector3.mk (Vector3.x (InputSystem.cursor s)) (InputSystem.cursorHeight s)
               (Vector3.z (InputSystem.cursor s)) in
  let s2 :=
    foldl (InputSystem.onMouseMove unproject rect)
      (InputSystem.onMouseDown s Scenario.leftDown) ([] ++ [Scenario.leftDown]) in
  let cur :=
    Vector3.mk (Vector3.x (InputSystem.cursor s2)) (InputSystem.cursorHeight s)
               (Vector3.z (InputSystem.cursor s2)) in
  InputSystem.cameraInteracting (InputSystem.cameraLock s) = false
  ∧ Z.land (InputSystem.buttons Scenario.leftDown) 1 = 1%Z
  ∧ InputSystem.selection s2
    = InputSystem.mkSelection true center (Vector3.distanceTo cur center).
Proof.
  intros unproject rect s center s2 cur.
  split; [reflexivity|]. split; [reflexivity|].
  exact (proj1 (X24_selection_drag_selects_up_to_cursor unproject rect s
                  Scenario.leftDown Scenario.leftDown Scenario.leftUp []
                  eq_refl eq_refl eq_refl eq_refl eq_refl eq_refl)).
Defined.

Lemma onWheel_add (s : InputSystem.t) (a b : R) :
  InputSystem.onWheel (InputSystem.onWheel s a) b
  = InputSystem.onWheel s (a + b).
Proof.
  destruct s as [cur ch sel [ci off hl] rmb ptr rot [[cx cy cz] cd]
                 [[tx ty tz] te] g bus um].
  unfold InputSystem.onWheel, InputSystem.elevSensitivity, Vector3.setY.
  destruct hl as [h|]; cbn;
    repeat first [lra | progress f_equal].
Qed.

Lemma onWheel_zero (s : InputSystem.t) : InputSystem.onWheel s 0 = s.
Proof.
  destruct s as [cur ch sel [ci off hl] rmb ptr rot [[cx cy cz] cd]
                 [[tx ty tz] te] g bus um].
  unfold InputSystem.onWheel, InputSystem.elevSensitivity, Vector3.setY.
  destruct hl as [h|]; cbn;
    repeat first [lra | progress f_equal].
Qed.

(** X25: the wheel moves the cursor height, the camera and the orbit target
    in lockstep: the height of the camera and of the orbit target above the
    cursor plane and the offset of the camera from the orbit target are
    unchanged; two wheel events add up, and the opposite wheel event undoes
    one. *)
Theorem X25_wheel_lockstep_and_round_trip (s : InputSystem.t) (a b : R) :
  let s' := InputSystem.onWheel s a in
  Vector3.y (InputSystem.camPosition (InputSystem.camera s'))
    - InputSystem.cursorHeight s'
  = Vector3.y (InputSystem.camPosition (InputSystem.camera s))
    - InputSystem.cursorHeight s
  ∧ Vector3.y (InputSystem.ctlTarget (InputSystem.controls s'))
      - InputSystem.cursorHeight s'
    = Vector3.y (InputSystem.ctlTarget (InputSystem.controls s))
      - InputSystem.cursorHeight s
  ∧ Vector3.sub (InputSystem.camPosition (InputSystem.camera s'))
                (InputSystem.ctlTarget (InputSystem.controls s'))
    = Vector3.sub (InputSystem.camPosition (InputSystem.camera s))
                  (InputSystem.ctlTarget (InputSystem.controls s))
  ∧ InputSystem.onWheel s' b = InputSystem.onWheel s (a + b)
  ∧ InputSystem.onWheel s' (- a) = s.
Proof.
  intros s'. split; [|split; [|split; [|split]]].
  - unfold s', InputSystem.onWheel. simpl. lra.
  - unfold s', InputSystem.onWheel. simpl. lra.
  - unfold s', InputSystem.onWheel, Vector3.sub. simpl. f_equal. lra.
  - apply onWheel_add.
  - unfold s'. rewrite onWheel_add.
    replace (a + - a) with 0 by lra. apply onWheel_zero.
Qed.

(** X26: after a Ctrl+right press taken while the camera was not
    interacting, a wheel event followed by the frame update puts the cursor
    at camera + (cursor - camera) on the ground plane, which over real
    numbers is the ground point it was over (in binary64 the two can differ
    in the last digits); the cursor height has moved by the wheel step, the
    height lock equals the cursor height, and a second frame update changes
    nothing. *)
Theorem X26_locked_cursor_follows_wheel
    (s : InputSystem.t) (e : InputSystem.Event) (deltaY : R) :
  InputSystem.button e = 2%Z → InputSystem.ctrlKey e = true →
  InputSystem.cameraInteracting (InputSystem.cameraLock s) = false →
  let s3 :=
    InputSystem.update
      (InputSystem.onWheel (InputSystem.onPointerDownCapture s e) deltaY) in
  InputSystem.cursor s3
  = Vector3.mk (Vector3.x (InputSystem.cursor s)) 0
               (Vector3.z (InputSystem.cursor s))
  ∧ InputSystem.cursorHeight s3
    = InputSystem.cursorHeight s - deltaY * InputSystem.elevSensitivity
  ∧ InputSystem.heightLock (InputSystem.cameraLock s3)
    = Some (InputSystem.cursorHeight s3)
  ∧ InputSystem.update s3 = s3.
Proof.
  intros Hb Hctrl Hcam s3.
  assert (Hs3 : s3 =
    let s1 := InputSystem.onPointerDownCapture s e in
    let s2 := InputSystem.onWheel s1 deltaY in
    {| InputSystem.cursor :=
         Vector3.mk (Vector3.x (InputSystem.cursor s)) 0
                    (Vector3.z (InputSystem.cursor s));
       InputSystem.cursorHeight :=
         InputSystem.cursorHeight s - deltaY * InputSystem.elevSensitivity;
       InputSystem.selection := InputSystem.selection s2;
       InputSystem.cameraLock :=
         InputSystem.mkCameraLock true
           (Vector3.sub
              (Vector3.setY (InputSystem.cursor s) (InputSystem.cursorHeight s))
              (InputSystem.camPosition (InputSystem.camera s)))
           (Some (InputSystem.cursorHeight s
                  - deltaY * InputSystem.elevSensitivity));
       InputSystem.rmb := InputSystem.rmb s2;
       InputSystem.pointer := InputSystem.pointer s2;
       InputSystem.rotate := InputSystem.rotate s2;
       InputSystem.camera := InputSystem.camera s2;
       InputSystem.controls := InputSystem.controls s2;
       InputSystem.gizmos := InputSystem.gizmos s2;
       InputSystem.commandBus := InputSystem.commandBus s2;
       InputSystem.unitManager := InputSystem.unitManager s2 |}).
  { unfold s3, InputSystem.update, InputSystem.onWheel,
      InputSystem.onPointerDownCapture.
    destruct (decide (InputSystem.button e = 2%Z
                      ∧ InputSystem.ctrlKey e = true)) as [_|Hn];
      [|exfalso; apply Hn; split; assumption].
    rewrite Hcam.
    destruct s as [[ux uy uz] ch sel lock rmb ptr rot [[cx cy cz] cd]
                   ctl g bus um].
    unfold InputSystem.engageCameraLock, InputSystem.elevSensitivity,
      Vector3.setY, Vector3.sub, Vector3.add.
    cbn -[Rmax Vector3.length InputSystem.atan2 acos clamp].
    f_equal; [f_equal; lra|lra|f_equal; f_equal; lra]. }
  split; [rewrite Hs3; reflexivity|].
  split; [rewrite Hs3; reflexivity|].
  split; [rewrite Hs3; reflexivity|].
  rewrite Hs3. unfold InputSystem.update.
  destruct s as [[ux uy uz] ch sel lock rmb ptr rot [[cx cy cz] cd]
                 ctl g bus um].
  unfold InputSystem.onWheel, InputSystem.onPointerDownCapture.
  destruct (decide (InputSystem.button e = 2%Z
                    ∧ InputSystem.ctrlKey e = true)) as [_|Hn];
    [|exfalso; apply Hn; split; assumption].
  unfold Vector3.setY, Vector3.sub, Vector3.add.
  cbn -[Rmax Vector3.length InputSystem.atan2 acos clamp].
  f_equal. f_equal; lra.
Qed.

Lemma X26_locked_cursor_follows_wheel_witness :
  let s3 :=
    InputSystem.update
      (InputSystem.onWheel
         (InputSystem.onPointerDownCapture Scenario.world0
            Scenario.ctrlRightDown) 100) in
  InputSystem.cameraInteracting (InputSystem.cameraLock Scenario.world0)
  = false
  ∧ InputSystem.cursorHeight s3
    = InputSystem.cursorHeight Scenario.world0
      - 100 * InputSystem.elevSensitivity.
Proof.
  intros s3. split; [reflexivity|].
  exact (proj1 (proj2 (X26_locked_cursor_follows_wheel Scenario.world0
                         Scenario.ctrlRightDown 100
                         eq_refl eq_refl eq_refl))).
Defined.

(** X27: for a positive step the grid tick is a whole multiple of the step,
    and it is the one just below the cursor height raised by the epsilon:
    the tick is at most that height and less than one step under it. *)
Theorem X27_grid_tick_below_cursor (cursorHeight step : R) :
  0 < step →
  let tick := InputSystem.gridTick cursorHeight step in
  (∃ k : Z, tick = IZR k * step)
  ∧ tick <= cursorHeight + 1e-4 < tick + step.
Proof.
  intros Hstep tick. unfold tick, InputSystem.gridTick.
  set (q := (cursorHeight + 1e-4) / step).
  split; [exists (Zfloor q); reflexivity|].
  destruct (Zfloor_bound q) as [Hlo Hhi].
  assert (Hq : cursorHeight + 1e-4 = q * step)
    by (unfold q; field; lra).
  rewrite Hq. split; nra.
Qed.

Lemma X27_grid_tick_below_cursor_witness :
  0 < 10
  ∧ InputSystem.gridTick 25 10 <= 25 + 1e-4
      < InputSystem.gridTick 25 10 + 10.
Proof.
  assert (H : 0 < 10) by lra.
  split; [exact H|].
  exact (proj2 (X27_grid_tick_below_cursor 25 10 H)).
Defined.

Lemma spotFree_clear (us : list Unit.t) (newRadius : R) (p : Vector3.t) :
  UnitManager.spotFree us newRadius p = true →
  ∀ u, u ∈ us →
    (newRadius + Unit.radius u) * 1.4
    <= Vector3.distanceTo p (Unit.position u).
Proof.
  unfold UnitManager.spotFree.
  induction us as [|v us IH]; intros Hfree u Hin.
  - apply elem_of_nil in Hin. contradiction.
  - cbn [forallb] in Hfree. apply andb_prop in Hfree as [Hv Hrest].
    apply elem_of_cons in Hin as [->|Hin].
    + destruct (Rlt_dec (Vector3.distanceTo p (Unit.position v))
                        ((newRadius + Unit.radius v) * 1.4));
        [discriminate|lra].
    + apply IH; assumption.
Qed.

Lemma findSpotFrom_first (us : list Unit.t)
    (baseRadius startAngle newRadius y : R) (fuel t : nat) (p : Vector3.t) :
  UnitManager.findSpotFrom us baseRadius startAngle newRadius y fuel t
  = Some p →
  ∃ k, (t <= k < t + fuel)%nat
    ∧ p = UnitManager.spawnCandidate baseRadius startAngle newRadius y k
    ∧ UnitManager.spotFree us newRadius p = true
    ∧ ∀ k', (t <= k' < k)%nat →
        UnitManager.spotFree us newRadius
          (UnitManager.spawnCandidate baseRadius startAngle newRadius y k')
        = false.
Proof.
  revert t. induction fuel as [|fuel IH]; intros t Hfind; [discriminate|].
  cbn [UnitManager.findSpotFrom] in Hfind.
  destruct (UnitManager.spotFree us newRadius
              (UnitManager.spawnCandidate baseRadius startAngle newRadius y t))
    eqn:Hfree.
  - injection Hfind as <-. exists t.
    split; [lia|]. split; [reflexivity|]. split; [exact Hfree|].
    intros k' Hk'. lia.
  - destruct (IH (S t) Hfind) as (k & Hk & Hp & Hok & Hmin).
    exists k. split; [lia|]. split; [exact Hp|]. split; [exact Hok|].
    intros k' Hk'. destruct (decide (k' = t)) as [->|Hne];
      [exact Hfree|apply Hmin; lia].
Qed.

(** X28: the spawn spot lies at the height asked for; it is either the
    first of the 64 candidates that keeps 1.4 times the sum of the radii
    from every unit (all earlier candidates being refused), or the fallback
    point 50 beyond the base ring; with no unit it is the point of the base
    ring at the start angle. *)
Theorem X28_spawn_spot_first_free_or_fallback
    (um : UnitManager.t) (baseRadius startAngle newRadius y : R) :
  let p := UnitManager.findSpawnSpot um baseRadius startAngle newRadius y in
  Vector3.y p = y
  ∧ ((∃ k, (k < 64)%nat
        ∧ p = UnitManager.spawnCandidate baseRadius startAngle newRadius y k
        ∧ (∀ u, u ∈ UnitManager.units um →
             (newRadius + Unit.radius u) * 1.4
             <= Vector3.distanceTo p (Unit.position u))
        ∧ ∀ k', (k' < k)%nat →
            UnitManager.spotFree (UnitManager.units um) newRadius
              (UnitManager.spawnCandidate baseRadius startAngle newRadius y k')
            = false)
     ∨ p = Vector3.mk (cos startAngle * (baseRadius + 50)) y
                      (sin startAngle * (baseRadius + 50)))
  ∧ UnitManager.findSpawnSpot (UnitManager.mk [] (UnitManager.obstacles um))
      baseRadius startAngle newRadius y
    = Vector3.mk (cos startAngle * baseRadius) y (sin startAngle * baseRadius).
Proof.
  intros p. unfold p, UnitManager.findSpawnSpot.
  split; [|split].
  - destruct (UnitManager.findSpotFrom (UnitManager.units um) baseRadius
                startAngle newRadius y 64 0) as [q|] eqn:Hfind;
      [|reflexivity].
    apply findSpotFrom_first in Hfind as (k & _ & -> & _). reflexivity.
  - destruct (UnitManager.findSpotFrom (UnitManager.units um) baseRadius
                startAngle newRadius y 64 0) as [q|] eqn:Hfind;
      [left|right; reflexivity].
    apply findSpotFrom_first in Hfind as (k & Hk & Hq & Hfree & Hmin).
    exists k. split; [lia|]. split; [exact Hq|].
    split; [apply spotFree_clear; exact Hfree|].
    intros k' Hk'. apply Hmin. lia.
  - cbn [UnitManager.units UnitManager.findSpotFrom UnitManager.spotFree
         forallb].
    unfold UnitManager.spawnCandidate.
    change (0 / 12)%nat with 0%nat. cbn [INR].
    replace (startAngle + 0 * (PI / 12)) with startAngle by lra.
    f_equal; ring.
Qed.

(** X29: spawning appends one unit and nothing else: the units already
    there keep their places, the new unit is the last one, stands at the
    given position, is unselected and has no target; when every id in the
    fleet is below the id counter and the ids are distinct, both still hold
    with the counter returned. *)
Theorem X29_spawn_keeps_ids_distinct
    (nextId : nat) (um : UnitManager.t) (pos : Vector3.t) :
  Forall (λ u, (Unit.id u < nextId)%nat) (UnitManager.units um) →
  NoDup (Unit.id <$> UnitManager.units um) →
  let r := UnitManager.spawnUnit nextId um pos in
  let next' := r.1.1 in
  let um' := r.1.2 in
  let u := r.2 in
  Forall (λ v, (Unit.id v < next')%nat) (UnitManager.units um')
  ∧ NoDup (Unit.id <$> UnitManager.units um')
  ∧ UnitManager.units um' !! length (UnitManager.units um) = Some u
  ∧ (∀ i, (i < length (UnitManager.units um))%nat →
       UnitManager.units um' !! i = UnitManager.units um !! i)
  ∧ length (UnitManager.units um') = S (length (UnitManager.units um))
  ∧ Unit.position u = pos ∧ Unit.selected u = false ∧ Unit.target u = None
  ∧ UnitManager.obstacles um' = UnitManager.obstacles um.
Proof.
  intros Hlt Hnd r next' um' u.
  unfold next', um', u, r, UnitManager.spawnUnit.
  cbn [fst snd UnitManager.units UnitManager.obstacles].
  split; [|split; [|split; [|split; [|split]]]].
  - apply Forall_app. split.
    + eapply Forall_impl; [exact Hlt|]. intros v Hv. simpl in Hv. lia.
    + constructor; [simpl; lia|constructor].
  - rewrite fmap_app. apply NoDup_app. split; [exact Hnd|]. split.
    + intros i Hi Hin. simpl in Hin.
      apply list_elem_of_singleton in Hin. subst i.
      apply list_elem_of_fmap in Hi as (v & Hid & Hv).
      rewrite Forall_forall in Hlt. specialize (Hlt v Hv). simpl in Hlt.
      simpl in Hid. lia.
    + simpl. apply NoDup_singleton.
  - rewrite lookup_app_r by lia. rewrite Nat.sub_diag. reflexivity.
  - intros i Hi. apply lookup_app_l. exact Hi.
  - rewrite length_app. simpl. lia.
  - repeat split; reflexivity.
Qed.

Lemma X29_spawn_keeps_ids_distinct_witness :
  let r := UnitManager.spawnUnit 3 Scenario.fleet (Vector3.mk 9 0 9) in
  Forall (λ u, (Unit.id u < 3)%nat) (UnitManager.units Scenario.fleet)
  ∧ NoDup (Unit.id <$> UnitManager.units r.1.2).
Proof.
  intros r.
  assert (Hlt : Forall (λ u, (Unit.id u < 3)%nat)
                  (UnitManager.units Scenario.fleet))
    by (repeat constructor).
  assert (Hnd : NoDup (Unit.id <$> UnitManager.units Scenario.fleet)).
  { apply NoDup_cons. split.
    - intros Hin. apply list_elem_of_singleton in Hin. discriminate.
    - apply NoDup_singleton. }
  split; [exact Hlt|].
  exact (proj1 (proj2 (X29_spawn_keeps_ids_distinct 3 Scenario.fleet
                         (Vector3.mk 9 0 9) Hlt Hnd))).
Defined.

Lemma neighborPairs_elem (n i j : nat) :
  (i, j) ∈ UnitManager.neighborPairs n ↔ (i < j < n)%nat.
Proof.
  unfold UnitManager.neighborPairs. rewrite list_elem_of_bind. split.
  - intros (a & Hin & Ha). apply list_elem_of_fmap in Hin as (b & Heq & Hb).
    injection Heq as -> ->. apply elem_of_seq in Ha, Hb. lia.
  - intros Hij. exists i. split.
    + apply list_elem_of_fmap. exists j. split; [reflexivity|].
      apply elem_of_seq. lia.
    + apply elem_of_seq. lia.
Qed.

Lemma collect_pairs (us : list Unit.t) (l : list (nat * nat))
    (w : list (Unit.t * Unit.t)) :
  foldl (λ w' ij,
           match us !! ij.1, us !! ij.2 with
           | Some a, Some b => w' ++ [(a, b)]
           | _, _ => w'
           end) w l
  = w ++ omap (λ ij, a ← us !! ij.1; b ← us !! ij.2; Some (a, b)) l.
Proof.
  revert w. induction l as [|ij l IH]; intros w.
  - simpl. rewrite app_nil_r. reflexivity.
  - cbn [foldl]. rewrite IH.
    change (omap ?f (ij :: l)) with
      (match f ij with Some y => y :: omap f l | None => omap f l end).
    destruct ij as [i j]. cbn [fst snd].
    destruct (us !! i) as [a|] eqn:Hi; cbn; rewrite ?Hi; cbn;
      [|reflexivity].
    destruct (us !! j) as [b|] eqn:Hj; cbn; rewrite ?Hj; cbn;
      [|reflexivity].
    rewrite <- app_assoc. reflexivity.
Qed.

(** X30: the pair loop visits the index pair (i, j) exactly when
    i < j < n, each such pair once; so a callback that records its two
    arguments is handed the units a and b exactly when a stands before b in
    the fleet. *)
Theorem X30_neighbor_pairs_each_once (um : UnitManager.t) :
  (∀ n i j, (i, j) ∈ UnitManager.neighborPairs n ↔ (i < j < n)%nat)
  ∧ (∀ n, NoDup (UnitManager.neighborPairs n))
  ∧ ∀ a b,
      (a, b) ∈ UnitManager.forEachNeighborPairs um
                 (λ a b w, w ++ [(a, b)]) []
      ↔ ∃ i j, (i < j)%nat
          ∧ UnitManager.units um !! i = Some a
          ∧ UnitManager.units um !! j = Some b.
Proof.
  split; [intros n i j; apply neighborPairs_elem|]. split.
  - intros n. unfold UnitManager.neighborPairs. apply NoDup_bind.
    + intros i1 i2 [a b] _ _ H1 H2.
      apply list_elem_of_fmap in H1 as (b1 & Heq1 & _).
      apply list_elem_of_fmap in H2 as (b2 & Heq2 & _).
      congruence.
    + intros i _. apply NoDup_fmap_2; [|apply NoDup_seq].
      intros b1 b2 Heq. congruence.
    + apply NoDup_seq.
  - intros a b. unfold UnitManager.forEachNeighborPairs.
    rewrite collect_pairs. cbn [app]. rewrite list_elem_of_omap. split.
    + intros ([i j] & Hin & Hget). apply neighborPairs_elem in Hin.
      cbn [fst snd] in Hget.
      destruct (UnitManager.units um !! i) as [a'|] eqn:Hi; [|discriminate].
      destruct (UnitManager.units um !! j) as [b'|] eqn:Hj; [|discriminate].
      cbn in Hget. injection Hget as -> ->.
      exists i, j. split; [lia|]. split; assumption.
    + intros (i & j & Hij & Hi & Hj). exists (i, j). split.
      * apply neighborPairs_elem. apply lookup_lt_Some in Hj. lia.
      * cbn [fst snd]. rewrite Hi, Hj. reflexivity.
Qed.
